(** * The translation catalog of [useTranslations.ts], embedded in Rocq

    The hook keeps three pieces of React state: the catalog ([data]), the
    snapshot it was loaded or saved from ([originalData]) and the list of
    pending edits ([unsavedChanges]).  Every callback of the hook reads that
    state, builds new values and hands them to the setters; here a callback
    is a function from the state to an [outcome], which is either the next
    state or the JavaScript exception that escapes the callback (in which
    case no setter has run and the state is the one before the call).

    Modelling conventions.
    - A JSON value of the catalog is a string or a plain object
      ([TranslationNode] and [TranslationValue] of [types/translation.ts]).
      An object is the list of its own properties in the order of
      [Object.keys]: array-index names first, in ascending numeric order,
      then the other names in creation order.
    - [js_get] and [obj_set] are the own-property part of a read and of
      an assignment.  A read that finds an own property is the read of the
      program.  A read that finds none is [undefined] in the program only
      for a name the value does not inherit ([reads_as_model]); what is
      reached through a member of [Object.prototype] or [String.prototype]
      is an object of the runtime and has no counterpart here.  An
      assignment to [__proto__] creates a property only where one exists
      ([assigns_as_model]).  Statements that rest on a read that finds
      nothing or on an assignment that creates a property carry these
      conditions as hypotheses.
    - Characters are code units below 256; numbers are exact rationals, so
      the rounding of IEEE doubles is not part of the model: statements
      about completeness give the formula the source evaluates, or bounds
      and comparisons that rounding keeps.
    - The module is an ES module and therefore strict: writing a property of
      a string primitive, or reading one of [undefined], throws [TypeError].
    - [JSON.parse(JSON.stringify(x))] and object spread produce a fresh copy
      equal to [x]; values are immutable here, so the copy is [x] itself. *)

From Stdlib Require Import List String Ascii Bool Arith NArith ZArith QArith Lia.
From Stdlib Require Import DecimalString.
Import ListNotations.

Local Close Scope Q_scope.
Local Open Scope nat_scope.
Local Open Scope string_scope.
Local Open Scope list_scope.

Set Implicit Arguments.

(** ** Exceptions *)

Inductive js_error : Type :=
| TypeError
| RangeError.

Inductive outcome (A : Type) : Type :=
| Returns (a : A)
| Throws (e : js_error).

Arguments Returns {A} a.
Arguments Throws {A} e.

Definition bind {A B : Type} (m : outcome A) (f : A -> outcome B) : outcome B :=
  match m with
  | Returns a => f a
  | Throws e => Throws e
  end.

Notation "x <- m ;; k" := (bind m (fun x => k))
  (at level 61, m at next level, right associativity).

(** ** Strings *)

(** [keyPath.split('.')]: never empty, the empty string gives one empty segment. *)
Fixpoint split_dot (s : string) : list string :=
  match s with
  | EmptyString => [EmptyString]
  | String c rest =>
      if Ascii.eqb c "." then EmptyString :: split_dot rest
      else match split_dot rest with
           | [] => [String c EmptyString]
           | seg :: segs => String c seg :: segs
           end
  end.

(** White space and line terminators of [String.prototype.trim] among the
    code units below 256: TAB, LF, VT, FF, CR, SP and NBSP. *)
Definition is_space (c : ascii) : bool :=
  let n := nat_of_ascii c in
  (((9 <=? n) && (n <=? 13)) || (n =? 32) || (n =? 160))%nat.

Fixpoint trim_start (s : string) : string :=
  match s with
  | EmptyString => EmptyString
  | String c rest => if is_space c then trim_start rest else s
  end.

(** Drops the trailing white space: a character is kept when it is not a
    space or when something is kept after it. *)
Fixpoint trim_end (s : string) : string :=
  match s with
  | EmptyString => EmptyString
  | String c rest =>
      match trim_end rest with
      | EmptyString => if is_space c then EmptyString else String c EmptyString
      | kept => String c kept
      end
  end.

Definition trim (s : string) : string := trim_end (trim_start s).

(** Truthiness of a string: every string but the empty one. *)
Definition nonempty (s : string) : bool :=
  match s with
  | EmptyString => false
  | String _ _ => true
  end.

(** ** Array-index property names

    A property name is an array index when it is the canonical decimal
    form of an integer below 2^32 - 1.  Such names are enumerated before
    all others, and they address the characters of a string. *)

Definition digit_of (c : ascii) : option N :=
  let n := N_of_ascii c in
  if ((48 <=? n) && (n <=? 57))%N then Some (n - 48)%N else None.

Fixpoint digits_value (s : string) (acc : N) : option N :=
  match s with
  | EmptyString => Some acc
  | String c rest =>
      match digit_of c with
      | Some d => digits_value rest (acc * 10 + d)%N
      | None => None
      end
  end.

Definition array_index (s : string) : option N :=
  match s with
  | EmptyString => None
  | String c rest =>
      if Ascii.eqb c "0" then
        match rest with
        | EmptyString => Some 0%N
        | String _ _ => None
        end
      else
        match digits_value s 0 with
        | Some n => if (n <? 4294967295)%N then Some n else None
        | None => None
        end
  end.

(** ** JSON values *)

Local Unset Elimination Schemes.

Inductive JVal : Type :=
| JStr (s : string)
| JObj (props : list (string * JVal)).

Local Set Elimination Schemes.

Definition obj : Type := list (string * JVal).

(** [Object.keys(o)]. *)
Definition own_keys (o : obj) : list string := map fst o.

Fixpoint obj_get (k : string) (o : obj) : option JVal :=
  match o with
  | [] => None
  | (k', v) :: rest => if String.eqb k k' then Some v else obj_get k rest
  end.

(** Overwrites the value of a property that exists; its position is kept. *)
Fixpoint obj_replace (k : string) (v : JVal) (o : obj) : obj :=
  match o with
  | [] => []
  | (k', v') :: rest =>
      if String.eqb k k' then (k', v) :: rest
      else (k', v') :: obj_replace k v rest
  end.

(** Creates an array-index property: after the smaller indices, before the
    larger ones and before every other name. *)
Fixpoint obj_insert_index (i : N) (k : string) (v : JVal) (o : obj) : obj :=
  match o with
  | [] => [(k, v)]
  | (k', v') :: rest =>
      match array_index k' with
      | Some j =>
          if (j <? i)%N then (k', v') :: obj_insert_index i k v rest
          else (k, v) :: o
      | None => (k, v) :: o
      end
  end.

(** [o[k] = v] on an object, as the creation or the overwriting of an own
    property.  This is the assignment of the program for every name but
    [__proto__]; for that name it is so only where the property is own
    already ([assigns_as_model] below). *)
Definition obj_set (k : string) (v : JVal) (o : obj) : obj :=
  match obj_get k o with
  | Some _ => obj_replace k v o
  | None =>
      match array_index k with
      | Some i => obj_insert_index i k v o
      | None => o ++ [(k, v)]
      end
  end.

(** [delete o[k]]. *)
Definition obj_delete (k : string) (o : obj) : obj :=
  filter (fun kv => negb (String.eqb k (fst kv))) o.

(** The one-character string at position [i] of [s], when there is one. *)
Fixpoint char_at (i : nat) (s : string) : option string :=
  match s with
  | EmptyString => None
  | String c rest =>
      match i with
      | O => Some (String c EmptyString)
      | S i' => char_at i' rest
      end
  end.

(** The own-property part of [v[k]], for a value that is not [undefined]:
    the own property [k] of an object, the character of a string at an
    index.  [None] says that there is no own property; the program then
    reads [undefined] unless [v] inherits the name ([reads_as_model]
    below), in which case it reads a member of [Object.prototype] or of
    [String.prototype], which this model does not follow. *)
Definition js_get (v : JVal) (k : string) : option JVal :=
  match v with
  | JObj o => obj_get k o
  | JStr s =>
      match array_index k with
      | Some i => option_map JStr (char_at (N.to_nat i) s)
      | None => None
      end
  end.

(** [x !== undefined]. *)
Definition defined {A : Type} (x : option A) : bool :=
  match x with
  | Some _ => true
  | None => false
  end.

(** Truthiness: objects and non-empty strings. *)
Definition truthy (v : JVal) : bool :=
  match v with
  | JObj _ => true
  | JStr s => nonempty s
  end.

(** [v[k] = x] in strict mode: a string primitive cannot take a property. *)
Definition js_set (v : JVal) (k : string) (x : JVal) : outcome JVal :=
  match v with
  | JObj o => Returns (JObj (obj_set k x o))
  | JStr _ => Throws TypeError
  end.

(** Puts back a child that was reached through [v[k]] and then mutated.
    The child of an object is shared with it, so the mutation shows in the
    object; the character read from a string is a fresh primitive. *)
Definition js_write_back (v : JVal) (k : string) (child : JVal) : JVal :=
  match v with
  | JObj o => JObj (obj_replace k child o)
  | JStr s => JStr s
  end.

(** ** The catalog and the state of the hook *)

Record TranslationData : Type := mkTranslationData {
  project : string;
  languages : list string;
  translations : obj
}.

Record UnsavedChange : Type := mkUnsavedChange {
  keyPath : string;
  language : string;
  originalValue : JVal;
  newValue : string
}.

Record State : Type := mkState {
  data : option TranslationData;
  originalData : option TranslationData;
  unsavedChanges : list UnsavedChange
}.

(** [JSON.parse(JSON.stringify(d))]. *)
Definition json_clone (d : TranslationData) : TranslationData := d.

(** [data.languages.includes(k)]. *)
Definition includes (k : string) (langs : list string) : bool :=
  existsb (String.eqb k) langs.

(** [Object.keys(value).some(k => data.languages.includes(k))] on an object:
    the test the source binds to its local [isLeaf]. *)
Definition is_leaf (langs : list string) (o : obj) : bool :=
  existsb (fun k => includes k langs) (own_keys o).

(** ** Navigation by key path *)

(** The loop [for (i = 0; i < keys.length - 1; i++) current = current[keys[i]]]
    over the segments before the last, then [act] on the value reached.
    A segment that reads [undefined] makes the next property access throw,
    and there always is one: the next turn of the loop or the access to the
    last key.  What [act] changes in the value reached is visible from the
    root, because the loop follows references into the copy. *)
Fixpoint at_parent (segs : list string) (act : JVal -> outcome JVal)
    (current : JVal) : outcome JVal :=
  match segs with
  | [] => act current
  | k :: rest =>
      match js_get current k with
      | None => Throws TypeError
      | Some child =>
          child' <- at_parent rest act child ;;
          Returns (js_write_back current k child')
      end
  end.

(** The same loop when nothing is written: the value it stops at. *)
Fixpoint descend (segs : list string) (current : JVal) : outcome JVal :=
  match segs with
  | [] => Returns current
  | k :: rest =>
      match js_get current k with
      | None => Throws TypeError
      | Some child => descend rest child
      end
  end.

Definition as_obj (v : JVal) : obj :=
  match v with
  | JObj o => o
  | JStr _ => []
  end.

(** ** updateTranslation *)

(** [if (current[lastKey]) current[lastKey][language] = value]. *)
Definition write_value (lastKey language value : string) (current : JVal)
    : outcome JVal :=
  match js_get current lastKey with
  | Some target =>
      if truthy target then
        target' <- js_set target language (JStr value) ;;
        Returns (js_write_back current lastKey target')
      else Returns current
  | None => Returns current
  end.

(** [x || ''], where [None] is [undefined]. *)
Definition or_empty (x : option JVal) : JVal :=
  match x with
  | Some v => if truthy v then v else JStr ""
  | None => JStr ""
  end.

(** [originalCurrent[lastKey]?.[language] || ''] *)
Definition read_original (lastKey language : string) (originalCurrent : JVal)
    : JVal :=
  match js_get originalCurrent lastKey with
  | Some node => or_empty (js_get node language)
  | None => JStr ""
  end.

(** [value === originalValue] for a string [value]. *)
Definition strict_eq (value : string) (originalValue : JVal) : bool :=
  match originalValue with
  | JStr s => String.eqb value s
  | JObj _ => false
  end.

(** [prev.findIndex(p)], with [None] for -1. *)
Fixpoint findIndex {A : Type} (p : A -> bool) (l : list A) : option nat :=
  match l with
  | [] => None
  | x :: rest => if p x then Some 0 else option_map S (findIndex p rest)
  end.

(** [prev.filter((_, i) => i !== existing)]. *)
Fixpoint remove_at {A : Type} (i : nat) (l : list A) : list A :=
  match l, i with
  | [], _ => []
  | _ :: rest, O => rest
  | x :: rest, S i' => x :: remove_at i' rest
  end.

(** [updated[existing] = change] on a copy, for an index inside the list. *)
Fixpoint replace_at {A : Type} (i : nat) (x : A) (l : list A) : list A :=
  match l, i with
  | [], _ => []
  | _ :: rest, O => x :: rest
  | y :: rest, S i' => y :: replace_at i' x rest
  end.

Definition targets (kp lang : string) (c : UnsavedChange) : bool :=
  String.eqb (keyPath c) kp && String.eqb (language c) lang.

(** The updater passed to [setUnsavedChanges] by [updateTranslation]. *)
Definition recordEdit (kp lang value : string) (original : JVal)
    (prev : list UnsavedChange) : list UnsavedChange :=
  let existing := findIndex (targets kp lang) prev in
  if strict_eq value original then
    match existing with
    | Some i => remove_at i prev
    | None => prev
    end
  else
    let change := mkUnsavedChange kp lang original value in
    match existing with
    | Some i => replace_at i change prev
    | None => prev ++ [change]
    end.

Definition with_translations (d : TranslationData) (t : obj) : TranslationData :=
  mkTranslationData (project d) (languages d) t.

Definition updateTranslation (kp lang value : string) (st : State)
    : outcome State :=
  match data st, originalData st with
  | Some d, Some od =>
      let keys := split_dot kp in
      let newData := json_clone d in
      let lastKey := last keys "" in
      root <- at_parent (removelast keys) (write_value lastKey lang value)
                (JObj (translations newData)) ;;
      originalCurrent <- descend (removelast keys) (JObj (translations od)) ;;
      let original := read_original lastKey lang originalCurrent in
      Returns (mkState (Some (with_translations newData (as_obj root)))
                       (originalData st)
                       (recordEdit kp lang value original (unsavedChanges st)))
  | _, _ => Returns st
  end.

(** ** renameKey *)

Definition rename_sentinel : string := "__key_rename__".

(** [if (parent[oldKey] !== undefined)
       { parent[newKeyName] = parent[oldKey]; delete parent[oldKey]; }] *)
Definition move_key (oldKey newKeyName : string) (parent : JVal)
    : outcome JVal :=
  match js_get parent oldKey with
  | Some v =>
      parent' <- js_set parent newKeyName v ;;
      Returns (JObj (obj_delete oldKey (as_obj parent')))
  | None => Returns parent
  end.

Definition renameKey (oldPath newKeyName : string) (st : State)
    : outcome State :=
  match data st with
  | Some d =>
      let keys := split_dot oldPath in
      let newData := json_clone d in
      let oldKey := last keys "" in
      root <- at_parent (removelast keys) (move_key oldKey newKeyName)
                (JObj (translations newData)) ;;
      Returns (mkState (Some (with_translations newData (as_obj root)))
                       (originalData st)
                       (unsavedChanges st ++
                        [mkUnsavedChange oldPath rename_sentinel
                                         (JStr oldKey) newKeyName]))
  | None => Returns st
  end.

(** ** addLanguage and removeLanguage *)

(** The loop
    [for (const [key, value] of Object.entries(node)) result[key] = ...]
    into a fresh [result]; [f] gives the value stored under [key], or
    [None] when the body stores nothing for that entry. *)
Definition rebuild (f : string -> JVal -> option JVal) (node : obj) : obj :=
  fold_left
    (fun result kv =>
       match f (fst kv) (snd kv) with
       | Some v => obj_set (fst kv) v result
       | None => result
       end)
    node [].

Fixpoint addLanguageToNode (langs : list string) (languageCode : string)
    (node : JVal) {struct node} : obj :=
  match node with
  | JObj props =>
      rebuild
        (fun key value =>
           match value with
           | JObj o =>
               if is_leaf langs o
               then Some (JObj (obj_set languageCode (JStr "") o))
               else Some (JObj (addLanguageToNode langs languageCode value))
           | JStr _ => None
           end)
        props
  | JStr _ => []
  end.

Definition addLanguage (languageCode : string) (st : State) : outcome State :=
  match data st with
  | Some d =>
      if includes languageCode (languages d) then Returns st
      else
        Returns
          (mkState
             (Some (mkTranslationData
                      (project d)
                      (languages d ++ [languageCode])
                      (addLanguageToNode (languages d) languageCode
                         (JObj (translations d)))))
             (originalData st)
             (unsavedChanges st))
  | None => Returns st
  end.

Fixpoint removeLanguageFromNode (langs : list string) (languageCode : string)
    (node : JVal) {struct node} : obj :=
  match node with
  | JObj props =>
      rebuild
        (fun key value =>
           match value with
           | JObj o =>
               if is_leaf langs o
               then Some (JObj (obj_delete languageCode o))
               else Some (JObj (removeLanguageFromNode langs languageCode value))
           | JStr _ => None
           end)
        props
  | JStr _ => []
  end.

Definition removeLanguage (languageCode : string) (st : State)
    : outcome State :=
  match data st with
  | Some d =>
      if (List.length (languages d) <=? 1)%nat then Returns st
      else
        Returns
          (mkState
             (Some (mkTranslationData
                      (project d)
                      (filter (fun l => negb (String.eqb l languageCode))
                              (languages d))
                      (removeLanguageFromNode (languages d) languageCode
                         (JObj (translations d)))))
             (originalData st)
             (unsavedChanges st))
  | None => Returns st
  end.

(** ** saveChanges and discardChanges *)

(** The simulated request always resolves, so the [catch] is never taken. *)
Definition saveChanges (st : State) : outcome State :=
  match data st with
  | Some d => Returns (mkState (data st) (Some (json_clone d)) [])
  | None => Returns st
  end.

Definition discardChanges (st : State) : outcome State :=
  match originalData st with
  | Some od => Returns (mkState (Some (json_clone od)) (originalData st) [])
  | None => Returns st
  end.

(** ** buildTree *)

Local Unset Elimination Schemes.

Inductive TreeNode : Type := mkTreeNode {
  key : string;
  path : string;
  depth : nat;
  isLeaf : bool;
  children : option (list TreeNode);
  values : option JVal;
  completeness : Q
}.

Local Set Elimination Schemes.

Definition number_of_nat (n : nat) : Q := inject_Z (Z.of_nat n).

(** [values[lang]?.trim()] as a condition, on the own-property read of
    [js_get]: [undefined] is skipped by [?.], a string is trimmed, and an
    object has no [trim] to call. *)
Definition is_filled (vals : JVal) (lang : string) : outcome bool :=
  match js_get vals lang with
  | None => Returns false
  | Some (JStr s) => Returns (nonempty (trim s))
  | Some (JObj _) => Throws TypeError
  end.

(** [data.languages.filter(lang => values[lang]?.trim()).length] *)
Fixpoint filledCount (vals : JVal) (langs : list string) : outcome nat :=
  match langs with
  | [] => Returns 0
  | lang :: rest =>
      b <- is_filled vals lang ;;
      n <- filledCount vals rest ;;
      Returns (if b then S n else n)
  end.

(** [c || 0] on a number. *)
Definition or_zero (c : Q) : Q := if Qeq_bool c 0 then 0%Q else c.

(** [children.reduce((sum, child) => sum + (child.completeness || 0), 0)];
    the two branches of the callback are the same expression. *)
Definition totalCompleteness (nodes : list TreeNode) : Q :=
  fold_left (fun sum child => (sum + or_zero (completeness child))%Q) nodes 0%Q.

Definition avgCompleteness (nodes : list TreeNode) : Q :=
  if (0 <? List.length nodes)%nat
  then (totalCompleteness nodes / number_of_nat (List.length nodes))%Q
  else 100%Q.

(** [path ? `${path}.${key}` : key] *)
Definition child_path (parent k : string) : string :=
  if nonempty parent then parent ++ "." ++ k else k.

(** One turn of the [map] callback of [buildTree].  [Object.keys] of a
    string lists the indices of its characters, so a string is a leaf when
    a language code is one of them.  A non-empty string that is not a leaf
    is walked as a namespace whose entries are its characters, each of them
    again a non-empty string that is not a leaf: the recursion has no end
    and the engine raises [RangeError].  The empty string has no entries.
    The completeness is the source's expression evaluated on rationals;
    the source evaluates it on doubles and rounds each operation. *)
Fixpoint buildNode (langs : list string) (parent : string) (dep : nat)
    (k : string) (value : JVal) {struct value} : outcome TreeNode :=
  let currentPath := child_path parent k in
  let leaf :=
    filled <- filledCount value langs ;;
    Returns (mkTreeNode k currentPath dep true None (Some value)
               ((number_of_nat filled / number_of_nat (List.length langs))
                * 100)%Q) in
  match value with
  | JObj o =>
      if is_leaf langs o then leaf
      else
        nodes <-
          (fix each (entries : obj) : outcome (list TreeNode) :=
             match entries with
             | [] => Returns []
             | (k', v') :: rest =>
                 n <- buildNode langs currentPath (S dep) k' v' ;;
                 ns <- each rest ;;
                 Returns (n :: ns)
             end) o ;;
        Returns (mkTreeNode k currentPath dep false (Some nodes) None
                   (avgCompleteness nodes))
  | JStr s =>
      if existsb (fun lang => defined (js_get value lang)) langs
      then leaf
      else if nonempty s then Throws RangeError
      else Returns (mkTreeNode k currentPath dep false (Some []) None
                      (avgCompleteness []))
  end.

(** [Object.entries(node).map(...)], in order; the first exception ends it. *)
Fixpoint buildTree (langs : list string) (node : obj) (parent : string)
    (dep : nat) : outcome (list TreeNode) :=
  match node with
  | [] => Returns []
  | (k, v) :: rest =>
      n <- buildNode langs parent dep k v ;;
      ns <- buildTree langs rest parent dep ;;
      Returns (n :: ns)
  end.

(** The hook's [buildTree]: [[]] while nothing is loaded. *)
Definition buildTreeOf (st : State) (node : obj) (parent : string) (dep : nat)
    : outcome (list TreeNode) :=
  match data st with
  | Some d => buildTree (languages d) node parent dep
  | None => Returns []
  end.

(** ** exportToJson *)

Fixpoint extractLanguage (langs : list string) (node : JVal) (lang : string)
    {struct node} : obj :=
  match node with
  | JObj props =>
      rebuild
        (fun key value =>
           match value with
           | JObj o =>
               if is_leaf langs o
               then Some (or_empty (obj_get lang o))
               else Some (JObj (extractLanguage langs value lang))
           | JStr _ => None
           end)
        props
  | JStr _ => []
  end.

(** [None] as result is [null]; [None] as argument is a call without one. *)
Definition exportToJson (lang : option string) (st : State) : option obj :=
  match data st with
  | None => None
  | Some d =>
      match lang with
      | Some l =>
          if nonempty l
          then Some (extractLanguage (languages d) (JObj (translations d)) l)
          else Some (translations d)
      | None => Some (translations d)
      end
  end.

(** ** A catalog to compute with

    The [auth] namespace of the hook's [mockData], with its two languages. *)

Definition leaf2 (en de : string) : JVal :=
  JObj [("en", JStr en); ("de", JStr de)].

Definition sample_tree : obj :=
  [("auth",
    JObj [("login",
           JObj [("title", leaf2 "Login" "Anmelden");
                 ("button", leaf2 "Sign In" "Einloggen");
                 ("forgot_password", leaf2 "Forgot password?" "")]);
          ("register",
           JObj [("title", leaf2 "Create Account" "Konto erstellen");
                 ("subtitle", leaf2 "Join us today" "Heute beitreten")])])].

Definition sample_data : TranslationData :=
  mkTranslationData "Languge Management System" ["en"; "de"] sample_tree.

(** The state after [fetchTranslations] has resolved with [d]. *)
Definition loaded (d : TranslationData) : State :=
  mkState (Some d) (Some (json_clone d)) [].

(** ** Reading the tree, sequences of calls, and the data model *)

(** The node a list of segments leads to, [None] when a segment is missing. *)
Fixpoint resolve (segs : list string) (v : JVal) : option JVal :=
  match segs with
  | [] => Some v
  | k :: rest =>
      match js_get v k with
      | Some child => resolve rest child
      | None => None
      end
  end.

Definition resolve_path (kp : string) (d : TranslationData) : option JVal :=
  resolve (split_dot kp) (JObj (translations d)).

(** The calls the presentation layer can make. *)
Inductive call : Type :=
| UpdateTranslation (kp lang value : string)
| RenameKey (oldPath newKeyName : string)
| AddLanguage (languageCode : string)
| RemoveLanguage (languageCode : string)
| SaveChanges
| DiscardChanges.

Definition perform (c : call) (st : State) : outcome State :=
  match c with
  | UpdateTranslation kp lang value => updateTranslation kp lang value st
  | RenameKey oldPath newKeyName => renameKey oldPath newKeyName st
  | AddLanguage code => addLanguage code st
  | RemoveLanguage code => removeLanguage code st
  | SaveChanges => saveChanges st
  | DiscardChanges => discardChanges st
  end.

(** The state a call leaves behind: an exception escapes before any setter
    has run. *)
Definition after (c : call) (st : State) : State :=
  match perform c st with
  | Returns st' => st'
  | Throws _ => st
  end.

Definition after_all (cs : list call) (st : State) : State :=
  fold_left (fun s c => after c s) cs st.

(** The order of [Object.keys]: [a] may come before [b]. *)
Definition key_before (a b : string) : bool :=
  negb (String.eqb a b) &&
  match array_index a, array_index b with
  | Some i, Some j => (i <? j)%N
  | Some _, None => true
  | None, Some _ => false
  | None, None => true
  end.

Fixpoint ordered_keys (ks : list string) : bool :=
  match ks with
  | [] => true
  | k :: rest => forallb (key_before k) rest && ordered_keys rest
  end.

Definition is_string (v : JVal) : bool :=
  match v with
  | JStr _ => true
  | JObj _ => false
  end.

(** The data model of a node below the root: an object with distinct keys
    in enumeration order that is either a leaf, all of whose entries are
    strings under language codes, or a namespace of such nodes. *)
Fixpoint node_ok (langs : list string) (v : JVal) {struct v} : bool :=
  match v with
  | JStr _ => false
  | JObj o =>
      ordered_keys (own_keys o) &&
      if is_leaf langs o
      then forallb (fun kv => includes (fst kv) langs && is_string (snd kv)) o
      else forallb (fun kv => node_ok langs (snd kv)) o
  end.

Definition tree_ok (langs : list string) (t : obj) : bool :=
  ordered_keys (own_keys t) && forallb (fun kv => node_ok langs (snd kv)) t.

Fixpoint distinct (l : list string) : bool :=
  match l with
  | [] => true
  | x :: rest => negb (includes x rest) && distinct rest
  end.

(** A catalog: distinct non-empty language codes and a tree of nodes. *)
Definition catalog_ok (d : TranslationData) : bool :=
  distinct (languages d) && forallb nonempty (languages d) &&
  tree_ok (languages d) (translations d).

(** The invariant on leaves alone: the keys of every leaf are language
    codes.  A leaf hides what is below it; a namespace is searched. *)
Fixpoint leaves_ok (langs : list string) (v : JVal) {struct v} : bool :=
  match v with
  | JStr _ => true
  | JObj o =>
      if is_leaf langs o
      then forallb (fun k => includes k langs) (own_keys o)
      else forallb (fun kv => leaves_ok langs (snd kv)) o
  end.

Definition leaf_keys_ok (d : TranslationData) : bool :=
  forallb (fun kv => leaves_ok (languages d) (snd kv)) (translations d).

(** [languageCode] names no child of a namespace of the tree. *)
Fixpoint no_collision (langs : list string) (code : string) (v : JVal)
    {struct v} : bool :=
  match v with
  | JStr _ => true
  | JObj o =>
      if is_leaf langs o then true
      else negb (defined (obj_get code o)) &&
           forallb (fun kv => no_collision langs code (snd kv)) o
  end.

(** What [rebuild] amounts to on keys in enumeration order. *)
Fixpoint rebuilt (f : string -> JVal -> option JVal) (node : obj) : obj :=
  match node with
  | [] => []
  | (k, v) :: rest =>
      match f k v with
      | Some v' => (k, v') :: rebuilt f rest
      | None => rebuilt f rest
      end
  end.

(** The single-language export as the specification words it: the same
    nesting and keys, each leaf replaced by its string for [lang], the empty
    string when the leaf has none. *)
Fixpoint single_language (langs : list string) (lang : string) (v : JVal)
    {struct v} : JVal :=
  match v with
  | JStr s => JStr s
  | JObj o =>
      if is_leaf langs o
      then JStr match obj_get lang o with
                | Some (JStr s) => s
                | _ => ""
                end
      else JObj (map (fun kv => (fst kv, single_language langs lang (snd kv))) o)
  end.

(** A catalog in which a namespace is keyed by country codes. *)
Definition countries_data : TranslationData :=
  mkTranslationData "countries" ["en"]
    [("countries",
      JObj [("fr", JObj [("en", JStr "France")]);
            ("de", JObj [("en", JStr "Germany")])])].

(** Paths as lists of segments: [a] leads to an ancestor of [b], or to
    [b] itself. *)
Fixpoint is_prefix (a b : list string) : bool :=
  match a, b with
  | [], _ => true
  | _ :: _, [] => false
  | x :: a', y :: b' => String.eqb x y && is_prefix a' b'
  end.

(** The two paths part at some segment. *)
Fixpoint diverges (a b : list string) : bool :=
  match a, b with
  | x :: a', y :: b' => if String.eqb x y then diverges a' b' else true
  | _, _ => false
  end.

(** The number of pending changes recorded for a key path and a language. *)
Definition pending_for (kp lang : string) (l : list UnsavedChange) : nat :=
  List.length (filter (targets kp lang) l).

(** The value the snapshot holds at a key path for a language, the empty
    string when the snapshot has none. *)
Definition original_value_at (od : TranslationData) (kp lang : string) : JVal :=
  let keys := split_dot kp in
  match resolve (removelast keys) (JObj (translations od)) with
  | Some originalCurrent => read_original (last keys "") lang originalCurrent
  | None => JStr ""
  end.


(** Completeness as the specification words it.  A string is blank when
    it is made of white space only; a language is filled in a leaf when the
    leaf holds a string for it that is not blank. *)
Fixpoint is_blank (s : string) : bool :=
  match s with
  | EmptyString => true
  | String c rest => is_space c && is_blank rest
  end.

Definition filled_in (o : obj) (lang : string) : bool :=
  match obj_get lang o with
  | Some (JStr s) => negb (is_blank s)
  | _ => false
  end.

Definition leaf_completeness (langs : list string) (o : obj) : Q :=
  (number_of_nat (List.length (filter (filled_in o) langs))
   / number_of_nat (List.length langs) * 100)%Q.

Definition mean (qs : list Q) : Q :=
  (fold_right Qplus 0 qs / number_of_nat (List.length qs))%Q.

(** A display node carries the completeness of the value it was built
    from: the ratio of filled languages for a leaf, and for a namespace the
    mean of the completeness of its direct children, 100 without children. *)
Local Unset Elimination Schemes.

Inductive annotated (langs : list string) : JVal -> TreeNode -> Prop :=
| annotated_leaf (o : obj) (n : TreeNode) :
    is_leaf langs o = true ->
    isLeaf n = true ->
    values n = Some (JObj o) ->
    (completeness n == leaf_completeness langs o)%Q ->
    annotated langs (JObj o) n
| annotated_namespace (o : obj) (n : TreeNode) (nodes : list TreeNode) :
    is_leaf langs o = false ->
    isLeaf n = false ->
    children n = Some nodes ->
    Forall2 (annotated langs) (map snd o) nodes ->
    (completeness n ==
     match nodes with
     | [] => 100
     | _ :: _ => mean (map completeness nodes)
     end)%Q ->
    annotated langs (JObj o) n.

Local Set Elimination Schemes.

(** The invariant below a node taken as a namespace, as the root is. *)
Definition children_ok (langs : list string) (v : JVal) : bool :=
  forallb (fun kv => leaves_ok langs (snd kv)) (as_obj v).

(** The invariant on the state: it holds of the catalog and of the
    snapshot that [discardChanges] puts back. *)
Definition leaf_invariant (st : State) : Prop :=
  (forall d, data st = Some d -> leaf_keys_ok d = true) /\
  (forall od, originalData st = Some od -> leaf_keys_ok od = true).

(** ** What sequences of calls keep true *)

(** A language list that can be worked with: distinct codes, at least one. *)
Definition usable (d : TranslationData) : Prop :=
  distinct (languages d) = true /\ 1 <= List.length (languages d).

Definition languages_usable (st : State) : Prop :=
  (exists d, data st = Some d /\ usable d) /\
  (exists od, originalData st = Some od /\ usable od).

(** At most one pending entry for a key path and a language that is not
    the rename sentinel. *)
Definition one_per_language (l : list UnsavedChange) : Prop :=
  forall kp lang, lang <> rename_sentinel -> pending_for kp lang l <= 1.

(** What a run of edits of one path and language keeps true: at most one
    entry for the pair, and when there is one the call does not throw. *)
Definition revertible (od : TranslationData) (kp lang : string) (st : State)
    : Prop :=
  (exists d, data st = Some d) /\
  originalData st = Some od /\
  pending_for kp lang (unsavedChanges st) <= 1 /\
  (pending_for kp lang (unsavedChanges st) <> 0 ->
   forall v, exists st', updateTranslation kp lang v st = Returns st').


(** [x'] satisfies the invariant on leaves wherever [x] did, as a node and
    as a namespace. *)
Definition keeps_leaves (langs : list string) (x x' : JVal) : Prop :=
  (leaves_ok langs x = true -> leaves_ok langs x' = true) /\
  (children_ok langs x = true -> children_ok langs x' = true).

(** ** Inherited properties *)

(** The names of the members of [Object.prototype], which every object of
    the catalog inherits. *)
Definition object_member (k : string) : bool :=
  existsb (String.eqb k)
    ["constructor"; "__defineGetter__"; "__defineSetter__"; "hasOwnProperty";
     "__lookupGetter__"; "__lookupSetter__"; "isPrototypeOf";
     "propertyIsEnumerable"; "toString"; "valueOf"; "__proto__";
     "toLocaleString"].

(** The program reads [v[k]] as [js_get v k] does.  On an object: the
    property is own, or the name is not inherited, so that the read is
    [undefined].  On a string only index names are counted: a character, or
    [undefined] past the end; any other name may be [length] or a member of
    [String.prototype]. *)
Definition reads_as_model (v : JVal) (k : string) : bool :=
  match v with
  | JObj o => defined (obj_get k o) || negb (object_member k)
  | JStr _ => defined (array_index k)
  end.

(** The program performs [o[k] = x] as [obj_set k x o] does: every name
    but [__proto__] becomes or stays an own property; [__proto__] is
    written only where it is an own property already, otherwise the setter
    of [Object.prototype] runs and no property is created. *)
Definition assigns_as_model (o : obj) (k : string) : bool :=
  defined (obj_get k o) || negb (String.eqb k "__proto__").

(** No key below [v] is [__proto__]: the loops that fill a fresh object by
    assignment ([result[key] = ...]) then create every key they assign. *)
Fixpoint no_proto_key (v : JVal) {struct v} : bool :=
  match v with
  | JStr _ => true
  | JObj o =>
      forallb (fun kv => negb (String.eqb (fst kv) "__proto__") &&
                         no_proto_key (snd kv)) o
  end.

(** The last segment of a key path is read in the tree [t] as the model
    reads it, under a parent that resolves. *)
Definition path_reads_as_model (t : obj) (kp : string) : bool :=
  match resolve (removelast (split_dot kp)) (JObj t) with
  | Some parent => reads_as_model parent (last (split_dot kp) "")
  | None => false
  end.

(** [originalCurrent[lastKey]?.[language]] is read in the snapshot as the
    model reads it: both the last segment and, under the value it names,
    the language. *)
Definition original_reads_as_model (od : TranslationData) (kp lang : string)
    : bool :=
  match resolve (removelast (split_dot kp)) (JObj (translations od)) with
  | Some originalCurrent =>
      reads_as_model originalCurrent (last (split_dot kp) "") &&
      match js_get originalCurrent (last (split_dot kp) "") with
      | Some node => reads_as_model node lang
      | None => true
      end
  | None => false
  end.

(** ** The rest of the hook and the components that call it *)

(** [hasUnsavedChanges: unsavedChanges.length > 0], as the hook returns it. *)
Definition hasUnsavedChanges (st : State) : bool :=
  (0 <? List.length (unsavedChanges st))%nat.

(** A run of calls without [saveChanges]. *)
Definition is_save (c : call) : bool :=
  match c with
  | SaveChanges => true
  | _ => false
  end.

(** [P] holds of a display node and of every node below it. *)
Fixpoint every_node (P : TreeNode -> Prop) (n : TreeNode) {struct n} : Prop :=
  P n /\
  match children n with
  | Some nodes =>
      (fix all (l : list TreeNode) : Prop :=
         match l with
         | [] => True
         | c :: rest => every_node P c /\ all rest
         end) nodes
  | None => True
  end.

(** A completeness that is a percentage. *)
Definition is_percentage (n : TreeNode) : Prop :=
  (0 <= completeness n)%Q /\ (completeness n <= 100)%Q.

(** [flatten] of [TranslationEditor]: the leaves of the display tree, in
    the order of a walk from the top; a node that is not a leaf and has no
    [children] contributes nothing. *)
Fixpoint flatten_item (item : TreeNode) {struct item} : list TreeNode :=
  if isLeaf item then [item]
  else
    match children item with
    | Some nodes =>
        (fix each (l : list TreeNode) : list TreeNode :=
           match l with
           | [] => []
           | c :: rest => flatten_item c ++ each rest
           end) nodes
    | None => []
    end.

Definition flatten (items : list TreeNode) : list TreeNode :=
  flat_map flatten_item items.

(** [parts.join(".")]. *)
Fixpoint join_dot (parts : list string) : string :=
  match parts with
  | [] => ""
  | [p] => p
  | p :: rest => p ++ "." ++ join_dot rest
  end.

Fixpoint has_dot (s : string) : bool :=
  match s with
  | EmptyString => false
  | String c rest => Ascii.eqb c "." || has_dot rest
  end.

(** A key that a key path can carry as one segment. *)
Definition plain (k : string) : bool := nonempty k && negb (has_dot k).

(** Below every namespace the keys are distinct and plain. *)
Fixpoint addressable (langs : list string) (v : JVal) {struct v} : bool :=
  match v with
  | JStr _ => true
  | JObj o =>
      if is_leaf langs o then true
      else distinct (own_keys o) &&
           forallb (fun kv => plain (fst kv) && addressable langs (snd kv)) o
  end.

Definition tree_addressable (langs : list string) (t : obj) : bool :=
  distinct (own_keys t) &&
  forallb (fun kv => plain (fst kv) && addressable langs (snd kv)) t.

(** [getMissingLanguages] of [TranslationRow]:
    [languages.filter((lang) => !node.values?.[lang]?.trim())]. *)
Fixpoint getMissingLanguages (langs : list string) (node : TreeNode)
    : outcome (list string) :=
  match langs with
  | [] => Returns []
  | lang :: rest =>
      filled <- match values node with
                | Some vals => is_filled vals lang
                | None => Returns false
                end ;;
      missing <- getMissingLanguages rest node ;;
      Returns (if filled then missing else lang :: missing)
  end.

(** [TreeNodeItem]: [const completeness = node.completeness || 100],
    [isComplete = completeness === 100], [isMissing = completeness < 100]. *)
Definition shownCompleteness (node : TreeNode) : Q :=
  if Qeq_bool (completeness node) 0 then 100%Q else completeness node.

Definition isComplete (node : TreeNode) : bool :=
  Qeq_bool (shownCompleteness node) 100.

Definition isMissing (node : TreeNode) : bool :=
  negb (Qle_bool 100 (shownCompleteness node)).

(** ** The rows the editor shows *)

(** [s.startsWith(p)]. *)
Fixpoint startsWith (s p : string) {struct p} : bool :=
  match p, s with
  | EmptyString, _ => true
  | String _ _, EmptyString => false
  | String a p', String b s' => Ascii.eqb a b && startsWith s' p'
  end.

(** [s.includes(q)] on strings: [q] starts at some position of [s]. *)
Fixpoint str_includes (s q : string) {struct s} : bool :=
  startsWith s q ||
  match s with
  | EmptyString => false
  | String _ rest => str_includes rest q
  end.

(** [toLowerCase] on code units below 256: the letters A to Z and the
    capital letters of Latin-1, which are 32 below their small forms. *)
Definition lower_char (c : ascii) : ascii :=
  let n := nat_of_ascii c in
  if (((65 <=? n) && (n <=? 90)) ||
      ((192 <=? n) && (n <=? 222) && negb (n =? 215)))%nat
  then ascii_of_nat (n + 32)
  else c.

Fixpoint toLowerCase (s : string) : string :=
  match s with
  | EmptyString => EmptyString
  | String c rest => String (lower_char c) (toLowerCase rest)
  end.

(** [Object.values(v)]: the values of an object, the characters of a
    string. *)
Fixpoint chars (s : string) : list JVal :=
  match s with
  | EmptyString => []
  | String c rest => JStr (String c EmptyString) :: chars rest
  end.

Definition own_values (v : JVal) : list JVal :=
  match v with
  | JObj o => map snd o
  | JStr s => chars s
  end.

(** [l.some(p)] and [l.filter(p)] for a callback that may throw: [some]
    stops at the first element that passes. *)
Fixpoint array_some {A : Type} (p : A -> outcome bool) (l : list A)
    : outcome bool :=
  match l with
  | [] => Returns false
  | x :: rest => b <- p x ;; if b then Returns true else array_some p rest
  end.

Fixpoint array_filter {A : Type} (p : A -> outcome bool) (l : list A)
    : outcome (list A) :=
  match l with
  | [] => Returns []
  | x :: rest =>
      b <- p x ;;
      kept <- array_filter p rest ;;
      Returns (if b then x :: kept else kept)
  end.

(** [node.path === selectedPath || node.path.startsWith(selectedPath + ".")] *)
Definition under_selection (selectedPath : string) (node : TreeNode) : bool :=
  String.eqb (path node) selectedPath ||
  startsWith (path node) (selectedPath ++ ".").

(** [(v) => v.toLowerCase().includes(query)]; a value that is an object
    has no [toLowerCase] to call. *)
Definition value_matches (query : string) (v : JVal) : outcome bool :=
  match v with
  | JStr s => Returns (str_includes (toLowerCase s) query)
  | JObj _ => Throws TypeError
  end.

(** [node.path.toLowerCase().includes(query) ||
     (node.values && Object.values(node.values).some((v) =>
        v.toLowerCase().includes(query)))] *)
Definition matches_search (query : string) (node : TreeNode) : outcome bool :=
  if str_includes (toLowerCase (path node)) query then Returns true
  else
    match values node with
    | Some vals =>
        if truthy vals
        then array_some (value_matches query) (own_values vals)
        else Returns false
    | None => Returns false
    end.

(** [!node.values?.[lang]?.trim()] *)
Definition lacks (node : TreeNode) (lang : string) : outcome bool :=
  filled <- match values node with
            | Some vals => is_filled vals lang
            | None => Returns false
            end ;;
  Returns (negb filled).

(** [missingFilter.some((lang) => !node.values?.[lang]?.trim())] *)
Definition misses_any (missingFilter : list string) (node : TreeNode)
    : outcome bool :=
  array_some (lacks node) missingFilter.

(** [filteredNodes] of [TranslationEditor]: the selection, then the search,
    then the filter on missing languages; [None] is a [selectedPath] that
    is [null]. *)
Definition filteredNodes (selectedPath : option string) (searchQuery : string)
    (missingFilter : list string) (flattenedNodes : list TreeNode)
    : outcome (list TreeNode) :=
  let selected :=
    match selectedPath with
    | Some sel =>
        if nonempty sel then filter (under_selection sel) flattenedNodes
        else flattenedNodes
    | None => flattenedNodes
    end in
  found <-
    (if nonempty (trim searchQuery)
     then array_filter (matches_search (toLowerCase searchQuery)) selected
     else Returns selected) ;;
  if (0 <? List.length missingFilter)%nat
  then array_filter (misses_any missingFilter) found
  else Returns found.

(** ** The JSON view of the editor *)

(** [node.values?.[lang] || ""] *)
Definition shown_value (node : TreeNode) (lang : string) : JVal :=
  or_empty match values node with
           | Some vals => js_get vals lang
           | None => None
           end.

(** The inner loop of [buildJsonFromNodes]:
    [languages.forEach((lang) => { result[node.path][lang] = ... })] on the
    fresh object stored under the path of the row. *)
Definition json_row (langs : list string) (node : TreeNode) : obj :=
  fold_left (fun row lang => obj_set lang (shown_value node lang) row) langs [].

(** [buildJsonFromNodes]: an object per row under the path of the row,
    with the value shown for each language. *)
Definition buildJsonFromNodes (langs : list string) (nodes : list TreeNode)
    : obj :=
  fold_left
    (fun result node => obj_set (path node) (JObj (json_row langs node)) result)
    nodes [].

(** The name of the array index [i]: its decimal digits. *)
Definition index_name (i : nat) : string :=
  NilEmpty.string_of_uint (Nat.to_uint i).

(** [Object.entries(v)]: the properties of an object, the characters of a
    string under their positions. *)
Fixpoint char_entries (i : nat) (s : string) : obj :=
  match s with
  | EmptyString => []
  | String c rest =>
      (index_name i, JStr (String c EmptyString)) :: char_entries (S i) rest
  end.

Definition own_entries (v : JVal) : obj :=
  match v with
  | JObj o => o
  | JStr s => char_entries 0 s
  end.

(** [currentValue !== value] for a [value] that [JSON.parse] has made: two
    strings differ by their characters, and a parsed object is identical
    to nothing else. *)
Definition differs (currentValue value : JVal) : bool :=
  match currentValue, value with
  | JStr a, JStr b => negb (String.eqb a b)
  | _, _ => true
  end.

Record JsonUpdate : Type := mkJsonUpdate {
  update_keyPath : string;
  update_language : string;
  update_value : JVal
}.

(** The [updates] that [handleApplyJsonChanges] collects from a text that
    parses to an object of strings and objects: one for each entry whose
    value is not the one the row shows, in the order of the text; an entry
    for a path that no row has is compared to the empty string. *)
Definition jsonUpdates (parsed : obj) (rows : list TreeNode)
    : list JsonUpdate :=
  flat_map
    (fun entry =>
       let keyPath := fst entry in
       flat_map
         (fun translation =>
            let lang := fst translation in
            let value := snd translation in
            let currentValue :=
              match find (fun n => String.eqb (path n) keyPath) rows with
              | Some node => shown_value node lang
              | None => JStr ""
              end in
            if differs currentValue value
            then [mkJsonUpdate keyPath lang value]
            else [])
         (own_entries (snd entry)))
    parsed.

(** ** The language menu of the header *)

(** [handleAddLanguage] of [Header] on the text typed in the dialog:
    [if (newLanguage.trim()) onAddLanguage(newLanguage.trim().toLowerCase())],
    where [onAddLanguage] is the hook's [addLanguage] behind the handler of
    [Dashboard]. *)
Definition handleAddLanguage (newLanguage : string) (st : State)
    : outcome State :=
  if nonempty (trim newLanguage)
  then addLanguage (toLowerCase (trim newLanguage)) st
  else Returns st.

(** The languages whose menu item carries a Remove button:
    [languages.map((lang) => ... languages.length > 1 && <button ...>)]. *)
Definition removable (langs : list string) : list string :=
  if (1 <? List.length langs)%nat then langs else [].

(** What the user can do in the menu: confirm the dialog with a text, or
    press the Remove button of a language. *)
Inductive menu_action : Type :=
| ConfirmAdd (newLanguage : string)
| PressRemove (lang : string).

(** The state after an action; pressing a button that is not there does
    nothing. *)
Definition menu_step (st : State) (a : menu_action) : State :=
  match a with
  | ConfirmAdd newLanguage =>
      match handleAddLanguage newLanguage st with
      | Returns st' => st'
      | Throws _ => st
      end
  | PressRemove lang =>
      match data st with
      | Some d =>
          if includes lang (removable (languages d))
          then after (RemoveLanguage lang) st
          else st
      | None => st
      end
  end.

(** Language codes a catalog can carry: distinct, none empty, at least
    one. *)
Definition codes_ok (langs : list string) : bool :=
  distinct langs && forallb nonempty langs && (1 <=? List.length langs)%nat.

(** ** Leaves below a namespace *)



(** ** The breadcrumbs and the search of the tree view *)

(** [breadcrumbs = selectedPath ? selectedPath.split(".") : []] *)
Definition breadcrumbs (selectedPath : option string) : list string :=
  match selectedPath with
  | Some sel => if nonempty sel then split_dot sel else []
  | None => []
  end.

(** The path [handleBreadcrumbClick(index)] passes to [onSelectPath]:
    [breadcrumbs.slice(0, index + 1).join(".")] for the crumb at [index],
    [null] for the Home button, which passes -1 and is [None] here. *)
Definition handleBreadcrumbClick (selectedPath : option string)
    (index : option nat) : option string :=
  match index with
  | Some i => Some (join_dot (firstn (S i) (breadcrumbs selectedPath)))
  | None => None
  end.

(** ** The search of the tree view *)

(** [matches.add(p)] on a [Set], kept in insertion order. *)
Definition set_add (p : string) (s : list string) : list string :=
  if includes p s then s else s ++ [p].

(** [for (let i = 1; i < parts.length; i++)
       matches.add(parts.slice(0, i).join("."))] *)
Definition add_parents (parts : list string) (matches : list string)
    : list string :=
  fold_left (fun ms i => set_add (join_dot (firstn i parts)) ms)
    (seq 1 (List.length parts - 1)) matches.

(** [searchNode] of [matchingPaths]: both tests are evaluated, a match
    adds the path of the node and the paths above it, and the children are
    searched in order. *)
Fixpoint searchNode (query : string) (node : TreeNode)
    (matches : list string) {struct node} : outcome (list string) :=
  let pathMatch := str_includes (toLowerCase (path node)) query in
  valueMatch <-
    (if isLeaf node then
       match values node with
       | Some vals =>
           if truthy vals
           then array_some (value_matches query) (own_values vals)
           else Returns false
       | None => Returns false
       end
     else Returns false) ;;
  let matches :=
    if pathMatch || valueMatch
    then add_parents (split_dot (path node)) (set_add (path node) matches)
    else matches in
  match children node with
  | Some nodes =>
      (fix each (l : list TreeNode) (ms : list string)
         : outcome (list string) :=
         match l with
         | [] => Returns ms
         | c :: rest => ms' <- searchNode query c ms ;; each rest ms'
         end) nodes matches
  | None => Returns matches
  end.

(** [nodes.forEach(searchNode)]. *)
Fixpoint searchNodes (query : string) (nodes : list TreeNode)
    (matches : list string) : outcome (list string) :=
  match nodes with
  | [] => Returns matches
  | c :: rest =>
      matches' <- searchNode query c matches ;;
      searchNodes query rest matches'
  end.

(** [matchingPaths] of [TreeView]. *)
Definition matchingPaths (searchQuery : string) (tree : list TreeNode)
    : outcome (list string) :=
  if nonempty (trim searchQuery)
  then searchNodes (toLowerCase searchQuery) tree []
  else Returns [].

(** A set of paths that holds, with every path, the paths above it. *)
Definition holds_parents (matches : list string) : Prop :=
  forall p i,
    In p matches -> 1 <= i < List.length (split_dot p) ->
    In (join_dot (firstn i (split_dot p))) matches.

(** The display tree of the sample catalog. *)
Definition sample_nodes : list TreeNode :=
  match buildTree ["en"; "de"] sample_tree "" 0 with
  | Returns nodes => nodes
  | Throws _ => []
  end.

(** ** The rename dialog of the editor *)

(** [handleEditKey]: the name the dialog opens with,
    [node.path.split(".").pop() || ""]. *)
Definition handleEditKey (node : TreeNode) : string :=
  last (split_dot (path node)) "".

(** [handleSaveKeyName] with the [renameKey] of the hook behind
    [onRenameKey]: nothing without a node or with a blank name, else
    [onRenameKey(editKeyNode.path, newKeyName.trim())]. *)
Definition handleSaveKeyName (editKeyNode : option TreeNode)
    (newKeyName : string) (st : State) : outcome State :=
  match editKeyNode with
  | Some node =>
      if nonempty (trim newKeyName)
      then renameKey (path node) (trim newKeyName) st
      else Returns st
  | None => Returns st
  end.

(** * Properties *)

Unset Implicit Arguments.

(** Splits [catalog_ok d = true] into its four parts. *)
Ltac unpack_catalog H Hdistinct Hnonempty Hord Hnodes :=
  unfold catalog_ok, tree_ok in H;
  apply andb_true_iff in H as [Hdistinct Hnodes];
  apply andb_true_iff in Hdistinct as [Hdistinct Hnonempty];
  apply andb_true_iff in Hnodes as [Hord Hnodes].

(** ** Induction on values *)

Lemma JVal_ind (P : JVal -> Prop)
    (Hstr : forall s, P (JStr s))
    (Hobj : forall props, Forall (fun kv => P (snd kv)) props -> P (JObj props)) :
  forall v, P v.
Proof.
  fix IH 1. intros [s | props].
  - apply Hstr.
  - apply Hobj. induction props as [| [k v] rest IHrest].
    + constructor.
    + constructor; [apply IH | exact IHrest].
Qed.

(** ** Objects *)

Lemma obj_get_none_iff k o : obj_get k o = None <-> ~ In k (own_keys o).
Proof.
  induction o as [| [k' v] rest IH]; simpl.
  - tauto.
  - destruct (String.eqb_spec k k') as [-> | Hne].
    + split; [discriminate | intros H; exfalso; apply H; now left].
    + rewrite IH. split; [intros H [E | I]; [congruence | tauto] | tauto].
Qed.

Lemma obj_get_in k o v : obj_get k o = Some v -> In (k, v) o.
Proof.
  induction o as [| [k' v'] rest IH]; simpl; [discriminate |].
  destruct (String.eqb_spec k k') as [-> | Hne].
  - intros [= ->]. now left.
  - intros H. right. now apply IH.
Qed.

Lemma own_keys_replace k v o : own_keys (obj_replace k v o) = own_keys o.
Proof.
  induction o as [| [k' v'] rest IH]; simpl; [reflexivity |].
  destruct (String.eqb k k'); simpl; [reflexivity | now rewrite IH].
Qed.

Lemma obj_get_replace_same k v o :
  defined (obj_get k o) = true -> obj_get k (obj_replace k v o) = Some v.
Proof.
  induction o as [| [k' v'] rest IH]; simpl; [discriminate |].
  destruct (String.eqb k k') eqn:E; simpl; rewrite E; auto.
Qed.

Lemma obj_get_replace_other k k' v o :
  k' <> k -> obj_get k' (obj_replace k v o) = obj_get k' o.
Proof.
  intros Hne. induction o as [| [k0 v0] rest IH]; simpl; [reflexivity |].
  destruct (String.eqb_spec k k0) as [-> | Hk]; simpl.
  - destruct (String.eqb_spec k' k0); [contradiction | reflexivity].
  - destruct (String.eqb k' k0); [reflexivity | exact IH].
Qed.

Lemma obj_get_insert_index_same i k v o :
  obj_get k o = None -> obj_get k (obj_insert_index i k v o) = Some v.
Proof.
  induction o as [| [k' v'] rest IH]; simpl.
  - now rewrite String.eqb_refl.
  - destruct (String.eqb k k') eqn:E; [discriminate |]. intros H.
    destruct (array_index k') as [j |]; [destruct (j <? i)%N |]; simpl;
      rewrite ?E, ?String.eqb_refl; auto.
Qed.

Lemma obj_get_insert_index_other i k k' v o :
  k' <> k -> obj_get k' (obj_insert_index i k v o) = obj_get k' o.
Proof.
  intros Hne. apply String.eqb_neq in Hne.
  induction o as [| [k0 v0] rest IH]; simpl.
  - now rewrite Hne.
  - destruct (array_index k0) as [j |]; [destruct (j <? i)%N |]; simpl;
      rewrite ?Hne; try reflexivity.
    destruct (String.eqb k' k0); [reflexivity | exact IH].
Qed.

Lemma obj_get_app k o o' :
  obj_get k (o ++ o') =
  match obj_get k o with Some v => Some v | None => obj_get k o' end.
Proof.
  induction o as [| [k' v'] rest IH]; simpl; [reflexivity |].
  destruct (String.eqb k k'); [reflexivity | exact IH].
Qed.

Lemma obj_get_set_same k v o : obj_get k (obj_set k v o) = Some v.
Proof.
  unfold obj_set. destruct (obj_get k o) eqn:G.
  - apply obj_get_replace_same. now rewrite G.
  - destruct (array_index k).
    + now apply obj_get_insert_index_same.
    + rewrite obj_get_app, G. simpl. now rewrite String.eqb_refl.
Qed.

Lemma obj_get_set_other k k' v o :
  k' <> k -> obj_get k' (obj_set k v o) = obj_get k' o.
Proof.
  intros Hne. unfold obj_set. destruct (obj_get k o).
  - now apply obj_get_replace_other.
  - destruct (array_index k).
    + now apply obj_get_insert_index_other.
    + rewrite obj_get_app. simpl. apply String.eqb_neq in Hne. rewrite Hne.
      now destruct (obj_get k' o).
Qed.

Lemma obj_get_delete_same k o : obj_get k (obj_delete k o) = None.
Proof.
  induction o as [| [k' v'] rest IH]; simpl; [reflexivity |].
  destruct (String.eqb k k') eqn:E; simpl; [exact IH | now rewrite E].
Qed.

Lemma obj_get_delete_other k k' o :
  k' <> k -> obj_get k' (obj_delete k o) = obj_get k' o.
Proof.
  intros Hne. induction o as [| [k0 v0] rest IH]; simpl; [reflexivity |].
  destruct (String.eqb_spec k k0) as [-> | Hk]; simpl.
  - destruct (String.eqb_spec k' k0); [contradiction | exact IH].
  - destruct (String.eqb k' k0); [reflexivity | exact IH].
Qed.

Lemma obj_delete_absent k o : obj_get k o = None -> obj_delete k o = o.
Proof.
  induction o as [| [k' v'] rest IH]; simpl; [reflexivity |].
  destruct (String.eqb k k') eqn:E; [discriminate |]. simpl.
  intros H. now rewrite IH.
Qed.

(** Reads after writes, as a rewrite database. *)
Create Rewrite HintDb js_objects.

#[local] Hint Rewrite obj_get_set_same obj_get_delete_same : js_objects.
#[local] Hint Rewrite obj_get_set_other obj_get_delete_other
  using congruence : js_objects.

(** ** Keys in enumeration order *)

Lemma ordered_keys_app a b :
  ordered_keys (a ++ b) = true ->
  ordered_keys a = true /\ ordered_keys b = true /\
  forall x y, In x a -> In y b -> key_before x y = true.
Proof.
  induction a as [| k a IH]; simpl.
  - intros H. repeat split; auto; intros x y [].
  - rewrite andb_true_iff, forallb_app, andb_true_iff.
    intros [[Ha Hb] Hrest]. destruct (IH Hrest) as (IHa & IHb & IHab).
    repeat split; auto.
    + now rewrite Ha, IHa.
    + intros x y [<- | Hx] Hy; [| now apply IHab].
      rewrite forallb_forall in Hb. now apply Hb.
Qed.

Lemma key_before_neq a b : key_before a b = true -> a <> b.
Proof.
  unfold key_before. rewrite andb_true_iff, negb_true_iff.
  intros [H _]. now apply String.eqb_neq.
Qed.

Lemma obj_insert_index_last i k v o :
  array_index k = Some i ->
  (forall k', In k' (own_keys o) -> key_before k' k = true) ->
  obj_insert_index i k v o = o ++ [(k, v)].
Proof.
  intros Hi. induction o as [| [k' v'] rest IH]; simpl; [reflexivity |].
  intros H. assert (Hk' : key_before k' k = true) by (apply H; now left).
  unfold key_before in Hk'. rewrite Hi in Hk'.
  apply andb_true_iff in Hk' as [_ Hk'].
  destruct (array_index k') as [j |]; [| discriminate].
  rewrite Hk'. f_equal. apply IH. intros k0 H0. apply H. now right.
Qed.

(** A key that may follow all the keys of an object is created last. *)
Lemma obj_set_last k v o :
  (forall k', In k' (own_keys o) -> key_before k' k = true) ->
  obj_set k v o = o ++ [(k, v)].
Proof.
  intros H. unfold obj_set.
  assert (G : obj_get k o = None).
  { apply obj_get_none_iff. intros Hin. now apply (key_before_neq _ _ (H k Hin)). }
  rewrite G. destruct (array_index k) eqn:Hi; [| reflexivity].
  now apply obj_insert_index_last.
Qed.

Lemma rebuilt_app f a b : rebuilt f (a ++ b) = rebuilt f a ++ rebuilt f b.
Proof.
  induction a as [| [k v] a IH]; simpl; [reflexivity |].
  destruct (f k v); simpl; now rewrite IH.
Qed.

Lemma own_keys_rebuilt_incl f o k :
  In k (own_keys (rebuilt f o)) -> In k (own_keys o).
Proof.
  induction o as [| [k' v] o IH]; simpl; [tauto |].
  destruct (f k' v); simpl; tauto.
Qed.

Lemma rebuild_from f later : forall earlier,
  ordered_keys (own_keys (earlier ++ later)) = true ->
  fold_left
    (fun result kv =>
       match f (fst kv) (snd kv) with
       | Some v => obj_set (fst kv) v result
       | None => result
       end)
    later (rebuilt f earlier)
  = rebuilt f (earlier ++ later).
Proof.
  induction later as [| [k v] later IH]; intros earlier Hord; simpl.
  - now rewrite app_nil_r.
  - replace (earlier ++ (k, v) :: later) with ((earlier ++ [(k, v)]) ++ later)
      in * by (now rewrite <- app_assoc).
    rewrite <- IH by exact Hord. f_equal.
    rewrite rebuilt_app. simpl. destruct (f k v) as [v' |].
    + apply obj_set_last. intros k' Hk'.
      apply own_keys_rebuilt_incl in Hk'.
      unfold own_keys in Hord. rewrite map_app in Hord.
      apply ordered_keys_app in Hord as (Hord & _ & _).
      rewrite map_app in Hord.
      apply ordered_keys_app in Hord as (_ & _ & Hord).
      apply Hord; [exact Hk' | now left].
    + now rewrite app_nil_r.
Qed.

(** On keys in enumeration order the loop keeps the entries in place. *)
Lemma rebuild_ordered f node :
  ordered_keys (own_keys node) = true -> rebuild f node = rebuilt f node.
Proof.
  intros H. unfold rebuild. now apply (rebuild_from f node []).
Qed.


Lemma rebuilt_map f g o :
  (forall k v, In (k, v) o -> f k v = Some (g v)) ->
  rebuilt f o = map (fun kv => (fst kv, g (snd kv))) o.
Proof.
  induction o as [| [k v] o IH]; simpl; intros H; [reflexivity |].
  rewrite (H k v) by now left. f_equal. apply IH.
  intros k' v' Hin. apply H. now right.
Qed.

Lemma rebuilt_id f o :
  (forall k v, In (k, v) o -> f k v = Some v) -> rebuilt f o = o.
Proof.
  intros H. rewrite (rebuilt_map f (fun v => v)) by exact H. clear H.
  induction o as [| [k v] o IH]; simpl; [reflexivity | now rewrite IH].
Qed.


(** ** Language lists and the leaf test *)

Lemma includes_true_iff k langs : includes k langs = true <-> In k langs.
Proof.
  unfold includes. rewrite existsb_exists. split.
  - intros (x & Hin & E). apply String.eqb_eq in E. now subst.
  - intros Hin. exists k. split; [exact Hin | apply String.eqb_refl].
Qed.

Lemma includes_false_iff k langs : includes k langs = false <-> ~ In k langs.
Proof.
  rewrite <- includes_true_iff. now destruct (includes k langs).
Qed.

Lemma includes_app k a b : includes k (a ++ b) = includes k a || includes k b.
Proof. unfold includes. apply existsb_app. Qed.

Lemma is_leaf_true_iff langs o :
  is_leaf langs o = true <-> exists k, In k (own_keys o) /\ In k langs.
Proof.
  unfold is_leaf. rewrite existsb_exists.
  split; intros (k & Hk & Hl); exists k; split; auto;
    now apply includes_true_iff.
Qed.

Lemma is_leaf_false_iff langs o :
  is_leaf langs o = false <-> forall k, In k (own_keys o) -> ~ In k langs.
Proof.
  split.
  - intros H k Hk Hl. assert (T : is_leaf langs o = true)
      by (apply is_leaf_true_iff; eauto). congruence.
  - intros H. destruct (is_leaf langs o) eqn:E; [| reflexivity].
    apply is_leaf_true_iff in E as (k & Hk & Hl). now destruct (H k Hk).
Qed.

Lemma is_leaf_same_keys langs a b :
  own_keys a = own_keys b -> is_leaf langs a = is_leaf langs b.
Proof. unfold is_leaf. now intros ->. Qed.

Lemma filter_absent c langs :
  ~ In c langs -> filter (fun l => negb (String.eqb l c)) langs = langs.
Proof.
  induction langs as [| l langs IH]; simpl; intros H; [reflexivity |].
  destruct (String.eqb_spec l c) as [-> | Hne]; simpl.
  - exfalso. apply H. now left.
  - f_equal. apply IH. tauto.
Qed.

(** ** removeLanguage on a code that no leaf holds *)

Lemma leaf_entries_keys langs o k :
  forallb (fun kv => includes (fst kv) langs && is_string (snd kv)) o = true ->
  In k (own_keys o) -> In k langs.
Proof.
  rewrite forallb_forall. intros H Hin. unfold own_keys in Hin.
  apply in_map_iff in Hin as ([k' v] & <- & Hin).
  apply H in Hin. apply andb_true_iff in Hin as [Hin _].
  now apply includes_true_iff.
Qed.

Lemma removeLanguageFromNode_absent langs c :
  ~ In c langs ->
  forall v o, v = JObj o ->
    ordered_keys (own_keys o) = true ->
    forallb (fun kv => node_ok langs (snd kv)) o = true ->
    removeLanguageFromNode langs c v = o.
Proof.
  intros Hc. induction v as [s | props IH] using JVal_ind;
    intros o [= <-] Hord Hok.
  simpl. rewrite rebuild_ordered by exact Hord. apply rebuilt_id.
  intros k v Hin. rewrite Forall_forall in IH. rewrite forallb_forall in Hok.
  specialize (IH _ Hin). specialize (Hok _ Hin). simpl in IH, Hok.
  destruct v as [s | o']; simpl in Hok; [discriminate |].
  apply andb_true_iff in Hok as [Hord' Hok'].
  destruct (is_leaf langs o') eqn:L.
  - rewrite obj_delete_absent; [reflexivity |].
    apply obj_get_none_iff. intros Hin'. apply Hc.
    now apply (leaf_entries_keys langs o').
  - now rewrite (IH o' eq_refl Hord' Hok').
Qed.

(** ** The language list along a sequence of calls *)

Lemma distinct_app_new langs c :
  distinct langs = true -> includes c langs = false ->
  distinct (langs ++ [c]) = true.
Proof.
  induction langs as [| l langs IH]; simpl; intros D Hc; [reflexivity |].
  apply andb_true_iff in D as [Hl D]. apply orb_false_iff in Hc as [Hcl Hc].
  rewrite includes_app, IH by assumption. simpl.
  rewrite negb_true_iff in Hl. rewrite Hl, String.eqb_sym, Hcl. reflexivity.
Qed.

Lemma includes_filter x (p : string -> bool) langs :
  includes x langs = false -> includes x (filter p langs) = false.
Proof.
  rewrite !includes_false_iff. intros H Hin. apply H.
  now apply filter_In in Hin.
Qed.

Lemma distinct_filter (p : string -> bool) langs :
  distinct langs = true -> distinct (filter p langs) = true.
Proof.
  induction langs as [| l langs IH]; simpl; intros D; [reflexivity |].
  apply andb_true_iff in D as [Hl D]. rewrite negb_true_iff in Hl.
  destruct (p l); simpl; [| now apply IH].
  now rewrite includes_filter, IH.
Qed.

Lemma filter_drops_one c langs :
  distinct langs = true ->
  List.length langs <=
  S (List.length (filter (fun l => negb (String.eqb l c)) langs)).
Proof.
  induction langs as [| l langs IH]; simpl; intros D; [lia |].
  apply andb_true_iff in D as [Hl D]. rewrite negb_true_iff in Hl.
  destruct (String.eqb_spec l c) as [-> | Hne]; simpl.
  - rewrite filter_absent; [lia | now apply includes_false_iff].
  - specialize (IH D). lia.
Qed.

Lemma updateTranslation_keeps kp lang value st st' :
  updateTranslation kp lang value st = Returns st' ->
  originalData st' = originalData st /\
  option_map languages (data st') = option_map languages (data st).
Proof.
  unfold updateTranslation.
  destruct (data st) as [d |] eqn:D; [| intros [= <-]; now rewrite D].
  destruct (originalData st) as [od |] eqn:O; [| intros [= <-]; now rewrite D, O].
  destruct (at_parent _ _ _); simpl; [| discriminate].
  destruct (descend _ _); simpl; [| discriminate].
  intros [= <-]. simpl. auto.
Qed.

Lemma renameKey_keeps oldPath newKeyName st st' :
  renameKey oldPath newKeyName st = Returns st' ->
  originalData st' = originalData st /\
  option_map languages (data st') = option_map languages (data st).
Proof.
  unfold renameKey.
  destruct (data st) as [d |] eqn:D; [| intros [= <-]; now rewrite D].
  destruct (at_parent _ _ _); simpl; [| discriminate].
  intros [= <-]. simpl. auto.
Qed.

Lemma usable_same_languages d d' :
  option_map languages (Some d') = option_map languages (Some d) ->
  usable d -> usable d'.
Proof. unfold usable. simpl. now intros [= ->]. Qed.

Lemma languages_usable_after c st :
  languages_usable st -> languages_usable (after c st).
Proof.
  intros [(d & D & U) (od & O & UO)]. unfold after.
  destruct (perform c st) as [st' |] eqn:P; [| split; eauto].
  destruct c; simpl in P.
  - apply updateTranslation_keeps in P as [E1 E2]. rewrite D in E2.
    destruct (data st') as [d' |] eqn:D'; [| discriminate].
    split; [exists d' | exists od]; split; auto; [| congruence].
    now apply (usable_same_languages d d' E2).
  - apply renameKey_keeps in P as [E1 E2]. rewrite D in E2.
    destruct (data st') as [d' |] eqn:D'; [| discriminate].
    split; [exists d' | exists od]; split; auto; [| congruence].
    now apply (usable_same_languages d d' E2).
  - unfold addLanguage in P. rewrite D in P.
    destruct (includes languageCode (languages d)) eqn:I; injection P as <-.
    + split; eauto.
    + split; [| exists od; simpl; auto]. eexists. split; [reflexivity |].
      destruct U as [U1 U2]. split; simpl.
      * now apply distinct_app_new.
      * rewrite length_app. lia.
  - unfold removeLanguage in P. rewrite D in P.
    destruct (Nat.leb _ _) eqn:Len; injection P as <-.
    + split; eauto.
    + split; [| exists od; simpl; auto]. eexists. split; [reflexivity |].
      destruct U as [U1 U2]. split; simpl.
      * now apply distinct_filter.
      * apply Nat.leb_gt in Len.
        pose proof (filter_drops_one languageCode (languages d) U1). lia.
  - unfold saveChanges in P. rewrite D in P. injection P as <-.
    split; [exists d | exists d]; simpl; auto.
  - unfold discardChanges in P. rewrite O in P. injection P as <-.
    split; [exists od | exists od]; simpl; auto.
Qed.

Lemma languages_usable_after_all cs : forall st,
  languages_usable st -> languages_usable (after_all cs st).
Proof.
  unfold after_all. induction cs as [| c cs IH]; simpl; intros st H.
  - exact H.
  - apply IH. now apply languages_usable_after.
Qed.

(** C8, amended.  With at most one language left [removeLanguage] returns
    the state it was given, whatever the catalog.  For a code that is not
    an active language it does so on a catalog of the data model (distinct
    non-empty language codes, leaves holding strings under language codes,
    namespaces holding nodes) with no key [__proto__].  And in every state
    reached from a loaded catalog with distinct codes and at least one
    language, the language list has at least one entry. *)
Theorem removeLanguage_rejected_is_noop :
  (forall st d c,
      data st = Some d ->
      List.length (languages d) <= 1 ->
      removeLanguage c st = Returns st) /\
  (forall st d c,
      data st = Some d ->
      catalog_ok d = true ->
      no_proto_key (JObj (translations d)) = true ->
      ~ In c (languages d) ->
      removeLanguage c st = Returns st) /\
  (forall d cs,
      distinct (languages d) = true ->
      languages d <> [] ->
      exists d',
        data (after_all cs (loaded d)) = Some d' /\
        1 <= List.length (languages d')).
Proof.
  split; [| split].
  - intros st d c D Hlen. unfold removeLanguage. rewrite D.
    now destruct (Nat.leb_spec (List.length (languages d)) 1); [| lia].
  - intros st d c D Hok _ Hc. unpack_catalog Hok Hdist Hne Hord Hnodes.
    unfold removeLanguage. rewrite D.
    destruct (Nat.leb _ _); [reflexivity |].
    rewrite filter_absent by exact Hc.
    rewrite (removeLanguageFromNode_absent _ c Hc _ _ eq_refl Hord Hnodes).
    destruct st as [dt odt u]; simpl in *. subst dt. now destruct d.
  - intros d cs Hdist Hone.
    assert (U : languages_usable (loaded d)).
    { assert (usable d).
      { split; [exact Hdist |]. destruct (languages d); [congruence | simpl; lia]. }
      split; exists d; auto. }
    apply (languages_usable_after_all cs) in U as [(d' & D' & _ & L) _].
    now exists d'.
Qed.

Lemma removeLanguage_rejected_is_noop_witness :
  removeLanguage "fr" (loaded sample_data) = Returns (loaded sample_data) /\
  removeLanguage "en" (loaded countries_data) = Returns (loaded countries_data)
  /\
  exists d',
    data (after_all [RemoveLanguage "de"; RemoveLanguage "en"]
            (loaded sample_data)) = Some d' /\
    1 <= List.length (languages d').
Proof.
  destruct removeLanguage_rejected_is_noop as (A & B & C).
  split; [| split].
  - apply (B (loaded sample_data) sample_data "fr"); try reflexivity.
    simpl. intros [H | [H | []]]; discriminate.
  - apply (A (loaded countries_data) countries_data "en"); [reflexivity |].
    simpl. lia.
  - apply (C sample_data); [reflexivity | discriminate].
Defined.

(** Outside the data model a code that is not active is not rejected.
    After an edit has written the inactive code [zz] into a leaf, the only
    guard of [removeLanguage], on the length of the list, lets the call
    through, and the leaf loses the entry. *)
Lemma removeLanguage_rejected_is_noop_counterexample :
  exists st1 d1 st2 d2,
    updateTranslation "auth.login.title" "zz" "x" (loaded sample_data)
      = Returns st1 /\
    data st1 = Some d1 /\
    ~ In "zz" (languages d1) /\
    resolve_path "auth.login.title.zz" d1 = Some (JStr "x") /\
    removeLanguage "zz" st1 = Returns st2 /\
    data st2 = Some d2 /\
    resolve_path "auth.login.title.zz" d2 = None.
Proof.
  eexists. eexists. eexists. eexists.
  split; [reflexivity |]. split; [reflexivity |]. split.
  - simpl. intros [H | [H | []]]; discriminate.
  - split; [reflexivity |]. split; [reflexivity |]. split; reflexivity.
Qed.

(** ** exportToJson *)

Lemma or_empty_string o lang :
  forallb (fun kv => is_string (snd kv)) o = true ->
  or_empty (obj_get lang o) =
  JStr match obj_get lang o with Some (JStr s) => s | _ => "" end.
Proof.
  intros H. destruct (obj_get lang o) as [x |] eqn:G; [| reflexivity].
  apply obj_get_in in G. rewrite forallb_forall in H. apply H in G.
  destruct x as [s | o']; [| discriminate]. now destruct s.
Qed.

Lemma leaf_entries_strings langs o :
  forallb (fun kv => includes (fst kv) langs && is_string (snd kv)) o = true ->
  forallb (fun kv => is_string (snd kv)) o = true.
Proof.
  rewrite !forallb_forall. intros H kv Hin.
  apply H in Hin. now apply andb_true_iff in Hin.
Qed.

Lemma extractLanguage_single langs lang :
  forall v o, v = JObj o ->
    ordered_keys (own_keys o) = true ->
    forallb (fun kv => node_ok langs (snd kv)) o = true ->
    extractLanguage langs v lang =
    map (fun kv => (fst kv, single_language langs lang (snd kv))) o.
Proof.
  induction v as [s | props IH] using JVal_ind; intros o [= <-] Hord Hok.
  simpl. rewrite rebuild_ordered by exact Hord. apply rebuilt_map.
  intros k v Hin. rewrite Forall_forall in IH. rewrite forallb_forall in Hok.
  specialize (IH _ Hin). specialize (Hok _ Hin). simpl in IH, Hok.
  destruct v as [s | o']; simpl in Hok; [discriminate |].
  apply andb_true_iff in Hok as [Hord' Hok']. cbn [single_language].
  destruct (is_leaf langs o') eqn:L.
  - f_equal. apply or_empty_string. now apply (leaf_entries_strings langs).
  - now rewrite (IH o' eq_refl Hord' Hok').
Qed.

(** C9, amended.  For a catalog of the data model (distinct non-empty
    language codes, leaves holding strings under language codes,
    namespaces holding nodes) with no key [__proto__], and an active
    language that is not the name of a member of [Object.prototype],
    [exportToJson] returns the tree with its nesting and its keys in their
    order, every leaf replaced by the string it holds for that language,
    the empty string when it holds none. *)
Theorem exportToJson_single_language (st : State) (d : TranslationData)
    (lang : string) :
  data st = Some d ->
  catalog_ok d = true ->
  no_proto_key (JObj (translations d)) = true ->
  In lang (languages d) ->
  object_member lang = false ->
  exportToJson (Some lang) st =
  Some (map (fun kv => (fst kv, single_language (languages d) lang (snd kv)))
          (translations d)).
Proof.
  intros D Hok _ Hin _. unpack_catalog Hok Hdist Hne Hord Hnodes.
  rewrite forallb_forall in Hne. unfold exportToJson. rewrite D.
  rewrite (Hne _ Hin). f_equal.
  now apply extractLanguage_single.
Qed.

Lemma exportToJson_single_language_witness :
  exportToJson (Some "de") (loaded sample_data) =
  Some [("auth",
         JObj [("login",
                JObj [("title", JStr "Anmelden");
                      ("button", JStr "Einloggen");
                      ("forgot_password", JStr "")]);
               ("register",
                JObj [("title", JStr "Konto erstellen");
                      ("subtitle", JStr "Heute beitreten")])])].
Proof.
  apply (exportToJson_single_language (loaded sample_data) sample_data "de").
  - reflexivity.
  - reflexivity.
  - reflexivity.
  - simpl. auto.
  - reflexivity.
Defined.

(** Outside the data model the export is not the tree with its leaves
    replaced.  With the empty string as an active language code,
    [exportToJson] takes the argument for a missing one and returns the
    whole tree, leaves as objects.  And after the namespace [auth.login] is
    renamed to the language code [en], the namespace [auth] is taken for a
    leaf: the export for [en] holds an object where it should hold a
    string, and the namespace [auth.register] is gone. *)
Lemma exportToJson_single_language_counterexample :
  (exists st d out,
     addLanguage "" (loaded sample_data) = Returns st /\
     data st = Some d /\
     In "" (languages d) /\
     exportToJson (Some "") st = Some out /\
     resolve ["auth"; "login"; "title"] (JObj out) =
       Some (JObj [("en", JStr "Login"); ("de", JStr "Anmelden");
                   ("", JStr "")])) /\
  (exists st d out,
     renameKey "auth.login" "en" (loaded sample_data) = Returns st /\
     data st = Some d /\
     In "en" (languages d) /\
     defined (resolve_path "auth.register" d) = true /\
     exportToJson (Some "en") st = Some out /\
     resolve ["auth"; "register"] (JObj out) = None /\
     resolve ["auth"; "title"] (JObj out) = Some (leaf2 "Login" "Anmelden")).
Proof.
  split; eexists; eexists; eexists.
  - split; [reflexivity |]. split; [reflexivity |].
    split; [simpl; auto |]. split; reflexivity.
  - split; [reflexivity |]. split; [reflexivity |].
    split; [simpl; auto |]. split; [reflexivity |].
    split; [reflexivity |]. split; reflexivity.
Qed.

(** ** addLanguage followed by removeLanguage *)

Lemma obj_get_defined_iff k o :
  defined (obj_get k o) = true <-> In k (own_keys o).
Proof.
  destruct (obj_get k o) eqn:G; simpl.
  - split; [intros _ | reflexivity].
    apply obj_get_in in G. unfold own_keys.
    apply in_map_iff. now exists (k, j).
  - split; [discriminate |]. intros Hin.
    now apply obj_get_none_iff in G.
Qed.

Lemma obj_delete_app k a b :
  obj_delete k (a ++ b) = obj_delete k a ++ obj_delete k b.
Proof. unfold obj_delete. apply filter_app. Qed.









(** ** Navigation *)

Lemma obj_replace_same k v o : obj_get k o = Some v -> obj_replace k v o = o.
Proof.
  induction o as [| [k' v'] rest IH]; simpl; [reflexivity |].
  destruct (String.eqb_spec k k') as [-> | Hne].
  - now intros [= ->].
  - intros G. now rewrite IH.
Qed.

Lemma js_write_back_same cur k child :
  js_get cur k = Some child -> js_write_back cur k child = cur.
Proof.
  destruct cur as [s | o]; simpl; [reflexivity |].
  intros G. now rewrite obj_replace_same.
Qed.

Lemma descend_resolve segs : forall cur,
  descend segs cur =
  match resolve segs cur with
  | Some x => Returns x
  | None => Throws TypeError
  end.
Proof.
  induction segs as [| k segs IH]; intros cur; simpl; [reflexivity |].
  destruct (js_get cur k); [apply IH | reflexivity].
Qed.

Lemma resolve_string segs : forall s x,
  resolve segs (JStr s) = Some x -> is_string x = true.
Proof.
  induction segs as [| k segs IH]; intros s x; simpl.
  - now intros [= <-].
  - destruct (array_index k) as [i |]; [| discriminate].
    destruct (char_at (N.to_nat i) s) as [c |]; simpl; [| discriminate].
    apply IH.
Qed.

Lemma resolve_app a : forall b cur,
  resolve (a ++ b) cur =
  match resolve a cur with
  | Some x => resolve b x
  | None => None
  end.
Proof.
  induction a as [| k a IH]; intros b cur; simpl; [reflexivity |].
  destruct (js_get cur k); [apply IH | reflexivity].
Qed.

Lemma as_obj_object v : is_string v = false -> JObj (as_obj v) = v.
Proof. destruct v; [discriminate | reflexivity]. Qed.

(** Facts about [at_parent] that hold of every action. *)
Section Navigation.

Variable act : JVal -> outcome JVal.

(** A segment before the last that is missing: the call throws. *)
Lemma at_parent_missing segs : forall cur,
  resolve segs cur = None -> at_parent segs act cur = Throws TypeError.
Proof.
  induction segs as [| k segs IH]; intros cur; simpl; [discriminate |].
  destruct (js_get cur k) as [child |]; [| reflexivity].
  intros R. now rewrite IH.
Qed.

(** An action that leaves the value it reaches alone leaves the root alone. *)
Lemma at_parent_unchanged segs x : forall cur,
  resolve segs cur = Some x -> act x = Returns x ->
  at_parent segs act cur = Returns cur.
Proof.
  induction segs as [| k segs IH]; intros cur; simpl.
  - now intros [= ->].
  - destruct (js_get cur k) as [child |] eqn:G; [| discriminate].
    intros R A. rewrite (IH child R A). simpl.
    now rewrite js_write_back_same.
Qed.

(** An action on an object reached through [segs] replaces that object
    and nothing on the paths that part from [segs]. *)
Lemma at_parent_object segs P x' : forall cur,
  resolve segs cur = Some (JObj P) ->
  act (JObj P) = Returns x' ->
  is_string x' = false ->
  exists cur',
    at_parent segs act cur = Returns cur' /\
    is_string cur' = false /\
    resolve segs cur' = Some x' /\
    forall r, diverges r segs = true -> resolve r cur' = resolve r cur.
Proof.
  induction segs as [| k segs IH]; intros cur; simpl.
  - intros [= ->] A Hx. exists x'. repeat split; auto.
    intros r. now destruct r.
  - destruct (js_get cur k) as [child |] eqn:G; [| discriminate].
    intros R A Hx. destruct (IH child R A Hx) as (child' & E & _ & R' & D).
    rewrite E. simpl. exists (js_write_back cur k child').
    destruct cur as [s | o].
    + simpl in G. destruct (array_index k); [| discriminate].
      destruct (char_at _ s); [| discriminate]. injection G as <-.
      now apply resolve_string in R.
    + simpl in *. repeat split.
      * rewrite obj_get_replace_same by now rewrite G. exact R'.
      * intros [| a r]; simpl; [discriminate |].
        destruct (String.eqb_spec a k) as [-> | Hne]; intros Hd.
        -- rewrite obj_get_replace_same by now rewrite G.
           rewrite G. now apply D.
        -- now rewrite obj_get_replace_other.
Qed.

End Navigation.

Lemma is_prefix_app q : forall a b,
  is_prefix (q ++ a) (q ++ b) = is_prefix a b.
Proof.
  induction q as [| x q IH]; intros a b; simpl; [reflexivity |].
  now rewrite String.eqb_refl, IH.
Qed.

(** A path that does not lead to [q] or above it either parts from [q]
    or goes through it. *)
Lemma not_prefix_cases r : forall q,
  is_prefix r q = false ->
  diverges r q = true \/ exists j r', r = q ++ j :: r'.
Proof.
  induction r as [| a r IH]; intros q; simpl; [discriminate |].
  destruct q as [| b q]; [intros _; right; now exists a, r |].
  simpl. destruct (String.eqb_spec a b) as [-> | Hne]; [| now left].
  simpl. intros H. destruct (IH q H) as [D | (j & r' & ->)]; [now left |].
  right. now exists j, r'.
Qed.

Lemma removelast_snoc (q : list string) k : removelast (q ++ [k]) = q.
Proof. apply removelast_last. Qed.

Lemma last_snoc (q : list string) k : last (q ++ [k]) "" = k.
Proof. apply last_last. Qed.

Lemma with_translations_same d : with_translations d (translations d) = d.
Proof. now destruct d. Qed.

(** ** renameKey *)

Lemma move_key_object oldKey newKeyName P v :
  obj_get oldKey P = Some v ->
  move_key oldKey newKeyName (JObj P) =
  Returns (JObj (obj_delete oldKey (obj_set newKeyName v P))).
Proof. intros G. unfold move_key. simpl. now rewrite G. Qed.

Lemma renameKey_moves st d oldPath q k n P v :
  data st = Some d ->
  split_dot oldPath = q ++ [k] ->
  resolve q (JObj (translations d)) = Some (JObj P) ->
  obj_get k P = Some v ->
  exists d',
    renameKey oldPath n st =
      Returns (mkState (Some d') (originalData st)
                 (unsavedChanges st ++
                  [mkUnsavedChange oldPath rename_sentinel (JStr k) n])) /\
    languages d' = languages d /\
    resolve q (JObj (translations d')) =
      Some (JObj (obj_delete k (obj_set n v P))) /\
    forall r, diverges r q = true ->
      resolve r (JObj (translations d')) = resolve r (JObj (translations d)).
Proof.
  intros D S R G. unfold renameKey. rewrite D, S, removelast_snoc, last_snoc.
  unfold json_clone.
  destruct (at_parent_object (move_key k n) q P _ _ R
              (move_key_object k n P v G) eq_refl)
    as (root & E & Hobj & R' & Dv).
  rewrite E. simpl. eexists. split; [reflexivity |]. simpl.
  rewrite (as_obj_object _ Hobj). auto.
Qed.

(** C10, amended.  When the new name differs from the old one, is not
    already a key of the parent, is not an array index and is not
    [__proto__], [renameKey] leaves the parent's other entries in their
    order and puts the renamed entry after them. *)
Theorem renameKey_moves_entry_last (st : State) (d : TranslationData)
    (oldPath : string) (q : list string) (k n : string) (P : obj) (v : JVal) :
  data st = Some d ->
  split_dot oldPath = q ++ [k] ->
  resolve q (JObj (translations d)) = Some (JObj P) ->
  obj_get k P = Some v ->
  n <> k ->
  obj_get n P = None ->
  array_index n = None ->
  n <> "__proto__" ->
  exists st' d',
    renameKey oldPath n st = Returns st' /\
    data st' = Some d' /\
    resolve q (JObj (translations d')) =
      Some (JObj (obj_delete k P ++ [(n, v)])).
Proof.
  intros D S R G Hne Gn Hi _.
  destruct (renameKey_moves st d oldPath q k n P v D S R G)
    as (d' & E & _ & R' & _).
  eexists. exists d'. split; [exact E |]. split; [reflexivity |].
  rewrite R'. unfold obj_set. rewrite Gn, Hi, obj_delete_app. simpl.
  destruct (String.eqb_spec k n) as [-> | _]; [contradiction | reflexivity].
Qed.

Lemma renameKey_moves_entry_last_witness :
  exists st' d',
    renameKey "auth.login.title" "heading" (loaded sample_data) = Returns st' /\
    data st' = Some d' /\
    resolve ["auth"; "login"] (JObj (translations d')) =
      Some (JObj [("button", leaf2 "Sign In" "Einloggen");
                  ("forgot_password", leaf2 "Forgot password?" "");
                  ("heading", leaf2 "Login" "Anmelden")]).
Proof.
  apply (renameKey_moves_entry_last (loaded sample_data) sample_data
           "auth.login.title" ["auth"; "login"] "title" "heading"
           [("title", leaf2 "Login" "Anmelden");
            ("button", leaf2 "Sign In" "Einloggen");
            ("forgot_password", leaf2 "Forgot password?" "")]
           (leaf2 "Login" "Anmelden")).
  - reflexivity.
  - reflexivity.
  - reflexivity.
  - reflexivity.
  - discriminate.
  - reflexivity.
  - reflexivity.
  - discriminate.
Defined.

(** Renaming [title] to the name of its sibling [button] overwrites the
    sibling where it stands, first of two entries; renaming it to [404]
    creates an array index, which is enumerated first of three. *)
Lemma renameKey_moves_entry_last_counterexample :
  (exists st' d',
     renameKey "auth.login.title" "button" (loaded sample_data) = Returns st' /\
     data st' = Some d' /\
     resolve ["auth"; "login"] (JObj (translations d')) =
       Some (JObj [("button", leaf2 "Login" "Anmelden");
                   ("forgot_password", leaf2 "Forgot password?" "")])) /\
  (exists st' d',
     renameKey "auth.login.title" "404" (loaded sample_data) = Returns st' /\
     data st' = Some d' /\
     resolve ["auth"; "login"] (JObj (translations d')) =
       Some (JObj [("404", leaf2 "Login" "Anmelden");
                   ("button", leaf2 "Sign In" "Einloggen");
                   ("forgot_password", leaf2 "Forgot password?" "")])).
Proof.
  split; eexists; eexists; (split; [reflexivity |]); split; reflexivity.
Qed.

(** ** Paths that do not resolve *)

Lemma move_key_missing oldKey newKeyName P :
  js_get P oldKey = None -> move_key oldKey newKeyName P = Returns P.
Proof. intros G. unfold move_key. now rewrite G. Qed.

Lemma write_value_missing lastKey lang value P :
  js_get P lastKey = None -> write_value lastKey lang value P = Returns P.
Proof. intros G. unfold write_value. now rewrite G. Qed.

(** C1, amended.  A key path whose last segment reads [undefined] under a
    parent that resolves: [renameKey] returns without an exception and
    leaves the catalog (tree and language list) and the snapshot as they
    were, and so does [updateTranslation] when the parent also resolves in
    the snapshot and the last segment is read there as the model reads it.
    A key path with a segment before the last that reads [undefined]: both
    calls throw [TypeError] before any state is written.  A read is
    [undefined] for a name that is neither own nor inherited. *)
Theorem unresolved_path_leaves_catalog (st : State) (d od : TranslationData)
    (kp : string) (q : list string) (k : string) :
  data st = Some d ->
  originalData st = Some od ->
  split_dot kp = q ++ [k] ->
  (forall P,
      resolve q (JObj (translations d)) = Some P ->
      js_get P k = None ->
      reads_as_model P k = true ->
      (forall n, exists st',
          renameKey kp n st = Returns st' /\
          data st' = data st /\ originalData st' = originalData st) /\
      (forall lang value originalCurrent,
          resolve q (JObj (translations od)) = Some originalCurrent ->
          reads_as_model originalCurrent k = true ->
          exists st',
            updateTranslation kp lang value st = Returns st' /\
            data st' = data st /\ originalData st' = originalData st)) /\
  (forall q1 j q2 P,
      q = q1 ++ j :: q2 ->
      resolve q1 (JObj (translations d)) = Some P ->
      js_get P j = None ->
      reads_as_model P j = true ->
      (forall n, renameKey kp n st = Throws TypeError) /\
      (forall lang value, updateTranslation kp lang value st = Throws TypeError)).
Proof.
  intros D O S. split.
  - intros P R G _. split.
    + intros n. unfold renameKey.
      rewrite D, S, removelast_snoc, last_snoc. unfold json_clone.
      rewrite (at_parent_unchanged _ q P _ R (move_key_missing k n P G)).
      simpl. eexists. split; [reflexivity |]. simpl.
      now rewrite with_translations_same.
    + intros lang value originalCurrent Ho _. unfold updateTranslation.
      rewrite D, O, S, removelast_snoc, last_snoc. unfold json_clone.
      rewrite (at_parent_unchanged _ q P _ R
                 (write_value_missing k lang value P G)).
      rewrite descend_resolve, Ho.
      simpl. eexists. split; [reflexivity |]. simpl.
      now rewrite with_translations_same.
  - intros q1 j q2 P -> R1 G _.
    assert (R : resolve (q1 ++ j :: q2) (JObj (translations d)) = None).
    { rewrite resolve_app, R1. cbn [resolve]. now rewrite G. }
    split.
    + intros n. unfold renameKey.
      rewrite D, S, removelast_snoc, last_snoc. unfold json_clone.
      now rewrite at_parent_missing.
    + intros lang value. unfold updateTranslation.
      rewrite D, O, S, removelast_snoc, last_snoc. unfold json_clone.
      now rewrite at_parent_missing.
Qed.

Lemma unresolved_path_leaves_catalog_witness :
  (exists st',
     renameKey "auth.login.nope" "x" (loaded sample_data) = Returns st' /\
     data st' = Some sample_data /\ originalData st' = Some sample_data) /\
  (exists st',
     updateTranslation "auth.login.nope" "de" "x" (loaded sample_data)
       = Returns st' /\
     data st' = Some sample_data /\ originalData st' = Some sample_data) /\
  renameKey "auth.nope.title" "x" (loaded sample_data) = Throws TypeError /\
  updateTranslation "auth.nope.title" "de" "x" (loaded sample_data)
    = Throws TypeError.
Proof.
  destruct (unresolved_path_leaves_catalog (loaded sample_data)
              sample_data sample_data "auth.login.nope"
              ["auth"; "login"] "nope" eq_refl eq_refl eq_refl) as [A _].
  destruct (A _ eq_refl eq_refl eq_refl) as [A1 A2].
  destruct (unresolved_path_leaves_catalog (loaded sample_data)
              sample_data sample_data "auth.nope.title"
              ["auth"; "nope"] "title" eq_refl eq_refl eq_refl) as [_ B].
  destruct (B ["auth"] "nope" [] _ eq_refl eq_refl eq_refl eq_refl)
    as [B1 B2].
  split; [exact (A1 "x") |].
  split; [exact (A2 "de" "x" _ eq_refl eq_refl) |].
  split; [exact (B1 "x") | exact (B2 "de" "x")].
Defined.

(** On a missing last segment [renameKey] still records a pending change,
    and so does [updateTranslation] for a value that is not empty; on a
    missing segment before the last an exception escapes. *)
Lemma unresolved_path_leaves_catalog_counterexample :
  resolve_path "auth.login.nope" sample_data = None /\
  option_map unsavedChanges
    (match renameKey "auth.login.nope" "x" (loaded sample_data) with
     | Returns st' => Some st'
     | Throws _ => None
     end)
  = Some [mkUnsavedChange "auth.login.nope" rename_sentinel (JStr "nope") "x"] /\
  option_map unsavedChanges
    (match updateTranslation "auth.login.nope" "de" "x" (loaded sample_data) with
     | Returns st' => Some st'
     | Throws _ => None
     end)
  = Some [mkUnsavedChange "auth.login.nope" "de" (JStr "") "x"] /\
  resolve_path "auth.nope.title" sample_data = None /\
  renameKey "auth.nope.title" "x" (loaded sample_data) = Throws TypeError /\
  updateTranslation "auth.nope.title" "de" "x" (loaded sample_data)
    = Throws TypeError.
Proof. repeat split. Qed.

(** ** The list of pending changes *)

Lemma findIndex_none {A : Type} (p : A -> bool) l :
  findIndex p l = None -> filter p l = [].
Proof.
  induction l as [| x l IH]; simpl; [reflexivity |].
  destruct (p x); [discriminate |].
  destruct (findIndex p l); [discriminate | auto].
Qed.

Lemma filter_remove_at {A : Type} (p q : A -> bool) l : forall i,
  List.length (filter q (remove_at i l)) <= List.length (filter q l).
Proof.
  induction l as [| x l IH]; intros i; simpl; [destruct i; simpl; lia |].
  destruct i as [| i]; simpl.
  - destruct (q x); simpl; lia.
  - specialize (IH i). destruct (q x); simpl; lia.
Qed.

Lemma filter_remove_found {A : Type} (p : A -> bool) l : forall i,
  findIndex p l = Some i ->
  S (List.length (filter p (remove_at i l))) = List.length (filter p l).
Proof.
  induction l as [| x l IH]; intros i; simpl; [discriminate |].
  destruct (p x) eqn:Px.
  - intros [= <-]. simpl. reflexivity.
  - destruct (findIndex p l) as [j |]; simpl; [| discriminate].
    intros [= <-]. simpl. rewrite Px. now apply IH.
Qed.

Lemma filter_replace_found {A : Type} (p q : A -> bool) y l : forall i,
  findIndex p l = Some i ->
  (forall x, p x = true -> q x = q y) ->
  List.length (filter q (replace_at i y l)) = List.length (filter q l).
Proof.
  intros i F H. revert i F.
  induction l as [| x l IH]; intros i; simpl; [discriminate |].
  destruct (p x) eqn:Px.
  - intros [= <-]. simpl. rewrite (H x Px). now destruct (q y).
  - destruct (findIndex p l) as [j |]; simpl; [| discriminate].
    intros [= <-]. simpl. specialize (IH j eq_refl).
    destruct (q x); simpl; now rewrite IH.
Qed.



Lemma targets_same kp lang kp' lang' c c' :
  targets kp lang c = true -> targets kp lang c' = true ->
  targets kp' lang' c = targets kp' lang' c'.
Proof.
  unfold targets. rewrite !andb_true_iff, !String.eqb_eq.
  intros [-> ->] [-> ->]. reflexivity.
Qed.

Lemma targets_made kp lang original value :
  targets kp lang (mkUnsavedChange kp lang original value) = true.
Proof. unfold targets. simpl. now rewrite !String.eqb_refl. Qed.

(** Recording an edit leaves at most one entry for the pair it is about
    when there was at most one, and changes the count of no other pair. *)
Lemma recordEdit_pending kp lang value original prev kp' lang' :
  (pending_for kp lang prev <= 1 ->
   pending_for kp lang (recordEdit kp lang value original prev) <= 1) /\
  (targets kp' lang' (mkUnsavedChange kp lang original value) = false ->
   pending_for kp' lang' (recordEdit kp lang value original prev)
   <= pending_for kp' lang' prev).
Proof.
  unfold recordEdit, pending_for.
  assert (R : forall i kp0 lang0,
             findIndex (targets kp lang) prev = Some i ->
             List.length
               (filter (targets kp0 lang0)
                  (replace_at i (mkUnsavedChange kp lang original value) prev))
             = List.length (filter (targets kp0 lang0) prev)).
  { intros i kp0 lang0 F.
    apply (filter_replace_found (targets kp lang)); [exact F |].
    intros x Hx. apply (targets_same kp lang); auto using targets_made. }
  destruct (findIndex (targets kp lang) prev) as [i |] eqn:F;
    destruct (strict_eq value original); split; intros H.
  - pose proof (filter_remove_at (targets kp lang) (targets kp lang) prev i).
    lia.
  - apply (filter_remove_at (targets kp lang)).
  - now rewrite R.
  - now rewrite R.
  - exact H.
  - apply le_n.
  - rewrite filter_app, length_app, (findIndex_none _ _ F). simpl.
    rewrite targets_made. simpl. lia.
  - rewrite filter_app, length_app. simpl. rewrite H. simpl. lia.
Qed.

(** Recording the original value leaves no entry for the pair. *)
Lemma recordEdit_revert kp lang value original prev :
  strict_eq value original = true ->
  pending_for kp lang prev <= 1 ->
  pending_for kp lang (recordEdit kp lang value original prev) = 0.
Proof.
  unfold recordEdit, pending_for. intros -> H.
  destruct (findIndex (targets kp lang) prev) as [i |] eqn:F.
  - pose proof (filter_remove_found _ _ _ F). lia.
  - now rewrite (findIndex_none _ _ F).
Qed.


Lemma updateTranslation_unfold kp lang value st d od :
  data st = Some d ->
  originalData st = Some od ->
  updateTranslation kp lang value st =
  match at_parent (removelast (split_dot kp))
          (write_value (last (split_dot kp) "") lang value)
          (JObj (translations d)) with
  | Returns root =>
      match resolve (removelast (split_dot kp)) (JObj (translations od)) with
      | Some originalCurrent =>
          Returns
            (mkState (Some (with_translations d (as_obj root))) (Some od)
               (recordEdit kp lang value
                  (read_original (last (split_dot kp) "") lang originalCurrent)
                  (unsavedChanges st)))
      | None => Throws TypeError
      end
  | Throws e => Throws e
  end.
Proof.
  intros D O. unfold updateTranslation. rewrite D, O. unfold json_clone.
  destruct (at_parent _ _ _) as [root | e]; simpl; [| reflexivity].
  rewrite descend_resolve.
  now destruct (resolve _ (JObj (translations od))).
Qed.

Lemma updateTranslation_pending kp lang value st st' :
  updateTranslation kp lang value st = Returns st' ->
  exists original,
    unsavedChanges st' =
    recordEdit kp lang value original (unsavedChanges st) \/
    unsavedChanges st' = unsavedChanges st.
Proof.
  destruct (data st) as [d |] eqn:D.
  - destruct (originalData st) as [od |] eqn:O.
    + rewrite (updateTranslation_unfold kp lang value st d od D O).
      destruct (at_parent _ _ _); [| discriminate].
      destruct (resolve _ _) as [oc |]; [| discriminate].
      intros [= <-]. eexists. left. reflexivity.
    + unfold updateTranslation. rewrite D, O. intros [= <-].
      exists (JStr ""). now right.
  - unfold updateTranslation. rewrite D. intros [= <-].
    exists (JStr ""). now right.
Qed.

Lemma renameKey_pending oldPath newKeyName st st' :
  renameKey oldPath newKeyName st = Returns st' ->
  unsavedChanges st' =
    unsavedChanges st ++
    [mkUnsavedChange oldPath rename_sentinel
       (JStr (last (split_dot oldPath) "")) newKeyName] \/
  unsavedChanges st' = unsavedChanges st.
Proof.
  unfold renameKey. destruct (data st); [| intros [= <-]; now right].
  destruct (at_parent _ _ _); simpl; [| discriminate].
  intros [= <-]. now left.
Qed.

(** What a call can do to the list: record an edit, append a rename,
    empty it, or leave it. *)
Lemma pending_after c st :
  (exists kp lang value original,
      unsavedChanges (after c st) =
      recordEdit kp lang value original (unsavedChanges st)) \/
  (exists oldPath oldKey newKeyName,
      unsavedChanges (after c st) =
      unsavedChanges st ++
      [mkUnsavedChange oldPath rename_sentinel oldKey newKeyName]) \/
  unsavedChanges (after c st) = [] \/
  unsavedChanges (after c st) = unsavedChanges st.
Proof.
  unfold after. destruct (perform c st) as [st' |] eqn:P; [| now do 3 right].
  destruct c; simpl in P.
  - apply updateTranslation_pending in P as (original & [E | E]).
    + left. now exists kp, lang, value, original.
    + now do 3 right.
  - apply renameKey_pending in P as [E | E].
    + right. left. eauto.
    + now do 3 right.
  - unfold addLanguage in P. destruct (data st); [| injection P as <-; auto].
    destruct (includes _ _); injection P as <-; auto.
  - unfold removeLanguage in P. destruct (data st); [| injection P as <-; auto].
    destruct (Nat.leb _ _); injection P as <-; auto.
  - unfold saveChanges in P. destruct (data st); injection P as <-; auto.
  - unfold discardChanges in P.
    destruct (originalData st); injection P as <-; auto.
Qed.

Lemma one_per_language_after c st :
  one_per_language (unsavedChanges st) ->
  one_per_language (unsavedChanges (after c st)).
Proof.
  intros H kp lang Hl.
  destruct (pending_after c st)
    as [(kp0 & lang0 & value & original & E)
       | [(oldPath & oldKey & newKeyName & E) | [E | E]]]; rewrite E.
  - destruct (targets kp lang (mkUnsavedChange kp0 lang0 original value))
      eqn:T.
    + unfold targets in T. simpl in T.
      apply andb_true_iff in T as [T1 T2].
      apply String.eqb_eq in T1, T2. subst kp0 lang0.
      now apply recordEdit_pending, H.
    + etransitivity; [now apply recordEdit_pending | now apply H].
  - assert (T : targets kp lang
                  (mkUnsavedChange oldPath rename_sentinel oldKey newKeyName)
                = false).
    { unfold targets. cbn [keyPath language].
      destruct (String.eqb_spec rename_sentinel lang) as [<- | _];
        [contradiction | apply andb_false_r]. }
    unfold pending_for. rewrite filter_app, length_app. cbn [filter].
    rewrite T. specialize (H kp lang Hl). unfold pending_for in H.
    simpl. lia.
  - unfold pending_for. simpl. lia.
  - now apply H.
Qed.

Lemma one_per_language_after_all cs : forall st,
  one_per_language (unsavedChanges st) ->
  one_per_language (unsavedChanges (after_all cs st)).
Proof.
  unfold after_all. induction cs as [| c cs IH]; simpl; intros st H.
  - exact H.
  - apply IH. now apply one_per_language_after.
Qed.

(** C3, amended.  In every state reached from a loaded catalog by a
    sequence of calls, the pending list has at most one entry for a key
    path and a language other than the rename sentinel. *)
Theorem pending_one_entry_per_language (d : TranslationData)
    (cs : list call) (kp lang : string) :
  lang <> rename_sentinel ->
  pending_for kp lang (unsavedChanges (after_all cs (loaded d))) <= 1.
Proof.
  intros Hl. apply one_per_language_after_all; [| exact Hl].
  intros kp' lang' _. unfold pending_for. simpl. lia.
Qed.

Lemma pending_one_entry_per_language_witness :
  pending_for "auth.login.title" "de"
    (unsavedChanges
       (after_all [UpdateTranslation "auth.login.title" "de" "Anmeldung";
                   RenameKey "auth.login.button" "submit";
                   UpdateTranslation "auth.login.title" "de" "Login"]
          (loaded sample_data))) <= 1.
Proof.
  apply (pending_one_entry_per_language sample_data).
  unfold rename_sentinel. discriminate.
Defined.

(** Three renames, each of a node that exists, leave two entries for
    [auth.login.title] under the sentinel. *)
Lemma pending_one_entry_per_language_counterexample :
  pending_for "auth.login.title" rename_sentinel
    (unsavedChanges
       (after_all [RenameKey "auth.login.title" "heading";
                   RenameKey "auth.login.heading" "title";
                   RenameKey "auth.login.title" "caption"]
          (loaded sample_data))) = 2.
Proof. reflexivity. Qed.

(** ** Reverting an edit *)

Lemma write_value_string lastKey lang value s x :
  write_value lastKey lang value (JStr s) = Returns x -> x = JStr s.
Proof.
  unfold write_value.
  destruct (js_get (JStr s) lastKey) as [target |] eqn:G;
    [| now intros [= <-]].
  simpl in G. destruct (array_index lastKey); [| discriminate].
  destruct (char_at _ s); [| discriminate]. injection G as <-.
  destruct (truthy (JStr s0)); simpl; [discriminate | now intros [= <-]].
Qed.

Lemma at_parent_string segs act :
  (forall s x, act (JStr s) = Returns x -> x = JStr s) ->
  forall s x, at_parent segs act (JStr s) = Returns x -> x = JStr s.
Proof.
  intros Hact. induction segs as [| k segs IH]; intros s x; simpl.
  - apply Hact.
  - destruct (array_index k); [| discriminate].
    destruct (char_at _ s) as [c |]; simpl; [| discriminate].
    destruct (at_parent segs act (JStr c)) as [child' |] eqn:E; simpl;
      [| discriminate].
    now intros [= <-].
Qed.

(** Whether [write_value] throws does not depend on the value written, and
    it does not throw on what an earlier write to the same place left. *)
Lemma write_value_again lastKey lang v v' cur cur' :
  write_value lastKey lang v cur = Returns cur' ->
  exists cur'', write_value lastKey lang v' cur' = Returns cur''.
Proof.
  unfold write_value.
  destruct (js_get cur lastKey) as [target |] eqn:G.
  - destruct (truthy target) eqn:T.
    + destruct target as [s | o]; simpl; [discriminate |].
      intros [= <-]. destruct cur as [s | oc].
      * simpl in G. destruct (array_index lastKey); [| discriminate].
        destruct (char_at _ s); discriminate.
      * simpl in *. rewrite obj_get_replace_same by now rewrite G.
        simpl. eauto.
    + intros [= <-]. rewrite G, T. eauto.
  - intros [= <-]. rewrite G. eauto.
Qed.

Lemma at_parent_again segs lastKey lang v v' : forall cur cur',
  at_parent segs (write_value lastKey lang v) cur = Returns cur' ->
  exists cur'', at_parent segs (write_value lastKey lang v') cur' = Returns cur''.
Proof.
  induction segs as [| k segs IH]; intros cur cur'; simpl.
  - apply write_value_again.
  - destruct (js_get cur k) as [child |] eqn:G; [| discriminate].
    destruct (at_parent segs (write_value lastKey lang v) child)
      as [child' |] eqn:E; simpl; [| discriminate].
    intros [= <-]. destruct (IH _ _ E) as [c'' E''].
    destruct cur as [s | o]; simpl in *.
    + rewrite G.
      destruct (array_index k); [| discriminate].
      destruct (char_at _ s) as [c |]; [| discriminate].
      injection G as <-.
      apply (at_parent_string segs _ (write_value_string lastKey lang v)) in E.
      subst child'. rewrite E''. simpl. eauto.
    + rewrite obj_get_replace_same by now rewrite G.
      rewrite E''. simpl. eauto.
Qed.

Lemma at_parent_write_object segs lastKey lang v o root :
  at_parent segs (write_value lastKey lang v) (JObj o) = Returns root ->
  is_string root = false.
Proof.
  destruct segs as [| k segs]; simpl.
  - unfold write_value. simpl.
    destruct (obj_get lastKey o) as [t |]; [| now intros [= <-]].
    destruct (truthy t); [| now intros [= <-]].
    destruct (js_set t lang (JStr v)); simpl; [| discriminate].
    now intros [= <-].
  - destruct (obj_get k o); [| discriminate].
    destruct (at_parent _ _ _); simpl; [| discriminate].
    now intros [= <-].
Qed.

Lemma revertible_after od kp lang v st :
  revertible od kp lang st ->
  revertible od kp lang (after (UpdateTranslation kp lang v) st).
Proof.
  intros ([d D] & O & Hone & Hret). unfold after. simpl.
  destruct (updateTranslation kp lang v st) as [st' |] eqn:U;
    [| repeat split; eauto].
  rewrite (updateTranslation_unfold kp lang v st d od D O) in U.
  destruct (at_parent _ _ _) as [root |] eqn:A; [| discriminate].
  destruct (resolve _ (JObj (translations od))) as [oc |] eqn:R;
    [| discriminate].
  injection U as <-. repeat split; simpl; eauto.
  - now apply recordEdit_pending.
  - intros _ v'.
    erewrite updateTranslation_unfold; [| reflexivity | reflexivity].
    cbn [translations with_translations].
    rewrite (as_obj_object _ (at_parent_write_object _ _ _ _ _ _ A)).
    destruct (at_parent_again _ _ _ v v' _ _ A) as [c'' ->].
    rewrite R. eauto.
Qed.

Lemma revertible_after_all od kp lang vs : forall st,
  revertible od kp lang st ->
  revertible od kp lang (after_all (map (UpdateTranslation kp lang) vs) st).
Proof.
  unfold after_all. induction vs as [| v vs IH]; simpl; intros st H.
  - exact H.
  - apply IH. now apply revertible_after.
Qed.

Lemma revert_last od kp lang v st :
  revertible od kp lang st ->
  strict_eq v (original_value_at od kp lang) = true ->
  pending_for kp lang
    (unsavedChanges (after (UpdateTranslation kp lang v) st)) = 0.
Proof.
  intros ([d D] & O & Hone & Hret) Heq. unfold after. simpl.
  destruct (updateTranslation kp lang v st) as [st' |] eqn:U.
  - rewrite (updateTranslation_unfold kp lang v st d od D O) in U.
    destruct (at_parent _ _ _) as [root |]; [| discriminate].
    unfold original_value_at in Heq.
    destruct (resolve _ (JObj (translations od))) as [oc |]; [| discriminate].
    injection U as <-. simpl. now apply recordEdit_revert.
  - destruct (Nat.eq_dec (pending_for kp lang (unsavedChanges st)) 0)
      as [E | E]; [exact E |].
    destruct (Hret E v) as [st' U']. congruence.
Qed.






(** ** buildTree *)

Lemma trim_end_blank s : nonempty (trim_end s) = negb (is_blank s).
Proof.
  induction s as [| c s IH]; simpl; [reflexivity |].
  destruct (trim_end s) eqn:E; simpl in *.
  - destruct (is_blank s); [| discriminate].
    rewrite andb_true_r. now destruct (is_space c).
  - destruct (is_blank s); [discriminate |]. now rewrite andb_false_r.
Qed.

Lemma trim_start_blank s : is_blank (trim_start s) = is_blank s.
Proof.
  induction s as [| c s IH]; simpl; [reflexivity |].
  destruct (is_space c) eqn:E; simpl; [exact IH | now rewrite E].
Qed.

(** Something is left after [trim] exactly when the string is not blank. *)
Lemma trim_blank s : nonempty (trim s) = negb (is_blank s).
Proof. unfold trim. now rewrite trim_end_blank, trim_start_blank. Qed.

Lemma filledCount_leaf o :
  forallb (fun kv => is_string (snd kv)) o = true ->
  forall langs,
    filledCount (JObj o) langs =
    Returns (List.length (filter (filled_in o) langs)).
Proof.
  intros Hs. induction langs as [| lang langs IH]; simpl; [reflexivity |].
  rewrite IH. unfold is_filled, filled_in. simpl.
  destruct (obj_get lang o) as [x |] eqn:G; simpl; [| reflexivity].
  apply obj_get_in in G. rewrite forallb_forall in Hs. apply Hs in G.
  destruct x as [s | o']; [| discriminate]. simpl.
  rewrite trim_blank. now destruct (is_blank s).
Qed.

Lemma or_zero_eq c : (or_zero c == c)%Q.
Proof.
  unfold or_zero. destruct (Qeq_bool c 0) eqn:E; [| reflexivity].
  apply Qeq_bool_eq in E. now symmetry.
Qed.

Lemma totalCompleteness_from nodes : forall acc,
  (fold_left (fun sum child => sum + or_zero (completeness child)) nodes acc
   == acc + fold_right Qplus 0 (map completeness nodes))%Q.
Proof.
  induction nodes as [| n nodes IH]; intros acc; simpl.
  - ring.
  - rewrite IH, or_zero_eq. ring.
Qed.

Lemma avgCompleteness_mean nodes :
  (avgCompleteness nodes ==
   match nodes with
   | [] => 100
   | _ :: _ => mean (map completeness nodes)
   end)%Q.
Proof.
  unfold avgCompleteness, totalCompleteness, mean.
  destruct nodes as [| n nodes]; [reflexivity |].
  cbn [List.length Nat.ltb Nat.leb]. rewrite totalCompleteness_from.
  rewrite length_map. cbn [List.length]. rewrite Qplus_0_l. reflexivity.
Qed.

(** The inner loop of the callback is [buildTree] on the children. *)
Lemma buildNode_namespace langs parent dep k o :
  is_leaf langs o = false ->
  buildNode langs parent dep k (JObj o) =
  (nodes <- buildTree langs o (child_path parent k) (S dep) ;;
   Returns (mkTreeNode k (child_path parent k) dep false (Some nodes) None
              (avgCompleteness nodes))).
Proof.
  intros L. simpl. rewrite L.
  match goal with
  | |- bind (?each o) _ = _ =>
      assert (E : forall es,
                 each es = buildTree langs es (child_path parent k) (S dep))
  end.
  { induction es as [| [k' v'] es IH]; [reflexivity |].
    cbn [buildTree]. rewrite <- IH. reflexivity. }
  now rewrite E.
Qed.

Lemma buildNode_leaf langs parent dep k o :
  is_leaf langs o = true ->
  forallb (fun kv => is_string (snd kv)) o = true ->
  buildNode langs parent dep k (JObj o) =
  Returns (mkTreeNode k (child_path parent k) dep true None (Some (JObj o))
             (leaf_completeness langs o)).
Proof.
  intros L Hs. simpl. rewrite L, filledCount_leaf by exact Hs. reflexivity.
Qed.

Lemma buildNode_annotated langs :
  forall v, node_ok langs v = true ->
  forall parent dep k, exists n,
    buildNode langs parent dep k v = Returns n /\ annotated langs v n.
Proof.
  induction v as [s | o IH] using JVal_ind; intros Hok parent dep k;
    [discriminate |].
  simpl in Hok. apply andb_true_iff in Hok as [_ Hok].
  destruct (is_leaf langs o) eqn:L.
  - rewrite buildNode_leaf by eauto using leaf_entries_strings.
    eexists. split; [reflexivity |].
    apply annotated_leaf; auto. simpl. reflexivity.
  - rewrite buildNode_namespace by exact L.
    assert (B : forall path d, exists nodes,
               buildTree langs o path d = Returns nodes /\
               Forall2 (annotated langs) (map snd o) nodes).
    { clear L. induction o as [| [k' v'] o IHo]; intros path d;
        cbn [buildTree map snd].
      - exists []. split; [reflexivity | constructor].
      - cbn [forallb snd] in Hok. apply andb_true_iff in Hok as [Hv Ho].
        inversion IH as [| ? ? IHv IHrest]; subst. cbn [snd] in IHv.
        destruct (IHv Hv path d k') as (n & En & An).
        destruct (IHo IHrest Ho path d) as (ns & Ens & Ans).
        rewrite En, Ens. cbn [bind]. exists (n :: ns).
        split; [reflexivity | now constructor]. }
    destruct (B (child_path parent k) (S dep)) as (nodes & E & A).
    rewrite E. simpl. eexists. split; [reflexivity |].
    apply annotated_namespace with (nodes := nodes); auto.
    simpl. apply avgCompleteness_mean.
Qed.

(** C7, amended.  On a catalog (distinct non-empty language codes, leaves
    holding strings under language codes, namespaces holding nodes) whose
    language codes are not names of members of [Object.prototype],
    [buildTree] returns a display node for every entry of the tree, in
    order.  A leaf carries the number of active languages whose value is
    not blank after trimming, divided by the number of active languages,
    times 100; a namespace carries the mean of the completeness of its
    direct children, and 100 when it has none. *)
Theorem buildTree_completeness (st : State) (d : TranslationData)
    (parent : string) (dep : nat) :
  data st = Some d ->
  catalog_ok d = true ->
  forallb (fun l => negb (object_member l)) (languages d) = true ->
  exists nodes,
    buildTreeOf st (translations d) parent dep = Returns nodes /\
    Forall2 (annotated (languages d)) (map snd (translations d)) nodes.
Proof.
  intros D Hok _. unpack_catalog Hok Hdist Hne Hord Hnodes.
  clear Hdist Hne Hord.
  unfold buildTreeOf. rewrite D.
  induction (translations d) as [| [k v] t IH]; cbn [buildTree map snd].
  - exists []. split; [reflexivity | constructor].
  - cbn [forallb snd] in Hnodes. apply andb_true_iff in Hnodes as [Hv Ht].
    destruct (buildNode_annotated (languages d) v Hv parent dep k)
      as (n & En & An).
    destruct (IH Ht) as (ns & Ens & Ans).
    rewrite En, Ens. cbn [bind]. exists (n :: ns).
    split; [reflexivity | now constructor].
Qed.

Lemma buildTree_completeness_witness :
  exists nodes,
    buildTreeOf (loaded sample_data) (translations sample_data) "" 0
      = Returns nodes /\
    Forall2 (annotated (languages sample_data))
      (map snd (translations sample_data)) nodes.
Proof.
  apply (buildTree_completeness (loaded sample_data) sample_data "" 0);
    reflexivity.
Defined.

(** Outside the data model [buildTree] need not return.  After the
    namespace [auth.login] is renamed to the language code [en], the
    namespace [auth] has a key that is a language code and is taken for a
    leaf; its value under [en] is an object, which has no [trim], and the
    call throws. *)
Lemma buildTree_completeness_counterexample :
  exists st d,
    renameKey "auth.login" "en" (loaded sample_data) = Returns st /\
    data st = Some d /\
    catalog_ok d = false /\
    buildTreeOf st (translations d) "" 0 = Throws TypeError.
Proof.
  eexists. eexists. split; [reflexivity |]. split; [reflexivity |].
  split; reflexivity.
Qed.

(** The leaf [auth.login.forgot_password] of the sample, with an empty
    German text, is half complete. *)
Example forgot_password_half_complete :
  option_map (map completeness)
    (match buildTreeOf (loaded sample_data)
             [("forgot_password", leaf2 "Forgot password?" "")] "auth.login" 2
     with
     | Returns nodes => Some nodes
     | Throws _ => None
     end)
  = Some [(100 # 2)%Q].
Proof. reflexivity. Qed.

(** ** The keys of leaves *)

Lemma in_obj_replace k v o x :
  In x (obj_replace k v o) -> x = (k, v) \/ In x o.
Proof.
  induction o as [| [k' v'] o IH]; simpl; [tauto |].
  destruct (String.eqb_spec k k') as [-> | _]; simpl.
  - intros [<- | H]; auto.
  - intros [<- | H]; auto. destruct (IH H); auto.
Qed.

Lemma in_obj_insert_index i k v o x :
  In x (obj_insert_index i k v o) -> x = (k, v) \/ In x o.
Proof.
  induction o as [| [k' v'] o IH]; simpl; [intros [<- | []]; auto |].
  destruct (array_index k') as [j |]; [destruct (j <? i)%N |]; simpl;
    try (intros [<- | H]; auto).
  destruct (IH H); auto.
Qed.

Lemma in_obj_set k v o x : In x (obj_set k v o) -> x = (k, v) \/ In x o.
Proof.
  unfold obj_set. destruct (obj_get k o).
  - apply in_obj_replace.
  - destruct (array_index k).
    + apply in_obj_insert_index.
    + intros H. apply in_app_or in H as [H | [<- | []]]; auto.
Qed.

Lemma in_obj_delete k o x : In x (obj_delete k o) -> In x o /\ fst x <> k.
Proof.
  unfold obj_delete. rewrite filter_In, negb_true_iff, String.eqb_neq.
  intros [H N]. split; [exact H | congruence].
Qed.

Lemma in_own_keys (o : obj) k :
  In k (own_keys o) <-> exists v, In (k, v) o.
Proof.
  unfold own_keys. rewrite in_map_iff. split.
  - intros ([k' v] & <- & H). now exists v.
  - intros (v & H). now exists (k, v).
Qed.

Lemma in_rebuild_from (f : string -> JVal -> option JVal) (later : obj) :
  forall (result : obj) k v',
  In (k, v')
    (fold_left
       (fun result kv =>
          match f (fst kv) (snd kv) with
          | Some v => obj_set (fst kv) v result
          | None => result
          end)
       later result) ->
  In (k, v') result \/ exists v, In (k, v) later /\ f k v = Some v'.
Proof.
  induction later as [| [k0 v0] later IH]; intros result k v'; simpl.
  - now left.
  - intros H. apply IH in H as [H | (v & Hin & E)].
    + destruct (f k0 v0) as [v1 |] eqn:E; [| now left].
      apply in_obj_set in H as [[= -> ->] | H]; [| now left].
      right. exists v0. split; [now left | exact E].
    + right. exists v. split; [now right | exact E].
Qed.

(** What [rebuild] stores under a key comes from an entry with that key. *)
Lemma in_rebuild f o k v' :
  In (k, v') (rebuild f o) -> exists v, In (k, v) o /\ f k v = Some v'.
Proof.
  intros H. apply in_rebuild_from in H as [[] | H]. exact H.
Qed.

Lemma leaves_ok_by_keys langs o :
  (forall k, In k (own_keys o) -> In k langs) ->
  leaves_ok langs (JObj o) = true.
Proof.
  intros H. simpl. destruct (is_leaf langs o) eqn:L.
  - apply forallb_forall. intros k Hk. now apply includes_true_iff, H.
  - rewrite is_leaf_false_iff in L. destruct o as [| [k v] o]; [reflexivity |].
    exfalso. apply (L k); [now left | apply H; now left].
Qed.

Lemma leaves_ok_by_children langs o :
  (forall k, In k (own_keys o) -> ~ In k langs) ->
  (forall k v, In (k, v) o -> leaves_ok langs v = true) ->
  leaves_ok langs (JObj o) = true.
Proof.
  intros Hk Hv. simpl. apply is_leaf_false_iff in Hk. rewrite Hk.
  apply forallb_forall. intros [k v] Hin. now apply (Hv k).
Qed.

Lemma leaves_ok_leaf langs o k :
  leaves_ok langs (JObj o) = true -> is_leaf langs o = true ->
  In k (own_keys o) -> In k langs.
Proof.
  simpl. intros H L. rewrite L, forallb_forall in H. intros Hk.
  now apply includes_true_iff, H.
Qed.

Lemma removeLanguageFromNode_leaves langs c :
  forall v o, v = JObj o ->
    forallb (fun kv => leaves_ok langs (snd kv)) o = true ->
    forallb
      (fun kv =>
         leaves_ok (filter (fun l => negb (String.eqb l c)) langs) (snd kv))
      (removeLanguageFromNode langs c v) = true.
Proof.
  induction v as [s | props IH] using JVal_ind; intros o [= <-] Hok.
  apply forallb_forall. intros [k v'] Hin. cbn [snd].
  cbn [removeLanguageFromNode] in Hin.
  apply in_rebuild in Hin as (v & Hin & E).
  rewrite Forall_forall in IH. rewrite forallb_forall in Hok.
  specialize (IH _ Hin). specialize (Hok _ Hin). cbn [snd] in IH, Hok.
  destruct v as [s | o1]; [discriminate |].
  destruct (is_leaf langs o1) eqn:L; injection E as <-.
  - apply leaves_ok_by_keys. intros k1 Hk1.
    apply in_own_keys in Hk1 as [x Hx].
    apply in_obj_delete in Hx as [Hx Hne]. simpl in Hne.
    apply filter_In. split.
    + apply (leaves_ok_leaf langs o1); auto. apply in_own_keys. eauto.
    + now apply negb_true_iff, String.eqb_neq.
  - apply leaves_ok_by_children.
    + intros k1 Hk1 Hl. apply in_own_keys in Hk1 as [x Hx].
      cbn [removeLanguageFromNode] in Hx.
      apply in_rebuild in Hx as (x0 & Hx0 & _).
      rewrite is_leaf_false_iff in L. apply (L k1).
      * apply in_own_keys. eauto.
      * now apply filter_In in Hl.
    + intros k1 v1 H1.
      assert (Hc : forallb (fun kv => leaves_ok langs (snd kv)) o1 = true).
      { simpl in Hok. now rewrite L in Hok. }
      specialize (IH o1 eq_refl Hc). rewrite forallb_forall in IH.
      now apply (IH (k1, v1)).
Qed.

Lemma addLanguageToNode_leaves langs c :
  forall v o, v = JObj o ->
    forallb (fun kv => leaves_ok langs (snd kv)) o = true ->
    forallb (fun kv => no_collision langs c (snd kv)) o = true ->
    forallb (fun kv => leaves_ok (langs ++ [c]) (snd kv))
      (addLanguageToNode langs c v) = true.
Proof.
  induction v as [s | props IH] using JVal_ind; intros o [= <-] Hok Hfree.
  apply forallb_forall. intros [k v'] Hin. cbn [snd].
  cbn [addLanguageToNode] in Hin.
  apply in_rebuild in Hin as (v & Hin & E).
  rewrite Forall_forall in IH. rewrite forallb_forall in Hok, Hfree.
  specialize (IH _ Hin). specialize (Hok _ Hin). specialize (Hfree _ Hin).
  cbn [snd] in IH, Hok, Hfree.
  destruct v as [s | o1]; [discriminate |]. simpl in Hfree.
  destruct (is_leaf langs o1) eqn:L; injection E as <-.
  - apply leaves_ok_by_keys. intros k1 Hk1.
    apply in_own_keys in Hk1 as [x Hx]. apply in_or_app.
    apply in_obj_set in Hx as [[= -> ->] | Hx]; [right; now left | left].
    apply (leaves_ok_leaf langs o1); auto. apply in_own_keys. eauto.
  - apply andb_true_iff in Hfree as [Hfresh Hfree].
    rewrite negb_true_iff in Hfresh.
    apply leaves_ok_by_children.
    + intros k1 Hk1 Hl. apply in_own_keys in Hk1 as [x Hx].
      cbn [addLanguageToNode] in Hx.
      apply in_rebuild in Hx as (x0 & Hx0 & _).
      assert (K : In k1 (own_keys o1)) by (apply in_own_keys; eauto).
      apply in_app_or in Hl as [Hl | [<- | []]].
      * rewrite is_leaf_false_iff in L. now apply (L k1).
      * apply obj_get_defined_iff in K. congruence.
    + intros k1 v1 H1.
      assert (Hc : forallb (fun kv => leaves_ok langs (snd kv)) o1 = true).
      { simpl in Hok. now rewrite L in Hok. }
      specialize (IH o1 eq_refl Hc Hfree). rewrite forallb_forall in IH.
      now apply (IH (k1, v1)).
Qed.

Lemma keeps_leaves_refl langs x : keeps_leaves langs x x.
Proof. split; auto. Qed.

Lemma write_back_keeps langs cur k child child' :
  js_get cur k = Some child ->
  (leaves_ok langs child = true -> leaves_ok langs child' = true) ->
  keeps_leaves langs cur (js_write_back cur k child').
Proof.
  intros G H. destruct cur as [s | o]; [apply keeps_leaves_refl |].
  simpl in G.
  assert (C : children_ok langs (JObj o) = true ->
              children_ok langs (JObj (obj_replace k child' o)) = true).
  { unfold children_ok. simpl. rewrite !forallb_forall. intros Ho x Hx.
    apply in_obj_replace in Hx as [-> | Hx]; [| now apply Ho].
    apply H. apply obj_get_in in G. now apply (Ho (k, child)). }
  split; [| exact C]. simpl.
  rewrite (is_leaf_same_keys langs (obj_replace k child' o) o
             (own_keys_replace k child' o)).
  rewrite own_keys_replace. destruct (is_leaf langs o); [auto | exact C].
Qed.

(** What holds between the value an action reaches and what it makes of
    it holds between the root before and after. *)
Lemma at_parent_keeps langs act segs : forall cur cur',
  at_parent segs act cur = Returns cur' ->
  (forall x x', resolve segs cur = Some x -> act x = Returns x' ->
                keeps_leaves langs x x') ->
  keeps_leaves langs cur cur'.
Proof.
  induction segs as [| k segs IH]; intros cur cur'; simpl.
  - intros A H. now apply H.
  - destruct (js_get cur k) as [child |] eqn:G; [| discriminate].
    destruct (at_parent segs act child) as [child' |] eqn:E; simpl;
      [| discriminate].
    intros [= <-] H. apply write_back_keeps with (child := child); auto.
    now apply (IH child child' E).
Qed.

Lemma write_value_keeps langs lastKey lang value x x' :
  In lang langs ->
  (forall o, js_get x lastKey = Some (JObj o) -> is_leaf langs o = true) ->
  write_value lastKey lang value x = Returns x' ->
  keeps_leaves langs x x'.
Proof.
  intros Hl Hleaf. unfold write_value.
  destruct (js_get x lastKey) as [target |] eqn:G;
    [| intros [= <-]; apply keeps_leaves_refl].
  destruct (truthy target); [| intros [= <-]; apply keeps_leaves_refl].
  destruct target as [s | o]; simpl; [discriminate |]. intros [= <-].
  apply write_back_keeps with (child := JObj o); [exact G |].
  intros Ho. apply leaves_ok_by_keys. intros k Hk.
  apply in_own_keys in Hk as [v Hv].
  apply in_obj_set in Hv as [[= -> ->] | Hv]; [exact Hl |].
  apply (leaves_ok_leaf langs o); auto. apply in_own_keys. eauto.
Qed.

Lemma move_key_keeps langs oldKey newKeyName x x' :
  ~ In newKeyName langs ->
  (forall P, x = JObj P -> is_leaf langs P = false) ->
  move_key oldKey newKeyName x = Returns x' ->
  keeps_leaves langs x x'.
Proof.
  intros Hn Hns. unfold move_key.
  destruct (js_get x oldKey) as [v |] eqn:G;
    [| intros [= <-]; apply keeps_leaves_refl].
  destruct x as [s | P]; simpl; [discriminate |]. intros [= <-].
  simpl in G. specialize (Hns P eq_refl).
  assert (V : forall k1 v1,
             In (k1, v1) (obj_delete oldKey (obj_set newKeyName v P)) ->
             (k1 = newKeyName /\ v1 = v) \/ In (k1, v1) P).
  { intros k1 v1 H. apply in_obj_delete in H as [H _].
    apply in_obj_set in H as [[= -> ->] | H]; auto. }
  assert (C : children_ok langs (JObj P) = true ->
              forall k1 v1,
                In (k1, v1) (obj_delete oldKey (obj_set newKeyName v P)) ->
                leaves_ok langs v1 = true).
  { unfold children_ok. simpl. rewrite forallb_forall. intros Ho k1 v1 H.
    apply V in H as [[_ ->] | H]; [| now apply (Ho (k1, v1))].
    apply obj_get_in in G. now apply (Ho (oldKey, v)). }
  split.
  - intros Ho. apply leaves_ok_by_children.
    + intros k1 Hk1 Hl. apply in_own_keys in Hk1 as [v1 H1].
      apply V in H1 as [[-> _] | H1]; [contradiction |].
      rewrite is_leaf_false_iff in Hns. apply (Hns k1); auto.
      apply in_own_keys. eauto.
    + apply C. simpl in Ho. rewrite Hns in Ho. exact Ho.
  - intros Ho. unfold children_ok. simpl. apply forallb_forall.
    intros [k1 v1] H. now apply (C Ho k1).
Qed.

Lemma split_dot_nonempty s : split_dot s <> [].
Proof.
  destruct s as [| c s]; simpl; [discriminate |].
  destruct (Ascii.eqb c "."); [discriminate |].
  destruct (split_dot s); discriminate.
Qed.

Lemma split_dot_snoc s :
  split_dot s = removelast (split_dot s) ++ [last (split_dot s) ""].
Proof. apply app_removelast_last, split_dot_nonempty. Qed.

Lemma updateTranslation_leaves kp lang value st st' d :
  data st = Some d ->
  leaf_keys_ok d = true ->
  In lang (languages d) ->
  (forall o, resolve_path kp d = Some (JObj o) ->
             is_leaf (languages d) o = true) ->
  updateTranslation kp lang value st = Returns st' ->
  forall d', data st' = Some d' -> leaf_keys_ok d' = true.
Proof.
  intros D Hok Hl Hleaf U d' D'.
  destruct (originalData st) as [od |] eqn:O.
  - rewrite (updateTranslation_unfold kp lang value st d od D O) in U.
    destruct (at_parent _ _ _) as [root |] eqn:A; [| discriminate].
    destruct (resolve _ (JObj (translations od))); [| discriminate].
    injection U as <-. simpl in D'. injection D' as <-.
    apply (at_parent_keeps (languages d)) in A; [now apply A |].
    intros x x' R W. eapply write_value_keeps; [exact Hl | | exact W].
    intros o G. apply Hleaf. unfold resolve_path.
    rewrite split_dot_snoc, resolve_app, R. simpl. now rewrite G.
  - unfold updateTranslation in U. rewrite D, O in U. injection U as <-.
    rewrite D in D'. now injection D' as <-.
Qed.

Lemma renameKey_leaves oldPath newKeyName st st' d :
  data st = Some d ->
  leaf_keys_ok d = true ->
  ~ In newKeyName (languages d) ->
  (forall P, resolve (removelast (split_dot oldPath)) (JObj (translations d))
             = Some (JObj P) ->
             is_leaf (languages d) P = false) ->
  renameKey oldPath newKeyName st = Returns st' ->
  forall d', data st' = Some d' -> leaf_keys_ok d' = true.
Proof.
  intros D Hok Hn Hns U d' D'. unfold renameKey in U. rewrite D in U.
  unfold json_clone in U.
  destruct (at_parent _ _ _) as [root |] eqn:A; [| discriminate].
  injection U as <-. simpl in D'. injection D' as <-.
  apply (at_parent_keeps (languages d)) in A; [now apply A |].
  intros x x' R M. eapply move_key_keeps; [exact Hn | | exact M].
  intros P ->. now apply Hns.
Qed.

Lemma removeLanguage_invariant c st :
  leaf_invariant st -> leaf_invariant (after (RemoveLanguage c) st).
Proof.
  intros Hst. unfold after. cbn [perform]. unfold removeLanguage.
  destruct (data st) as [d |] eqn:D; [| exact Hst].
  destruct (Nat.leb _ _); [exact Hst |].
  destruct Hst as [Hd Ho]. split; cbn [data originalData]; [| exact Ho].
  intros d' [= <-]. unfold leaf_keys_ok. cbn [languages translations].
  apply (removeLanguageFromNode_leaves (languages d) c
           (JObj (translations d)) (translations d) eq_refl).
  now apply Hd.
Qed.

Lemma addLanguage_invariant c st :
  leaf_invariant st ->
  (forall d, data st = Some d ->
     forallb (fun kv => no_collision (languages d) c (snd kv))
             (translations d) = true) ->
  leaf_invariant (after (AddLanguage c) st).
Proof.
  intros Hst H. unfold after. cbn [perform]. unfold addLanguage.
  destruct (data st) as [d |] eqn:D; [| exact Hst].
  destruct (includes c (languages d)); [exact Hst |].
  destruct Hst as [Hd Ho]. split; cbn [data originalData]; [| exact Ho].
  intros d' [= <-]. unfold leaf_keys_ok. cbn [languages translations].
  apply (addLanguageToNode_leaves (languages d) c
           (JObj (translations d)) (translations d) eq_refl);
    [now apply Hd | now apply H].
Qed.

Lemma saveChanges_invariant st :
  leaf_invariant st -> leaf_invariant (after SaveChanges st).
Proof.
  intros Hst. unfold after. cbn [perform]. unfold saveChanges, json_clone.
  destruct (data st) as [d |] eqn:D; [| exact Hst].
  destruct Hst as [Hd Ho].
  split; cbn [data originalData]; intros d' [= <-]; now apply Hd.
Qed.

Lemma discardChanges_invariant st :
  leaf_invariant st -> leaf_invariant (after DiscardChanges st).
Proof.
  intros Hst. unfold after. cbn [perform].
  unfold discardChanges, json_clone.
  destruct (originalData st) as [od |] eqn:O; [| exact Hst].
  destruct Hst as [Hd Ho].
  split; cbn [data originalData]; intros d' [= <-]; now apply Ho.
Qed.

Lemma updateTranslation_invariant kp lang value st :
  leaf_invariant st ->
  (forall d, data st = Some d ->
     In lang (languages d) /\
     forall o, resolve_path kp d = Some (JObj o) ->
               is_leaf (languages d) o = true) ->
  leaf_invariant (after (UpdateTranslation kp lang value) st).
Proof.
  intros Hst H. unfold after. cbn [perform].
  destruct (updateTranslation kp lang value st) as [st' |] eqn:U;
    [| exact Hst].
  destruct Hst as [Hd Ho]. split.
  - destruct (data st) as [d |] eqn:D.
    + destruct (H d eq_refl) as [Hl Hleaf].
      apply (updateTranslation_leaves kp lang value st st' d); auto.
    + unfold updateTranslation in U. rewrite D in U. injection U as <-.
      now rewrite D.
  - apply updateTranslation_keeps in U as [-> _]. exact Ho.
Qed.

Lemma renameKey_invariant oldPath newKeyName st :
  leaf_invariant st ->
  (forall d, data st = Some d ->
     ~ In newKeyName (languages d) /\
     forall P,
       resolve (removelast (split_dot oldPath)) (JObj (translations d))
         = Some (JObj P) ->
       is_leaf (languages d) P = false) ->
  leaf_invariant (after (RenameKey oldPath newKeyName) st).
Proof.
  intros Hst H. unfold after. cbn [perform].
  destruct (renameKey oldPath newKeyName st) as [st' |] eqn:U; [| exact Hst].
  destruct Hst as [Hd Ho]. split.
  - destruct (data st) as [d |] eqn:D.
    + destruct (H d eq_refl) as [Hn Hns].
      apply (renameKey_leaves oldPath newKeyName st st' d); auto.
    + unfold renameKey in U. rewrite D in U. injection U as <-.
      now rewrite D.
  - apply renameKey_keeps in U as [-> _]. exact Ho.
Qed.

(** C5, amended.  From a state in which the keys of every leaf are
    language codes, [removeLanguage], [saveChanges] and [discardChanges]
    lead to such a state whatever their arguments; [addLanguage] does when
    the code names no child of a namespace; [updateTranslation] does when
    the language is active and the key path, if it leads to an object,
    leads to a leaf; [renameKey] does when the new name is not a language
    code and the parent of the entry is not a leaf. *)
Theorem leaf_keys_preserved (st : State) :
  leaf_invariant st ->
  (forall c, leaf_invariant (after (RemoveLanguage c) st)) /\
  leaf_invariant (after SaveChanges st) /\
  leaf_invariant (after DiscardChanges st) /\
  (forall c,
      (forall d, data st = Some d ->
         forallb (fun kv => no_collision (languages d) c (snd kv))
                 (translations d) = true) ->
      leaf_invariant (after (AddLanguage c) st)) /\
  (forall kp lang value,
      (forall d, data st = Some d ->
         In lang (languages d) /\
         forall o, resolve_path kp d = Some (JObj o) ->
                   is_leaf (languages d) o = true) ->
      leaf_invariant (after (UpdateTranslation kp lang value) st)) /\
  (forall oldPath newKeyName,
      (forall d, data st = Some d ->
         ~ In newKeyName (languages d) /\
         forall P,
           resolve (removelast (split_dot oldPath)) (JObj (translations d))
             = Some (JObj P) ->
           is_leaf (languages d) P = false) ->
      leaf_invariant (after (RenameKey oldPath newKeyName) st)).
Proof.
  intros Hst. split; [| split; [| split; [| split; [| split]]]].
  - intros c. now apply removeLanguage_invariant.
  - now apply saveChanges_invariant.
  - now apply discardChanges_invariant.
  - intros c H. now apply addLanguage_invariant.
  - intros kp lang value H. now apply updateTranslation_invariant.
  - intros oldPath newKeyName H. now apply renameKey_invariant.
Qed.

Lemma leaf_keys_preserved_witness :
  leaf_invariant (after (RemoveLanguage "de") (loaded sample_data)) /\
  leaf_invariant (after SaveChanges (loaded sample_data)) /\
  leaf_invariant (after DiscardChanges (loaded sample_data)) /\
  leaf_invariant (after (AddLanguage "fr") (loaded sample_data)) /\
  leaf_invariant
    (after (UpdateTranslation "auth.login.forgot_password" "de"
              "Passwort vergessen?") (loaded sample_data)) /\
  leaf_invariant
    (after (RenameKey "auth.login.title" "heading") (loaded sample_data)).
Proof.
  assert (Hst : leaf_invariant (loaded sample_data)).
  { split; intros d [= <-]; reflexivity. }
  destruct (leaf_keys_preserved (loaded sample_data) Hst)
    as (R & S & D & A & U & N).
  split; [apply R |]. split; [exact S |]. split; [exact D |].
  split; [| split].
  - apply A. intros d [= <-]. reflexivity.
  - apply U. intros d [= <-]. split.
    + simpl. auto.
    + intros o [= <-]. reflexivity.
  - apply N. intros d [= <-]. split.
    + simpl. intros [H | [H | []]]; discriminate.
    + intros P [= <-]. reflexivity.
Defined.

(** An edit in a language that is not active leaves a leaf with a key
    outside the language list; renaming a namespace to a language code
    turns its parent into a leaf with other keys; adding a language whose
    code names a child of a namespace does the same to that namespace. *)
Lemma leaf_keys_preserved_counterexample :
  leaf_keys_ok sample_data = true /\
  leaf_keys_ok countries_data = true /\
  option_map leaf_keys_ok
    (data (after (UpdateTranslation "auth.login.title" "zz" "x")
             (loaded sample_data))) = Some false /\
  option_map leaf_keys_ok
    (data (after (RenameKey "auth.login" "en") (loaded sample_data)))
    = Some false /\
  option_map leaf_keys_ok
    (data (after (AddLanguage "fr") (loaded countries_data))) = Some false.
Proof. repeat split. Qed.

(** * Further properties of the hook *)

(** ** What an edit writes *)

Lemma diverges_snoc r : forall q k,
  diverges r (q ++ [k]) = true ->
  diverges r q = true \/ exists j r', r = q ++ j :: r' /\ j <> k.
Proof.
  induction r as [| a r IH]; intros q k; [now destruct q |].
  destruct q as [| b q]; simpl.
  - destruct (String.eqb_spec a k) as [-> | Hne].
    + now destruct r.
    + intros _. right. now exists a, r.
  - destruct (String.eqb_spec a b) as [-> | Hne]; [| now left].
    intros H. destruct (IH q k H) as [D | (j & r' & -> & Hj)]; [now left |].
    right. now exists j, r'.
Qed.

Lemma write_value_leaf lastKey lang value P o :
  obj_get lastKey P = Some (JObj o) ->
  write_value lastKey lang value (JObj P) =
  Returns (JObj (obj_replace lastKey (JObj (obj_set lang (JStr value) o)) P)).
Proof. intros G. unfold write_value. simpl. now rewrite G. Qed.

(** X1.  An edit of a key path that leads to an object, for a language
    that is assigned as an own property (it is not [__proto__], or the
    object has that key), when the parent also resolves in the snapshot
    and the last segment is read there as the model reads it: the object
    holds the value under the language, keeps what it held under the other
    languages, and every path that parts from the key path resolves as
    before. *)
Theorem updateTranslation_writes (st : State) (d od : TranslationData)
    (kp : string) (q : list string) (k lang value : string)
    (P o : obj) (originalCurrent : JVal) :
  data st = Some d ->
  originalData st = Some od ->
  split_dot kp = q ++ [k] ->
  resolve q (JObj (translations d)) = Some (JObj P) ->
  obj_get k P = Some (JObj o) ->
  assigns_as_model o lang = true ->
  resolve q (JObj (translations od)) = Some originalCurrent ->
  reads_as_model originalCurrent k = true ->
  exists st' d',
    updateTranslation kp lang value st = Returns st' /\
    data st' = Some d' /\
    originalData st' = Some od /\
    languages d' = languages d /\
    resolve (q ++ [k; lang]) (JObj (translations d')) = Some (JStr value) /\
    (defined (obj_get lang o) = true ->
       own_keys (obj_set lang (JStr value) o) = own_keys o) /\
    (forall l, l <> lang ->
       resolve (q ++ [k; l]) (JObj (translations d')) = obj_get l o) /\
    (forall r, diverges r (q ++ [k]) = true ->
       resolve r (JObj (translations d')) = resolve r (JObj (translations d))).
Proof.
  intros D O S R G _ Ho _.
  rewrite (updateTranslation_unfold kp lang value st d od D O).
  rewrite S, removelast_snoc, last_snoc.
  destruct (at_parent_object (write_value k lang value) q P _ _ R
              (write_value_leaf k lang value P o G) eq_refl)
    as (root & E & Hobj & R' & Dv).
  rewrite E, Ho.
  eexists. eexists. split; [reflexivity |]. split; [reflexivity |].
  cbn [originalData with_translations languages translations].
  rewrite (as_obj_object _ Hobj).
  assert (T : resolve (q ++ [k]) root =
              Some (JObj (obj_set lang (JStr value) o))).
  { rewrite resolve_app, R'. simpl.
    now rewrite obj_get_replace_same by now rewrite G. }
  repeat split.
  - replace (q ++ [k; lang]) with ((q ++ [k]) ++ [lang])
      by now rewrite <- app_assoc.
    rewrite resolve_app, T. simpl. now rewrite obj_get_set_same.
  - intros L. unfold obj_set.
    destruct (obj_get lang o); [apply own_keys_replace | discriminate].
  - intros l Hl.
    replace (q ++ [k; l]) with ((q ++ [k]) ++ [l]) by now rewrite <- app_assoc.
    rewrite resolve_app, T. simpl. rewrite obj_get_set_other by exact Hl.
    now destruct (obj_get l o).
  - intros r Hr.
    destruct (diverges_snoc r q k Hr) as [Hd | (seg & r' & -> & Hseg)];
      [now apply Dv |].
    rewrite !resolve_app, R', R. simpl.
    now rewrite obj_get_replace_other.
Qed.

Lemma updateTranslation_writes_witness :
  exists st' d',
    updateTranslation "auth.login.forgot_password" "de" "Passwort vergessen?"
      (loaded sample_data) = Returns st' /\
    data st' = Some d' /\
    resolve_path "auth.login.forgot_password.de" d'
      = Some (JStr "Passwort vergessen?") /\
    resolve_path "auth.login.forgot_password.en" d'
      = Some (JStr "Forgot password?") /\
    resolve_path "auth.login.title" d' = resolve_path "auth.login.title" sample_data.
Proof.
  destruct (updateTranslation_writes (loaded sample_data) sample_data
              sample_data "auth.login.forgot_password" ["auth"; "login"]
              "forgot_password" "de" "Passwort vergessen?"
              [("title", leaf2 "Login" "Anmelden");
               ("button", leaf2 "Sign In" "Einloggen");
               ("forgot_password", leaf2 "Forgot password?" "")]
              [("en", JStr "Forgot password?"); ("de", JStr "")]
              _
              eq_refl eq_refl eq_refl eq_refl eq_refl eq_refl eq_refl eq_refl)
    as (st' & d' & U & D & _ & _ & W & _ & K & F).
  exists st', d'. split; [exact U |]. split; [exact D |].
  split; [exact W |]. split.
  - apply (K "en"). discriminate.
  - apply (F ["auth"; "login"; "title"]). reflexivity.
Defined.

(** ** What an edit records *)

Lemma in_replace_found {A : Type} (p : A -> bool) (y : A) l : forall i,
  findIndex p l = Some i -> In y (replace_at i y l).
Proof.
  induction l as [| x l IH]; intros i; simpl; [discriminate |].
  destruct (p x).
  - intros [= <-]. now left.
  - destruct (findIndex p l) as [j |]; simpl; [| discriminate].
    intros [= <-]. right. now apply IH.
Qed.

Lemma findIndex_some_counts {A : Type} (p : A -> bool) l i :
  findIndex p l = Some i -> 1 <= List.length (filter p l).
Proof.
  revert i. induction l as [| x l IH]; intros i; simpl; [discriminate |].
  destruct (p x); simpl; [lia |].
  destruct (findIndex p l) as [j |]; simpl; [| discriminate].
  intros _. now apply (IH j).
Qed.

(** X2.  An edit that returns with a value other than the snapshot's
    records a pending change that carries the snapshot's value and the new
    one, so that the hook reports unsaved changes; it is the only entry for
    the pair when there was at most one.  This for a key path whose last
    segment is read in the catalog and in the snapshot as the model reads
    it (an own property, or a name that is not inherited), and a language
    that is read so under the snapshot's value. *)
Theorem updateTranslation_records (st st' : State) (d od : TranslationData)
    (kp lang value : string) :
  data st = Some d ->
  originalData st = Some od ->
  path_reads_as_model (translations d) kp = true ->
  original_reads_as_model od kp lang = true ->
  updateTranslation kp lang value st = Returns st' ->
  strict_eq value (original_value_at od kp lang) = false ->
  In (mkUnsavedChange kp lang (original_value_at od kp lang) value)
     (unsavedChanges st') /\
  hasUnsavedChanges st' = true /\
  (pending_for kp lang (unsavedChanges st) <= 1 ->
   pending_for kp lang (unsavedChanges st') = 1).
Proof.
  intros D O _ _ U Hne.
  rewrite (updateTranslation_unfold kp lang value st d od D O) in U.
  destruct (at_parent _ _ _) as [root |]; [| discriminate].
  unfold original_value_at in *.
  destruct (resolve _ (JObj (translations od))) as [oc |]; [| discriminate].
  injection U as <-. cbn [unsavedChanges]. unfold hasUnsavedChanges.
  cbn [unsavedChanges]. unfold recordEdit, pending_for. rewrite Hne.
  set (change := mkUnsavedChange kp lang _ value).
  destruct (findIndex (targets kp lang) (unsavedChanges st)) as [i |] eqn:F.
  - pose proof (in_replace_found _ change _ _ F) as Hin.
    split; [exact Hin |]. split.
    + destruct (replace_at i change (unsavedChanges st)); [destruct Hin |].
      reflexivity.
    + intros Hone.
      rewrite (filter_replace_found (targets kp lang) (targets kp lang)
                 change _ i F).
      * apply findIndex_some_counts in F. lia.
      * intros x Hx. rewrite Hx. symmetry. apply targets_made.
  - split; [apply in_or_app; right; now left |]. split.
    + rewrite length_app. simpl.
      destruct (List.length (unsavedChanges st) + 1) eqn:E; [lia | reflexivity].
    + intros _. rewrite filter_app, length_app, (findIndex_none _ _ F).
      simpl. unfold change. now rewrite targets_made.
Qed.

Lemma updateTranslation_records_witness :
  let st' :=
    after (UpdateTranslation "auth.login.title" "de" "Login")
      (after (UpdateTranslation "auth.login.title" "de" "Anmeldung")
         (loaded sample_data)) in
  In (mkUnsavedChange "auth.login.title" "de" (JStr "Anmelden") "Login")
     (unsavedChanges st') /\
  hasUnsavedChanges st' = true /\
  pending_for "auth.login.title" "de" (unsavedChanges st') = 1.
Proof.
  destruct (updateTranslation_records
              (after (UpdateTranslation "auth.login.title" "de" "Anmeldung")
                 (loaded sample_data))
              (after (UpdateTranslation "auth.login.title" "de" "Login")
                 (after (UpdateTranslation "auth.login.title" "de" "Anmeldung")
                    (loaded sample_data)))
              _ sample_data "auth.login.title" "de" "Login"
              eq_refl eq_refl eq_refl eq_refl eq_refl eq_refl) as (A & B & C).
  split; [exact A |]. split; [exact B |]. apply C. vm_compute. lia.
Defined.

(** ** Two edits of the same place *)

Lemma obj_replace_replace k a b o :
  obj_replace k b (obj_replace k a o) = obj_replace k b o.
Proof.
  induction o as [| [k' v'] o IH]; simpl; [reflexivity |].
  destruct (String.eqb k k') eqn:E; simpl; rewrite E; [reflexivity |].
  now rewrite IH.
Qed.

Lemma obj_replace_insert_index i k a b o :
  obj_get k o = None ->
  obj_replace k b (obj_insert_index i k a o) = obj_insert_index i k b o.
Proof.
  induction o as [| [k' v'] o IH]; simpl.
  - now rewrite String.eqb_refl.
  - destruct (String.eqb k k') eqn:E; [discriminate |]. intros G.
    destruct (array_index k') as [j |]; [destruct (j <? i)%N |]; simpl;
      rewrite ?String.eqb_refl, ?E; try reflexivity.
    now rewrite IH.
Qed.

Lemma obj_replace_last k a b o :
  obj_get k o = None -> obj_replace k b (o ++ [(k, a)]) = o ++ [(k, b)].
Proof.
  induction o as [| [k' v'] o IH]; simpl.
  - now rewrite String.eqb_refl.
  - destruct (String.eqb k k'); [discriminate |]. intros G. now rewrite IH.
Qed.

(** Assigning a property twice is assigning it once, the last value. *)
Lemma obj_set_set k a b o : obj_set k b (obj_set k a o) = obj_set k b o.
Proof.
  unfold obj_set at 1. rewrite obj_get_set_same.
  unfold obj_set. destruct (obj_get k o) eqn:G.
  - apply obj_replace_replace.
  - destruct (array_index k).
    + now apply obj_replace_insert_index.
    + now apply obj_replace_last.
Qed.

Lemma write_value_twice lastKey lang v1 v2 cur cur1 :
  write_value lastKey lang v1 cur = Returns cur1 ->
  write_value lastKey lang v2 cur1 = write_value lastKey lang v2 cur.
Proof.
  unfold write_value.
  destruct (js_get cur lastKey) as [target |] eqn:G;
    [| intros [= <-]; now rewrite G].
  destruct (truthy target) eqn:T; [| intros [= <-]; now rewrite G, T].
  destruct target as [s | o]; simpl; [discriminate |]. intros [= <-].
  destruct cur as [s | P]; simpl in *.
  - destruct (array_index lastKey); [| discriminate].
    destruct (char_at _ s); discriminate.
  - rewrite obj_get_replace_same by now rewrite G. simpl.
    now rewrite obj_set_set, obj_replace_replace.
Qed.

Lemma at_parent_twice segs lastKey lang v1 v2 : forall cur cur1,
  at_parent segs (write_value lastKey lang v1) cur = Returns cur1 ->
  at_parent segs (write_value lastKey lang v2) cur1 =
  at_parent segs (write_value lastKey lang v2) cur.
Proof.
  induction segs as [| k segs IH]; intros cur cur1; simpl.
  - apply write_value_twice.
  - destruct (js_get cur k) as [child |] eqn:G; [| discriminate].
    destruct (at_parent segs (write_value lastKey lang v1) child)
      as [child1 |] eqn:E; simpl; [| discriminate].
    intros [= <-]. specialize (IH _ _ E).
    destruct cur as [s | P]; simpl in *.
    + rewrite G.
      destruct (array_index k); [| discriminate].
      destruct (char_at _ s) as [c |]; [| discriminate].
      injection G as <-.
      apply (at_parent_string segs _ (write_value_string lastKey lang v1)) in E.
      now subst child1.
    + rewrite obj_get_replace_same by now rewrite G. rewrite IH.
      destruct (at_parent segs (write_value lastKey lang v2) child);
        simpl; [| reflexivity].
      now rewrite obj_replace_replace.
Qed.

(** X3.  The catalog after two edits of the same key path and language is
    the catalog after the second edit alone. *)
Theorem updateTranslation_last_write_wins (st : State)
    (kp lang v1 v2 : string) :
  data (after (UpdateTranslation kp lang v2)
          (after (UpdateTranslation kp lang v1) st))
  = data (after (UpdateTranslation kp lang v2) st).
Proof.
  unfold after at 2. cbn [perform].
  destruct (updateTranslation kp lang v1 st) as [st1 |] eqn:U1;
    [| reflexivity].
  destruct (data st) as [d |] eqn:D;
    [| unfold updateTranslation in U1; rewrite D in U1;
       now injection U1 as <-].
  destruct (originalData st) as [od |] eqn:O;
    [| unfold updateTranslation in U1; rewrite D, O in U1;
       now injection U1 as <-].
  rewrite (updateTranslation_unfold kp lang v1 st d od D O) in U1.
  destruct (at_parent _ _ _) as [root1 |] eqn:A1; [| discriminate].
  destruct (resolve _ (JObj (translations od))) as [oc |] eqn:R;
    [| discriminate].
  injection U1 as <-. unfold after. cbn [perform].
  erewrite updateTranslation_unfold; [| reflexivity | reflexivity].
  rewrite (updateTranslation_unfold kp lang v2 st d od D O).
  cbn [translations with_translations].
  rewrite (as_obj_object _ (at_parent_write_object _ _ _ _ _ _ A1)).
  rewrite (at_parent_twice _ _ _ v1 v2 _ _ A1), R.
  destruct (at_parent_again _ _ _ v1 v2 _ _ A1) as [root2 A2].
  rewrite (at_parent_twice _ _ _ v1 v2 _ _ A1) in A2. rewrite A2.
  reflexivity.
Qed.

(** ** Discarding *)

Lemma originalData_after c st :
  is_save c = false -> originalData (after c st) = originalData st.
Proof.
  intros Hc. unfold after.
  destruct (perform c st) as [st' |] eqn:P; [| reflexivity].
  destruct c; try discriminate Hc; simpl in P.
  - now apply updateTranslation_keeps in P.
  - now apply renameKey_keeps in P.
  - unfold addLanguage in P. destruct (data st); [| now injection P as <-].
    destruct (includes _ _); now injection P as <-.
  - unfold removeLanguage in P. destruct (data st); [| now injection P as <-].
    destruct (Nat.leb _ _); now injection P as <-.
  - unfold discardChanges in P.
    destruct (originalData st) eqn:O; injection P as <-; [reflexivity | exact O].
Qed.

Lemma originalData_after_all cs : forall st,
  existsb is_save cs = false ->
  originalData (after_all cs st) = originalData st.
Proof.
  unfold after_all. induction cs as [| c cs IH]; simpl; intros st H.
  - reflexivity.
  - apply orb_false_iff in H as [Hc Hcs].
    rewrite IH by exact Hcs. now apply originalData_after.
Qed.

(** X4.  After any run of calls without [saveChanges], [discardChanges]
    leads to the state in which the catalog is the snapshot and nothing is
    pending: edits, renames and changes of the language list are all
    undone. *)
Theorem discardChanges_restores_snapshot (st : State) (od : TranslationData)
    (cs : list call) :
  originalData st = Some od ->
  existsb is_save cs = false ->
  after DiscardChanges (after_all cs st) = loaded od.
Proof.
  intros O Hcs. unfold after. cbn [perform]. unfold discardChanges.
  rewrite (originalData_after_all cs st Hcs), O. reflexivity.
Qed.

Lemma discardChanges_restores_snapshot_witness :
  after DiscardChanges
    (after_all [UpdateTranslation "auth.login.title" "de" "Anmeldung";
                RenameKey "auth.register" "signup";
                AddLanguage "fr";
                RemoveLanguage "en"]
       (loaded sample_data))
  = loaded sample_data.
Proof.
  apply (discardChanges_restores_snapshot (loaded sample_data) sample_data);
    reflexivity.
Defined.

(** ** The range of completeness *)

Lemma every_node_unfold P n :
  every_node P n <->
  P n /\ match children n with
         | Some nodes => Forall (every_node P) nodes
         | None => True
         end.
Proof.
  destruct n as [k p dp lf cs vs c]. simpl.
  destruct cs as [nodes |]; [| tauto].
  assert (E : (fix all (l : list TreeNode) : Prop :=
                 match l with
                 | [] => True
                 | c0 :: rest => every_node P c0 /\ all rest
                 end) nodes <-> Forall (every_node P) nodes).
  { induction nodes as [| x nodes IH]; [now split |].
    split.
    - intros [Hx Hr]. constructor; [exact Hx | now apply IH].
    - intros H. inversion H; subst. split; [assumption | now apply IH]. }
  tauto.
Qed.

Lemma filledCount_le vals langs : forall n,
  filledCount vals langs = Returns n -> n <= List.length langs.
Proof.
  induction langs as [| lang langs IH]; simpl; intros n.
  - intros [= <-]. lia.
  - destruct (is_filled vals lang) as [b |]; simpl; [| discriminate].
    destruct (filledCount vals langs) as [m |]; simpl; [| discriminate].
    intros [= <-]. specialize (IH m eq_refl). destruct b; lia.
Qed.

Lemma number_of_nat_le a b : a <= b -> (number_of_nat a <= number_of_nat b)%Q.
Proof. intros H. unfold number_of_nat. rewrite <- Zle_Qle. lia. Qed.

Lemma number_of_nat_pos a : 0 < a -> (0 < number_of_nat a)%Q.
Proof.
  intros H. unfold number_of_nat. change 0%Q with (inject_Z 0).
  rewrite <- Zlt_Qlt. lia.
Qed.

Lemma number_of_nat_S a :
  (number_of_nat (S a) == number_of_nat a + 1)%Q.
Proof.
  unfold number_of_nat. rewrite Nat2Z.inj_succ, <- Z.add_1_r, inject_Z_plus.
  reflexivity.
Qed.

Lemma ratio_is_percentage filled total :
  filled <= total -> 0 < total ->
  (0 <= number_of_nat filled / number_of_nat total * 100)%Q /\
  (number_of_nat filled / number_of_nat total * 100 <= 100)%Q.
Proof.
  intros Hle Hpos.
  pose proof (number_of_nat_pos total Hpos) as Ht.
  pose proof (number_of_nat_le 0 filled (Nat.le_0_l _)) as Hf.
  pose proof (number_of_nat_le filled total Hle) as Hft.
  assert (L : (0 <= number_of_nat filled / number_of_nat total)%Q).
  { apply Qle_shift_div_l; [exact Ht |]. now rewrite Qmult_0_l. }
  assert (U : (number_of_nat filled / number_of_nat total <= 1)%Q).
  { apply Qle_shift_div_r; [exact Ht |]. now rewrite Qmult_1_l. }
  split.
  - apply Qmult_le_0_compat; [exact L | discriminate].
  - apply (Qle_trans _ (1 * 100)); [| discriminate].
    apply Qmult_le_compat_r; [exact U | discriminate].
Qed.

Lemma sum_is_bounded nodes :
  Forall is_percentage nodes ->
  (0 <= fold_right Qplus 0 (map completeness nodes))%Q /\
  (fold_right Qplus 0 (map completeness nodes)
   <= 100 * number_of_nat (List.length nodes))%Q.
Proof.
  induction 1 as [| n nodes [Hl Hu] _ [IHl IHu]]; simpl.
  - split; [apply Qle_refl |]. now rewrite Qmult_0_r.
  - rewrite number_of_nat_S. split.
    + apply (Qle_trans _ (0 + 0)); [discriminate |].
      now apply Qplus_le_compat.
    + rewrite Qmult_plus_distr_r, Qmult_1_r, Qplus_comm.
      now apply Qplus_le_compat.
Qed.

Lemma avgCompleteness_is_percentage nodes :
  Forall is_percentage nodes ->
  (0 <= avgCompleteness nodes)%Q /\ (avgCompleteness nodes <= 100)%Q.
Proof.
  intros H. rewrite avgCompleteness_mean.
  destruct nodes as [| n nodes]; [split; discriminate |].
  destruct (sum_is_bounded _ H) as [Hl Hu]. unfold mean.
  rewrite length_map.
  assert (Ht : (0 < number_of_nat (List.length (n :: nodes)))%Q)
    by (apply number_of_nat_pos; simpl; lia).
  split.
  - apply Qle_shift_div_l; [exact Ht |]. now rewrite Qmult_0_l.
  - apply Qle_shift_div_r; [exact Ht | exact Hu].
Qed.

Lemma existsb_nonempty {A : Type} (p : A -> bool) l :
  existsb p l = true -> 0 < List.length l.
Proof. destruct l; simpl; [discriminate | lia]. Qed.

Lemma is_leaf_languages langs o : is_leaf langs o = true -> 0 < List.length langs.
Proof.
  intros H. apply is_leaf_true_iff in H as (k & _ & Hk).
  destruct langs; [destruct Hk | simpl; lia].
Qed.

Lemma buildTree_each langs (P : TreeNode -> Prop) (o : obj) :
  Forall (fun kv => forall parent dep k n,
            buildNode langs parent dep k (snd kv) = Returns n -> P n) o ->
  forall parent dep nodes,
    buildTree langs o parent dep = Returns nodes -> Forall P nodes.
Proof.
  induction 1 as [| [k v] o Hv _ IH]; intros parent dep nodes;
    cbn [buildTree].
  - intros [= <-]. constructor.
  - destruct (buildNode langs parent dep k v) as [n |] eqn:En;
      cbn [bind]; [| discriminate].
    destruct (buildTree langs o parent dep) as [ns |] eqn:Ens;
      cbn [bind]; [| discriminate].
    intros [= <-]. constructor; [now apply (Hv parent dep k) | now apply (IH parent dep)].
Qed.

Lemma buildNode_is_percentage langs :
  forall v parent dep k n,
    buildNode langs parent dep k v = Returns n ->
    every_node is_percentage n.
Proof.
  assert (Leaf : forall value parent dep k n,
             0 < List.length langs ->
             (filled <- filledCount value langs ;;
              Returns (mkTreeNode k (child_path parent k) dep true None
                         (Some value)
                         ((number_of_nat filled
                           / number_of_nat (List.length langs)) * 100)%Q))
             = Returns n ->
             every_node is_percentage n).
  { intros value parent dep k n Hpos.
    destruct (filledCount value langs) as [filled |] eqn:F; cbn [bind];
      [| discriminate].
    intros [= <-]. apply every_node_unfold. split; [| exact I].
    apply ratio_is_percentage; [now apply (filledCount_le value) | exact Hpos]. }
  induction v as [s | o IH] using JVal_ind; intros parent dep k n.
  - simpl.
    destruct (existsb _ langs) eqn:L.
    + apply Leaf. now apply existsb_nonempty in L.
    + destruct (nonempty s); [discriminate |]. intros [= <-].
      apply every_node_unfold. split; [| constructor].
      apply (avgCompleteness_is_percentage []). constructor.
  - destruct (is_leaf langs o) eqn:L.
    + simpl. rewrite L. apply Leaf. now apply is_leaf_languages in L.
    + rewrite buildNode_namespace by exact L.
      destruct (buildTree langs o (child_path parent k) (S dep))
        as [nodes |] eqn:B; cbn [bind]; [| discriminate].
      intros [= <-].
      pose proof (buildTree_each langs (every_node is_percentage) o IH
                    _ _ _ B) as Hall.
      apply every_node_unfold. split; [| exact Hall].
      apply avgCompleteness_is_percentage.
      apply Forall_impl with (2 := Hall).
      intros c Hc. now apply every_node_unfold in Hc.
Qed.

(** X5.  Whenever [buildTree] returns, the completeness of every display
    node, at every depth, lies between 0 and 100. *)
Theorem buildTree_completeness_is_percentage (langs : list string)
    (node : obj) (parent : string) (dep : nat) (nodes : list TreeNode) :
  buildTree langs node parent dep = Returns nodes ->
  Forall (every_node is_percentage) nodes.
Proof.
  apply buildTree_each. apply Forall_forall. intros kv _ p dp k n.
  apply buildNode_is_percentage.
Qed.

Lemma buildTree_completeness_is_percentage_witness :
  exists nodes,
    buildTree ["en"; "de"] sample_tree "" 0 = Returns nodes /\
    Forall (every_node is_percentage) nodes.
Proof.
  eexists. split; [reflexivity |].
  apply (buildTree_completeness_is_percentage ["en"; "de"] sample_tree "" 0).
  reflexivity.
Defined.

(** ** Key paths of display nodes *)

Lemma split_dot_app a : forall b,
  split_dot (a ++ String "." b) = split_dot a ++ split_dot b.
Proof.
  induction a as [| c a IH]; intros b; simpl; [reflexivity |].
  destruct (Ascii.eqb c "."); [now rewrite IH |].
  rewrite IH. pose proof (split_dot_nonempty a) as Hne.
  destruct (split_dot a); [contradiction | reflexivity].
Qed.

Lemma split_dot_plain k : has_dot k = false -> split_dot k = [k].
Proof.
  induction k as [| c k IH]; simpl; [reflexivity |].
  destruct (Ascii.eqb c "."); simpl; [discriminate |].
  intros H. now rewrite IH.
Qed.

Lemma plain_no_dot k : plain k = true -> has_dot k = false.
Proof.
  unfold plain. rewrite andb_true_iff, negb_true_iff. tauto.
Qed.

(** Joining plain segments and splitting again gives the segments back. *)
Lemma split_dot_join parts :
  parts <> [] -> Forall (fun p => plain p = true) parts ->
  split_dot (join_dot parts) = parts.
Proof.
  induction parts as [| p parts IH]; [contradiction |]. intros _ H.
  inversion H as [| ? ? Hp Hrest]; subst.
  destruct parts as [| p' parts].
  - simpl. now apply split_dot_plain, plain_no_dot.
  - change (join_dot (p :: p' :: parts))
      with (p ++ String "." (join_dot (p' :: parts)))%string.
    rewrite split_dot_app, IH by (auto || discriminate).
    now rewrite split_dot_plain by now apply plain_no_dot.
Qed.

Lemma string_append_assoc (a b c : string) :
  ((a ++ b) ++ c = a ++ (b ++ c))%string.
Proof. induction a as [| x a IH]; simpl; [reflexivity | now rewrite IH]. Qed.

Lemma join_dot_snoc parts k :
  parts <> [] ->
  join_dot (parts ++ [k]) = (join_dot parts ++ "." ++ k)%string.
Proof.
  induction parts as [| p parts IH]; [contradiction |]. intros _.
  destruct parts as [| p' parts]; [reflexivity |].
  change (join_dot ((p :: p' :: parts) ++ [k]))
    with (p ++ String "." (join_dot ((p' :: parts) ++ [k])))%string.
  rewrite IH by discriminate.
  change (join_dot (p :: p' :: parts))
    with (p ++ String "." (join_dot (p' :: parts)))%string.
  now rewrite string_append_assoc.
Qed.

Lemma join_dot_nonempty parts :
  parts <> [] -> Forall (fun p => plain p = true) parts ->
  nonempty (join_dot parts) = true.
Proof.
  destruct parts as [| p parts]; [contradiction |]. intros _ H.
  inversion H as [| ? ? Hp _]; subst.
  unfold plain in Hp. apply andb_true_iff in Hp as [Hp _].
  destruct p; [discriminate |]. now destruct parts.
Qed.

(** The path of a child is the path of its parent with one more segment. *)
Lemma child_path_join parts k :
  Forall (fun p => plain p = true) parts ->
  child_path (join_dot parts) k = join_dot (parts ++ [k]).
Proof.
  intros H. unfold child_path. destruct parts as [| p parts]; [reflexivity |].
  rewrite join_dot_nonempty by (auto || discriminate).
  now rewrite join_dot_snoc by discriminate.
Qed.

Lemma flatten_item_unfold item :
  flatten_item item =
  if isLeaf item then [item]
  else match children item with
       | Some nodes => flatten nodes
       | None => []
       end.
Proof.
  destruct item as [k p dp lf cs vs c]. simpl.
  destruct lf; [reflexivity |]. destruct cs as [nodes |]; [| reflexivity].
  unfold flatten. induction nodes as [| x nodes IH]; [reflexivity |].
  simpl. now rewrite IH.
Qed.

Lemma in_flatten m items :
  In m (flatten items) <-> exists n, In n items /\ In m (flatten_item n).
Proof. unfold flatten. apply in_flat_map. Qed.

Lemma buildTree_in langs (o : obj) : forall parent dep nodes c,
  buildTree langs o parent dep = Returns nodes ->
  In c nodes ->
  exists k v, In (k, v) o /\ buildNode langs parent dep k v = Returns c.
Proof.
  induction o as [| [k v] o IH]; intros parent dep nodes c; cbn [buildTree].
  - intros [= <-] [].
  - destruct (buildNode langs parent dep k v) as [n |] eqn:En;
      cbn [bind]; [| discriminate].
    destruct (buildTree langs o parent dep) as [ns |] eqn:Ens;
      cbn [bind]; [| discriminate].
    intros [= <-] [<- | Hin].
    + exists k, v. split; [now left | exact En].
    + destruct (IH parent dep ns c Ens Hin) as (k' & v' & Hin' & E').
      exists k', v'. split; [now right | exact E'].
Qed.

Lemma distinct_obj_get (o : obj) k v :
  distinct (own_keys o) = true -> In (k, v) o -> obj_get k o = Some v.
Proof.
  induction o as [| [k' v'] o IH]; simpl; [intros _ [] |].
  rewrite andb_true_iff, negb_true_iff. intros [Hk Hd] [[= -> ->] | Hin].
  - now rewrite String.eqb_refl.
  - destruct (String.eqb_spec k k') as [-> | _]; [| now apply IH].
    exfalso. apply includes_false_iff in Hk. apply Hk.
    apply in_own_keys. now exists v.
Qed.

Lemma buildNode_paths langs :
  forall v parts dep k n,
    Forall (fun p => plain p = true) parts ->
    plain k = true ->
    addressable langs v = true ->
    buildNode langs (join_dot parts) dep k v = Returns n ->
    forall m, In m (flatten_item n) ->
      isLeaf m = true /\
      exists rel x,
        path m = join_dot (parts ++ k :: rel) /\
        Forall (fun p => plain p = true) rel /\
        values m = Some x /\
        resolve rel v = Some x.
Proof.
  assert (Leaf : forall value parts dep k n,
             Forall (fun p => plain p = true) parts ->
             (filled <- filledCount value langs ;;
              Returns (mkTreeNode k (child_path (join_dot parts) k) dep true
                         None (Some value)
                         ((number_of_nat filled
                           / number_of_nat (List.length langs)) * 100)%Q))
             = Returns n ->
             forall m, In m (flatten_item n) ->
               isLeaf m = true /\
               exists rel x,
                 path m = join_dot (parts ++ k :: rel) /\
                 Forall (fun p => plain p = true) rel /\
                 values m = Some x /\
                 resolve rel value = Some x).
  { intros value parts dep k n Hparts.
    destruct (filledCount value langs) as [filled |]; cbn [bind];
      [| discriminate].
    intros [= <-] m. rewrite flatten_item_unfold. cbn [isLeaf].
    intros [<- | []]. split; [reflexivity |].
    exists [], value. cbn [path values resolve].
    rewrite child_path_join by exact Hparts. auto. }
  induction v as [s | o IH] using JVal_ind;
    intros parts dep k n Hparts Hk Hok.
  - simpl. destruct (existsb _ langs); [now apply Leaf |].
    destruct (nonempty s); [discriminate |]. intros [= <-] m.
    rewrite flatten_item_unfold. cbn [isLeaf children flatten flat_map].
    intros [].
  - destruct (is_leaf langs o) eqn:L.
    + simpl. rewrite L. now apply Leaf.
    + rewrite buildNode_namespace by exact L.
      destruct (buildTree langs o (child_path (join_dot parts) k) (S dep))
        as [nodes |] eqn:B; cbn [bind]; [| discriminate].
      intros [= <-] m. rewrite flatten_item_unfold. cbn [isLeaf children].
      intros Hm. apply in_flatten in Hm as (c & Hc & Hm).
      rewrite child_path_join in B by exact Hparts.
      destruct (buildTree_in langs o _ _ _ c B Hc) as (k' & v' & Hin & E).
      simpl in Hok. rewrite L in Hok.
      apply andb_true_iff in Hok as [Hd Hall].
      rewrite forallb_forall in Hall. rewrite Forall_forall in IH.
      pose proof (Hall _ Hin) as Hkv. cbn [fst snd] in Hkv.
      apply andb_true_iff in Hkv as [Hk' Hv'].
      assert (Hparts' : Forall (fun p => plain p = true) (parts ++ [k])).
      { apply Forall_app. split; [exact Hparts | now constructor]. }
      destruct (IH _ Hin (parts ++ [k]) (S dep) k' c Hparts' Hk' Hv' E m Hm)
        as (Hleaf & rel & x & Hp & Hrel & Hvals & Hres).
      split; [exact Hleaf |]. exists (k' :: rel), x.
      rewrite <- app_assoc in Hp. repeat split; auto.
      simpl. now rewrite (distinct_obj_get o k' v' Hd Hin).
Qed.

(** X6.  When the keys below every namespace are distinct, non-empty
    and free of dots, every row of the editor is a leaf whose path, split
    at the dots, leads in the catalog to the values the row shows. *)
Theorem editor_rows_resolve (st : State) (d : TranslationData)
    (nodes : list TreeNode) :
  data st = Some d ->
  tree_addressable (languages d) (translations d) = true ->
  buildTreeOf st (translations d) "" 0 = Returns nodes ->
  forall m, In m (flatten nodes) ->
    isLeaf m = true /\
    exists x, values m = Some x /\ resolve_path (path m) d = Some x.
Proof.
  intros D Hok B m Hm. unfold buildTreeOf in B. rewrite D in B.
  apply in_flatten in Hm as (c & Hc & Hm).
  destruct (buildTree_in _ _ _ _ _ c B Hc) as (k & v & Hin & E).
  unfold tree_addressable in Hok. apply andb_true_iff in Hok as [Hd Hall].
  rewrite forallb_forall in Hall. pose proof (Hall _ Hin) as Hkv.
  cbn [fst snd] in Hkv. apply andb_true_iff in Hkv as [Hk Hv].
  destruct (buildNode_paths (languages d) v [] 0 k c (Forall_nil _) Hk Hv E
              m Hm) as (Hleaf & rel & x & Hp & Hrel & Hvals & Hres).
  split; [exact Hleaf |]. exists x. split; [exact Hvals |].
  unfold resolve_path. rewrite Hp. cbn [app].
  rewrite split_dot_join by (discriminate || now constructor).
  simpl. now rewrite (distinct_obj_get _ k v Hd Hin).
Qed.

Lemma editor_rows_resolve_witness :
  exists nodes,
    buildTreeOf (loaded sample_data) sample_tree "" 0 = Returns nodes /\
    map path (flatten nodes) =
      ["auth.login.title"; "auth.login.button"; "auth.login.forgot_password";
       "auth.register.title"; "auth.register.subtitle"] /\
    forall m, In m (flatten nodes) ->
      isLeaf m = true /\
      exists x, values m = Some x /\ resolve_path (path m) sample_data = Some x.
Proof.
  eexists. split; [reflexivity |]. split; [reflexivity |].
  apply (editor_rows_resolve (loaded sample_data) sample_data);
    reflexivity.
Defined.

(** ** Missing languages in the editor and in the tree view *)

Lemma buildNode_leaf_inv langs parent dep k v n :
  buildNode langs parent dep k v = Returns n ->
  isLeaf n = true ->
  exists filled,
    filledCount v langs = Returns filled /\
    values n = Some v /\
    0 < List.length langs /\
    completeness n =
      (number_of_nat filled / number_of_nat (List.length langs) * 100)%Q.
Proof.
  assert (Leaf : 0 < List.length langs ->
             (filled <- filledCount v langs ;;
              Returns (mkTreeNode k (child_path parent k) dep true None
                         (Some v)
                         ((number_of_nat filled
                           / number_of_nat (List.length langs)) * 100)%Q))
             = Returns n ->
             exists filled,
               filledCount v langs = Returns filled /\
               values n = Some v /\
               0 < List.length langs /\
               completeness n =
                 (number_of_nat filled / number_of_nat (List.length langs)
                  * 100)%Q).
  { intros Hpos. destruct (filledCount v langs) as [filled |]; cbn [bind];
      [| discriminate].
    intros [= <-]. exists filled. auto. }
  destruct v as [s | o].
  - simpl. destruct (existsb _ langs) eqn:L.
    + intros E _. apply Leaf; [now apply existsb_nonempty in L | exact E].
    + destruct (nonempty s); [discriminate |]. now intros [= <-].
  - destruct (is_leaf langs o) eqn:L.
    + simpl. rewrite L. intros E _.
      apply Leaf; [now apply is_leaf_languages in L | exact E].
    + rewrite buildNode_namespace by exact L.
      destruct (buildTree _ _ _ _); cbn [bind]; [| discriminate].
      now intros [= <-].
Qed.

Lemma getMissingLanguages_counts node vals :
  values node = Some vals ->
  forall langs filled,
    filledCount vals langs = Returns filled ->
    exists missing,
      getMissingLanguages langs node = Returns missing /\
      List.length missing + filled = List.length langs.
Proof.
  intros V. induction langs as [| lang langs IH]; simpl; intros filled.
  - intros [= <-]. now exists [].
  - rewrite V. destruct (is_filled vals lang) as [b |]; cbn [bind];
      [| discriminate].
    destruct (filledCount vals langs) as [f |]; cbn [bind]; [| discriminate].
    intros [= <-]. destruct (IH f eq_refl) as (missing & -> & Hlen).
    cbn [bind]. destruct b; eexists; (split; [reflexivity |]); simpl; lia.
Qed.

Lemma number_of_nat_inj a b :
  (number_of_nat a == number_of_nat b)%Q -> a = b.
Proof.
  unfold number_of_nat. rewrite inject_Z_injective. lia.
Qed.

Lemma ratio_full filled total :
  0 < total ->
  (number_of_nat filled / number_of_nat total * 100 == 100)%Q <->
  filled = total.
Proof.
  intros Hpos. pose proof (number_of_nat_pos total Hpos) as Ht.
  assert (Hne : ~ (number_of_nat total == 0)%Q)
    by (intros E; rewrite E in Ht; discriminate).
  split.
  - intros H. apply number_of_nat_inj.
    assert (H1 : (number_of_nat filled / number_of_nat total == 1)%Q).
    { apply (Qmult_inj_r _ _ 100); [discriminate |]. now rewrite H. }
    rewrite <- (Qmult_div_r (number_of_nat filled) (number_of_nat total))
      by exact Hne.
    rewrite H1. apply Qmult_1_r.
  - intros ->. unfold Qdiv. rewrite Qmult_inv_r by exact Hne. reflexivity.
Qed.

Lemma ratio_none filled total :
  0 < total ->
  (number_of_nat filled / number_of_nat total * 100 == 0)%Q <->
  filled = 0.
Proof.
  intros Hpos. pose proof (number_of_nat_pos total Hpos) as Ht.
  assert (Hne : ~ (number_of_nat total == 0)%Q)
    by (intros E; rewrite E in Ht; discriminate).
  split.
  - intros H. apply number_of_nat_inj.
    assert (H1 : (number_of_nat filled / number_of_nat total == 0)%Q).
    { apply (Qmult_inj_r _ _ 100); [discriminate |]. now rewrite H. }
    rewrite <- (Qmult_div_r (number_of_nat filled) (number_of_nat total))
      by exact Hne.
    rewrite H1. apply Qmult_0_r.
  - intros ->. reflexivity.
Qed.

(** X7.  For a leaf that [buildTree] has built, the editor's list of
    missing languages and the completeness agree: the languages that are
    not missing are the filled ones, and no language is missing exactly
    when the completeness is 100. *)
Theorem missing_languages_match_completeness (langs : list string)
    (parent : string) (dep : nat) (k : string) (v : JVal) (n : TreeNode) :
  buildNode langs parent dep k v = Returns n ->
  isLeaf n = true ->
  exists missing,
    getMissingLanguages langs n = Returns missing /\
    List.length missing <= List.length langs /\
    (completeness n ==
     number_of_nat (List.length langs - List.length missing)
     / number_of_nat (List.length langs) * 100)%Q /\
    (missing = [] <-> (completeness n == 100)%Q).
Proof.
  intros B Hleaf.
  destruct (buildNode_leaf_inv langs parent dep k v n B Hleaf)
    as (filled & F & V & Hpos & ->).
  destruct (getMissingLanguages_counts n v V langs filled F)
    as (missing & G & Hlen).
  exists missing. split; [exact G |]. split; [lia |].
  replace (List.length langs - List.length missing) with filled by lia.
  split; [reflexivity |].
  rewrite (ratio_full filled _ Hpos). split.
  - intros ->. simpl in Hlen. lia.
  - intros ->. destruct missing; [reflexivity | simpl in Hlen; lia].
Qed.

Lemma missing_languages_match_completeness_witness :
  exists missing,
    getMissingLanguages ["en"; "de"]
      (mkTreeNode "forgot_password" "auth.login.forgot_password" 2 true None
         (Some (leaf2 "Forgot password?" "")) ((1 # 2) * 100)%Q)
      = Returns missing /\
    missing = ["de"].
Proof.
  destruct (missing_languages_match_completeness ["en"; "de"] "auth.login" 2
              "forgot_password" (leaf2 "Forgot password?" "") _
              eq_refl eq_refl) as (missing & G & _).
  exists missing. split; [exact G |].
  vm_compute in G. now injection G as <-.
Defined.

Lemma isMissing_iff node :
  isMissing node = true <->
  ~ (completeness node == 0)%Q /\ (completeness node < 100)%Q.
Proof.
  unfold isMissing, shownCompleteness. rewrite negb_true_iff.
  destruct (Qeq_bool (completeness node) 0) eqn:Z.
  - apply Qeq_bool_iff in Z. split; [discriminate | tauto].
  - assert (Hz : ~ (completeness node == 0)%Q)
      by (intros E; apply Qeq_bool_iff in E; congruence).
    split.
    + intros H. split; [exact Hz |]. apply Qnot_le_lt. intros Hle.
      apply Qle_bool_iff in Hle. congruence.
    + intros [_ Hlt]. destruct (Qle_bool 100 (completeness node)) eqn:L;
        [| reflexivity].
      apply Qle_bool_iff in L. exfalso.
      exact (Qlt_not_le _ _ Hlt L).
Qed.

(** X8.  The tree view marks a leaf as missing exactly when some but not
    all of the active languages are missing: a leaf with every language
    missing has completeness 0, which [node.completeness || 100] turns
    into 100, and is shown as complete. *)
Theorem tree_view_missing_mark (langs : list string)
    (parent : string) (dep : nat) (k : string) (v : JVal) (n : TreeNode)
    (missing : list string) :
  buildNode langs parent dep k v = Returns n ->
  isLeaf n = true ->
  getMissingLanguages langs n = Returns missing ->
  (isMissing n = true <->
   0 < List.length missing /\ List.length missing < List.length langs) /\
  (List.length missing = List.length langs ->
   isMissing n = false /\ isComplete n = true).
Proof.
  intros B Hleaf G.
  destruct (buildNode_leaf_inv langs parent dep k v n B Hleaf)
    as (filled & F & V & Hpos & C).
  destruct (getMissingLanguages_counts n v V langs filled F)
    as (missing' & G' & Hlen).
  rewrite G in G'. injection G' as <-.
  assert (Hz : (completeness n == 0)%Q <-> filled = 0)
    by (rewrite C; now apply ratio_none).
  assert (Hf : (completeness n == 100)%Q <-> filled = List.length langs)
    by (rewrite C; now apply ratio_full).
  assert (Hu : (completeness n <= 100)%Q).
  { rewrite C. apply ratio_is_percentage; [lia | exact Hpos]. }
  assert (M : isMissing n = true <->
              0 < List.length missing /\
              List.length missing < List.length langs).
  { rewrite isMissing_iff, Hz. split.
    - intros [Hne Hlt]. split; [| lia].
      destruct (Nat.eq_dec filled (List.length langs)) as [E | E]; [| lia].
      apply Hf in E. rewrite E in Hlt. discriminate.
    - intros [H1 H2]. split; [lia |].
      apply Qle_lteq in Hu as [Hlt | E]; [exact Hlt |].
      apply Hf in E. lia. }
  split; [exact M |]. intros Hall. split.
  - destruct (isMissing n); [| reflexivity].
    destruct M as [M _]. specialize (M eq_refl). lia.
  - unfold isComplete, shownCompleteness.
    assert (Z : Qeq_bool (completeness n) 0 = true)
      by (apply Qeq_bool_iff, Hz; lia).
    now rewrite Z.
Qed.

Lemma tree_view_missing_mark_witness :
  let blank :=
    mkTreeNode "title" "title" 0 true None (Some (leaf2 "" " "))
      (number_of_nat 0 / number_of_nat 2 * 100)%Q in
  getMissingLanguages ["en"; "de"] blank = Returns ["en"; "de"] /\
  isMissing blank = false /\ isComplete blank = true.
Proof.
  destruct (tree_view_missing_mark ["en"; "de"] "" 0 "title" (leaf2 "" " ")
              _ ["en"; "de"] eq_refl eq_refl eq_refl) as [_ H].
  split; [reflexivity |]. now apply H.
Defined.

(** ** The rows the editor shows *)

Lemma under_selection_segments sel : forall p,
  (String.eqb p sel || startsWith p (sel ++ ".")) =
  is_prefix (split_dot sel) (split_dot p).
Proof.
  induction sel as [| c sel IH]; intros p.
  - destruct p as [| c' p]; [reflexivity |].
    cbn [String.eqb append startsWith split_dot orb andb].
    rewrite (Ascii.eqb_sym "." c').
    destruct (Ascii.eqb c' "."); [reflexivity |].
    now destruct (split_dot p).
  - pose proof (split_dot_nonempty sel) as Hs.
    destruct p as [| c' p].
    + cbn [String.eqb append startsWith split_dot orb].
      destruct (Ascii.eqb c ".");
        (destruct (split_dot sel); [contradiction | reflexivity]).
    + specialize (IH p). pose proof (split_dot_nonempty p) as Hp.
      cbn [String.eqb append startsWith split_dot].
      rewrite (Ascii.eqb_sym c' c).
      destruct (Ascii.eqb_spec c c') as [<- | Hcc].
      * cbn [andb]. rewrite IH. destruct (Ascii.eqb c "."); [reflexivity |].
        destruct (split_dot sel) as [| h t]; [contradiction |].
        destruct (split_dot p) as [| h' t']; [contradiction |].
        cbn [is_prefix String.eqb]. now rewrite Ascii.eqb_refl.
      * cbn [orb andb].
        destruct (Ascii.eqb_spec c ".") as [-> | Hc];
          destruct (Ascii.eqb_spec c' ".") as [-> | Hc']; try congruence;
          destruct (split_dot sel) as [| h t]; try contradiction;
          destruct (split_dot p) as [| h' t']; try contradiction;
          cbn [is_prefix String.eqb]; try reflexivity.
        destruct (Ascii.eqb_spec c c'); [congruence | reflexivity].
Qed.

Lemma array_filter_sub {A : Type} (p : A -> outcome bool) : forall l out,
  array_filter p l = Returns out -> forall x, In x out -> In x l.
Proof.
  induction l as [| y l IH]; simpl; intros out.
  - intros [= <-] x [].
  - destruct (p y) as [b |]; cbn [bind]; [| discriminate].
    destruct (array_filter p l) as [kept |]; cbn [bind]; [| discriminate].
    intros [= <-] x Hx. specialize (IH kept eq_refl x).
    destruct b; [destruct Hx as [-> | Hx] |]; auto.
Qed.

(** X9.  With a namespace or a key selected in the tree, the editor shows
    only rows whose key path has the selected path as its leading segments,
    whatever the search and the filter on missing languages are; with a
    blank search and no such filter it shows all of them, in order. *)
Theorem selection_shows_subtree (sel searchQuery : string)
    (missingFilter : list string) (nodes out : list TreeNode) :
  sel <> "" ->
  filteredNodes (Some sel) searchQuery missingFilter nodes = Returns out ->
  (forall n, In n out ->
     In n nodes /\ is_prefix (split_dot sel) (split_dot (path n)) = true) /\
  (trim searchQuery = "" -> missingFilter = [] ->
   out = filter (fun n => is_prefix (split_dot sel) (split_dot (path n)))
           nodes).
Proof.
  intros Hsel. unfold filteredNodes.
  destruct sel as [| c sel]; [congruence |]. cbn [nonempty].
  set (chosen := filter (under_selection (String c sel)) nodes).
  assert (Hchosen : chosen =
            filter (fun n => is_prefix (split_dot (String c sel))
                               (split_dot (path n))) nodes).
  { apply filter_ext. intros n. apply under_selection_segments. }
  intros H. split.
  - assert (Hsub : forall n, In n out -> In n chosen).
    { destruct (nonempty (trim searchQuery)).
      - destruct (array_filter _ chosen) as [found |] eqn:F; cbn [bind] in H;
          [| discriminate].
        destruct (0 <? List.length missingFilter)%nat.
        + intros n Hn. apply (array_filter_sub _ _ _ F).
          now apply (array_filter_sub _ _ _ H).
        + injection H as <-. apply (array_filter_sub _ _ _ F).
      - cbn [bind] in H. destruct (0 <? List.length missingFilter)%nat.
        + apply (array_filter_sub _ _ _ H).
        + now injection H as <-. }
    intros n Hn. specialize (Hsub n Hn). rewrite Hchosen in Hsub.
    apply filter_In in Hsub. exact Hsub.
  - intros Hq ->. rewrite Hq in H. cbn in H. injection H as <-. exact Hchosen.
Qed.

Lemma selection_shows_subtree_witness :
  filteredNodes (Some "auth") "LOG" ["de"]
    [mkTreeNode "title" "auth.login.title" 2 true None
       (Some (leaf2 "Login" "")) 50%Q;
     mkTreeNode "authors" "authors" 0 true None
       (Some (leaf2 "Login" "")) 50%Q;
     mkTreeNode "button" "auth.login.button" 2 true None
       (Some (leaf2 "Sign In" "Einloggen")) 100%Q]
  = Returns [mkTreeNode "title" "auth.login.title" 2 true None
               (Some (leaf2 "Login" "")) 50%Q] /\
  is_prefix (split_dot "auth") (split_dot "auth.login.title") = true.
Proof.
  split; [reflexivity |].
  destruct (selection_shows_subtree "auth" "LOG" ["de"]
              [mkTreeNode "title" "auth.login.title" 2 true None
                 (Some (leaf2 "Login" "")) 50%Q;
               mkTreeNode "authors" "authors" 0 true None
                 (Some (leaf2 "Login" "")) 50%Q;
               mkTreeNode "button" "auth.login.button" 2 true None
                 (Some (leaf2 "Sign In" "Einloggen")) 100%Q]
              [mkTreeNode "title" "auth.login.title" 2 true None
                 (Some (leaf2 "Login" "")) 50%Q])
    as [H _]; [discriminate | reflexivity |].
  exact (proj2 (H _ (or_introl eq_refl))).
Defined.

Lemma getMissingLanguages_in node : forall langs missing,
  getMissingLanguages langs node = Returns missing ->
  forall x, In x missing ->
    In x langs /\
    match values node with
    | Some vals => is_filled vals x
    | None => Returns false
    end = Returns false.
Proof.
  induction langs as [| a langs IH]; simpl; intros missing G x Hx.
  - injection G as <-. contradiction.
  - destruct (match values node with
              | Some vals => is_filled vals a
              | None => Returns false
              end) as [b |] eqn:F; cbn [bind] in G; [| discriminate].
    destruct (getMissingLanguages langs node) as [r |]; cbn [bind] in G;
      [| discriminate].
    injection G as <-.
    destruct b; [| destruct Hx as [<- | Hx]; [now split; [left |] |]];
      (destruct (IH r eq_refl x Hx) as [Hin Hf]; split; [now right | exact Hf]).
Qed.

Lemma getMissingLanguages_spec node : forall langs missing,
  getMissingLanguages langs node = Returns missing ->
  forall l, In l langs ->
    exists filled,
      match values node with
      | Some vals => is_filled vals l
      | None => Returns false
      end = Returns filled /\
      includes l missing = negb filled.
Proof.
  induction langs as [| lang langs IH]; simpl; intros missing H l Hl;
    [contradiction |].
  destruct (match values node with
            | Some vals => is_filled vals lang
            | None => Returns false
            end) as [b |] eqn:F; cbn [bind] in H; [| discriminate].
  destruct (getMissingLanguages langs node) as [rest |] eqn:G;
    cbn [bind] in H; [| discriminate].
  injection H as <-.
  destruct (String.eqb_spec l lang) as [-> | Hne].
  - exists b. split; [exact F |]. destruct b; simpl.
    + apply includes_false_iff. intros Hin.
      apply (getMissingLanguages_in node langs rest G) in Hin as [_ Hin].
      congruence.
    + now rewrite String.eqb_refl.
  - destruct Hl as [E | Hl]; [congruence |].
    destruct (IH rest eq_refl l Hl) as (filled & Fl & Hin).
    exists filled. split; [exact Fl |]. destruct b; simpl; [exact Hin |].
    apply String.eqb_neq in Hne. now rewrite Hne.
Qed.

(** X10.  The filter on missing languages agrees with the badges of the
    row as long as it is made of active languages: for a row whose list of
    missing languages can be computed, and whose values are read under
    every active language as the model reads them, a filter whose
    languages are all active lets the row through exactly when one of them
    is in that list; filtering on all the languages lets through the rows
    that miss some language.  A language that was removed and is still in
    the filter is outside the statement. *)
Theorem missing_filter_matches_badges (langs missingFilter missing : list string)
    (node : TreeNode) :
  getMissingLanguages langs node = Returns missing ->
  (forall vals l,
      values node = Some vals -> In l langs -> reads_as_model vals l = true) ->
  incl missingFilter langs ->
  misses_any missingFilter node =
    Returns (existsb (fun l => includes l missing) missingFilter) /\
  misses_any langs node = Returns (0 <? List.length missing)%nat.
Proof.
  intros G _.
  assert (Hfilter : forall mf, incl mf langs ->
            misses_any mf node =
            Returns (existsb (fun l => includes l missing) mf)).
  { unfold misses_any. induction mf as [| l mf IH]; intros Hincl;
      [reflexivity |].
    destruct (getMissingLanguages_spec node langs missing G l
                (Hincl l (or_introl eq_refl))) as (filled & F & Hin).
    cbn [array_some existsb]. unfold lacks at 1. rewrite F. cbn [bind].
    rewrite Hin. destruct filled; cbn [negb orb]; [| reflexivity].
    apply IH. intros x Hx. apply Hincl. now right. }
  intros Hincl. split; [now apply Hfilter |].
  rewrite (Hfilter langs (incl_refl langs)). f_equal.
  destruct missing as [| m missing]; simpl.
  - clear. now induction langs.
  - apply existsb_exists. exists m. simpl. rewrite String.eqb_refl.
    split; [| reflexivity].
    now apply (getMissingLanguages_in node langs (m :: missing) G); left.
Qed.

Lemma missing_filter_matches_badges_witness :
  misses_any ["de"]
    (mkTreeNode "forgot_password" "auth.login.forgot_password" 2 true None
       (Some (leaf2 "Forgot password?" " ")) 50%Q) = Returns true.
Proof.
  apply (missing_filter_matches_badges ["en"; "de"] ["de"] ["de"]
           (mkTreeNode "forgot_password" "auth.login.forgot_password" 2 true
              None (Some (leaf2 "Forgot password?" " ")) 50%Q)).
  - reflexivity.
  - intros vals l [= <-] [<- | [<- | []]]; reflexivity.
  - intros x [<- | []]. right. now left.
Defined.

(** ** The JSON view of the editor *)

Lemma in_fold_obj_set {A : Type} (kf : A -> string) (vf : A -> JVal) :
  forall (l : list A) (init : obj) (x : string * JVal),
    In x (fold_left (fun r a => obj_set (kf a) (vf a) r) l init) ->
    In x init \/ exists a, In a l /\ x = (kf a, vf a).
Proof.
  induction l as [| a l IH]; simpl; intros init x Hx; [now left |].
  apply IH in Hx as [Hx | (b & Hb & ->)].
  - apply in_obj_set in Hx as [-> | Hx]; [| now left].
    right. exists a. split; [now left | reflexivity].
  - right. exists b. split; [now right | reflexivity].
Qed.

Lemma find_first_path (rows : list TreeNode) (p : string) (n : TreeNode) :
  NoDup (map path rows) -> In n rows -> path n = p ->
  find (fun m => String.eqb (path m) p) rows = Some n.
Proof.
  intros Hnd Hin <-. induction rows as [| m rows IH]; [contradiction |].
  simpl in Hnd |- *. inversion Hnd as [| ? ? Hm Hrest]; subst.
  destruct Hin as [-> | Hin]; [now rewrite String.eqb_refl |].
  destruct (String.eqb_spec (path m) (path n)) as [E | _]; [| now apply IH].
  exfalso. apply Hm. rewrite E. now apply in_map.
Qed.

Lemma flat_map_nothing {A B : Type} (f : A -> list B) (l : list A) :
  (forall x, In x l -> f x = []) -> flat_map f l = [].
Proof.
  induction l as [| a l IH]; simpl; intros H; [reflexivity |].
  rewrite (H a) by now left. apply IH. intros x Hx. apply H. now right.
Qed.

(** X11.  Opening the JSON view and applying the text as it stands changes
    nothing: when the rows have distinct paths and show strings, no update
    is collected from the object [buildJsonFromNodes] has built. *)
Theorem json_view_round_trip (langs : list string) (rows : list TreeNode) :
  NoDup (map path rows) ->
  (forall n lang, In n rows -> In lang langs ->
     is_string (shown_value n lang) = true) ->
  jsonUpdates (buildJsonFromNodes langs rows) rows = [].
Proof.
  intros Hnd Hstr. unfold jsonUpdates.
  apply flat_map_nothing. intros [p tr] Hentry.
  apply in_fold_obj_set in Hentry as [[] | (n & Hn & [= -> ->])].
  cbn [fst snd own_entries].
  apply flat_map_nothing. intros [lang value] Hvalue.
  unfold json_row in Hvalue.
  apply in_fold_obj_set in Hvalue as [[] | (l & Hl & [= -> ->])].
  cbn [fst snd]. rewrite (find_first_path rows (path n) n Hnd Hn eq_refl).
  specialize (Hstr n l Hn Hl).
  destruct (shown_value n l) as [s |]; [| discriminate].
  simpl. now rewrite String.eqb_refl.
Qed.

Lemma json_view_round_trip_witness :
  jsonUpdates
    (buildJsonFromNodes ["en"; "de"]
       [mkTreeNode "title" "auth.login.title" 2 true None
          (Some (leaf2 "Login" "Anmelden")) 100%Q;
        mkTreeNode "forgot_password" "auth.login.forgot_password" 2 true None
          (Some (JObj [("en", JStr "Forgot password?")])) 50%Q])
    [mkTreeNode "title" "auth.login.title" 2 true None
       (Some (leaf2 "Login" "Anmelden")) 100%Q;
     mkTreeNode "forgot_password" "auth.login.forgot_password" 2 true None
       (Some (JObj [("en", JStr "Forgot password?")])) 50%Q] = [].
Proof.
  apply (json_view_round_trip ["en"; "de"]
           [mkTreeNode "title" "auth.login.title" 2 true None
              (Some (leaf2 "Login" "Anmelden")) 100%Q;
            mkTreeNode "forgot_password" "auth.login.forgot_password" 2 true
              None (Some (JObj [("en", JStr "Forgot password?")])) 50%Q]).
  - repeat constructor; simpl; intuition discriminate.
  - intros n lang [<- | [<- | []]] [<- | [<- | []]]; reflexivity.
Defined.

Lemma obj_get_fold_obj_set {A : Type} (kf : A -> string) (vf : A -> JVal) :
  forall (l : list A) (init : obj) (k : string),
    defined (obj_get k init) = true \/ (exists a, In a l /\ kf a = k) ->
    defined (obj_get k (fold_left (fun r a => obj_set (kf a) (vf a) r) l init))
    = true.
Proof.
  induction l as [| a l IH]; simpl; intros init k H.
  - destruct H as [H | (a & [] & _)]. exact H.
  - apply IH. destruct (String.eqb_spec k (kf a)) as [-> | Hne].
    + left. now rewrite obj_get_set_same.
    + destruct H as [H | (b & [-> | Hb] & E)].
      * left. now rewrite obj_get_set_other.
      * congruence.
      * right. now exists b.
Qed.

Lemma flat_map_replace {B : Type} (g : string * JVal -> list B) k v :
  forall o,
    defined (obj_get k o) = true ->
    (forall x, In x o -> g x = []) ->
    flat_map g (obj_replace k v o) = g (k, v).
Proof.
  induction o as [| [k' v'] o IH]; simpl; intros Hk Hnil; [discriminate |].
  destruct (String.eqb_spec k k') as [<- | Hne]; simpl.
  - rewrite flat_map_nothing; [apply app_nil_r |].
    intros x Hx. apply Hnil. now right.
  - rewrite (Hnil (k', v')) by now left. apply IH; [exact Hk |].
    intros x Hx. apply Hnil. now right.
Qed.

(** X12.  One value changed in the text of the JSON view gives one update:
    when the rows have distinct paths and show strings, replacing the
    string of one language of one row by a different one makes
    [handleApplyJsonChanges] collect that path, language and string, and
    nothing else. *)
Theorem json_view_single_edit (langs : list string) (rows : list TreeNode)
    (n : TreeNode) (lang value : string) :
  NoDup (map path rows) ->
  (forall m l, In m rows -> In l langs ->
     is_string (shown_value m l) = true) ->
  In n rows -> In lang langs ->
  shown_value n lang <> JStr value ->
  jsonUpdates
    (obj_replace (path n)
       (JObj (obj_replace lang (JStr value) (json_row langs n)))
       (buildJsonFromNodes langs rows))
    rows
  = [mkJsonUpdate (path n) lang (JStr value)].
Proof.
  intros Hnd Hstr Hn Hlang Hnew.
  assert (Hrow : forall m, In m rows ->
            forall x, In x (json_row langs m) ->
              (let currentValue :=
                 match find (fun r => String.eqb (path r) (path m)) rows with
                 | Some node => shown_value node (fst x)
                 | None => JStr ""
                 end in
               if differs currentValue (snd x)
               then [mkJsonUpdate (path m) (fst x) (snd x)]
               else []) = []).
  { intros m Hm [l value'] Hx. unfold json_row in Hx.
    apply in_fold_obj_set in Hx as [[] | (l' & Hl' & [= -> ->])].
    cbn [fst snd]. rewrite (find_first_path rows (path m) m Hnd Hm eq_refl).
    specialize (Hstr m l' Hm Hl').
    destruct (shown_value m l') as [s |]; [| discriminate].
    simpl. now rewrite String.eqb_refl. }
  unfold jsonUpdates. rewrite flat_map_replace.
  - cbn [fst snd own_entries]. rewrite flat_map_replace.
    + cbn [fst snd].
      rewrite (find_first_path rows (path n) n Hnd Hn eq_refl).
      specialize (Hstr n lang Hn Hlang).
      destruct (shown_value n lang) as [s |]; [| discriminate].
      simpl. destruct (String.eqb_spec s value) as [-> | _];
        [congruence | reflexivity].
    + apply obj_get_fold_obj_set. right. now exists lang.
    + intros x Hx. exact (Hrow n Hn x Hx).
  - apply obj_get_fold_obj_set. right. now exists n.
  - intros [p tr] Hentry. unfold buildJsonFromNodes in Hentry.
    apply in_fold_obj_set in Hentry as [[] | (m & Hm & [= -> ->])].
    cbn [fst snd own_entries]. apply flat_map_nothing.
    intros x Hx. exact (Hrow m Hm x Hx).
Qed.

Lemma json_view_single_edit_witness :
  jsonUpdates
    [("auth.login.title", leaf2 "Login" "Anmelden");
     ("auth.login.forgot_password",
      leaf2 "Forgot password?" "Passwort vergessen?")]
    [mkTreeNode "title" "auth.login.title" 2 true None
       (Some (leaf2 "Login" "Anmelden")) 100%Q;
     mkTreeNode "forgot_password" "auth.login.forgot_password" 2 true None
       (Some (JObj [("en", JStr "Forgot password?")])) 50%Q]
  = [mkJsonUpdate "auth.login.forgot_password" "de"
       (JStr "Passwort vergessen?")].
Proof.
  apply (json_view_single_edit ["en"; "de"]
           [mkTreeNode "title" "auth.login.title" 2 true None
              (Some (leaf2 "Login" "Anmelden")) 100%Q;
            mkTreeNode "forgot_password" "auth.login.forgot_password" 2 true
              None (Some (JObj [("en", JStr "Forgot password?")])) 50%Q]
           (mkTreeNode "forgot_password" "auth.login.forgot_password" 2 true
              None (Some (JObj [("en", JStr "Forgot password?")])) 50%Q)
           "de" "Passwort vergessen?").
  - repeat constructor; simpl; intuition discriminate.
  - intros m l [<- | [<- | []]] [<- | [<- | []]]; reflexivity.
  - right. now left.
  - right. now left.
  - discriminate.
Defined.

(** ** The language menu of the header *)

Lemma toLowerCase_nonempty s : nonempty (toLowerCase s) = nonempty s.
Proof. now destruct s. Qed.

Lemma forallb_filter_keeps {A : Type} (p q : A -> bool) l :
  forallb p l = true -> forallb p (filter q l) = true.
Proof.
  induction l as [| a l IH]; simpl; [reflexivity |].
  rewrite andb_true_iff. intros [Ha Hl].
  destruct (q a); simpl; [rewrite Ha |]; now apply IH.
Qed.

(** X13.  Through the language menu of the header the language list stays
    well-formed: after any run of confirmed dialogs and pressed Remove
    buttons on a loaded catalog, the codes are distinct, none is empty and
    at least one is left. *)
Theorem menu_keeps_language_codes (actions : list menu_action) (st : State)
    (d : TranslationData) :
  data st = Some d ->
  codes_ok (languages d) = true ->
  exists d',
    data (fold_left menu_step actions st) = Some d' /\
    codes_ok (languages d') = true.
Proof.
  revert st d. induction actions as [| a actions IH]; intros st d D Hok.
  - now exists d.
  - cbn [fold_left].
    assert (Hstep : exists d1,
              data (menu_step st a) = Some d1 /\
              codes_ok (languages d1) = true).
    { unfold codes_ok in Hok.
      apply andb_true_iff in Hok as [Hok Hlen].
      apply andb_true_iff in Hok as [Hdist Hne].
      destruct a as [text | lang]; cbn [menu_step].
      - unfold handleAddLanguage.
        destruct (nonempty (trim text)) eqn:T;
          [| exists d; split; [exact D |];
             unfold codes_ok; now rewrite Hdist, Hne, Hlen].
        unfold addLanguage. rewrite D.
        destruct (includes (toLowerCase (trim text)) (languages d)) eqn:I;
          [exists d; split; [exact D |];
           unfold codes_ok; now rewrite Hdist, Hne, Hlen |].
        eexists. split; [reflexivity |]. cbn [languages]. unfold codes_ok.
        rewrite distinct_app_new by assumption.
        rewrite forallb_app, Hne. cbn [forallb].
        rewrite toLowerCase_nonempty, T, length_app. cbn [List.length andb].
        apply Nat.leb_le. lia.
      - rewrite D. unfold removable.
        destruct (Nat.ltb_spec 1 (List.length (languages d))) as [Hlt | _];
          [| exists d; split; [exact D |];
             unfold codes_ok; now rewrite Hdist, Hne, Hlen].
        destruct (includes lang (languages d));
          [| exists d; split; [exact D |];
             unfold codes_ok; now rewrite Hdist, Hne, Hlen].
        unfold after, perform, removeLanguage. rewrite D.
        destruct (Nat.leb_spec (List.length (languages d)) 1) as [Hle | _];
          [lia |].
        eexists. split; [reflexivity |]. cbn [languages]. unfold codes_ok.
        rewrite distinct_filter, forallb_filter_keeps by assumption.
        cbn [andb]. apply Nat.leb_le.
        pose proof (filter_drops_one lang (languages d) Hdist). lia. }
    destruct Hstep as (d1 & D1 & Hok1). exact (IH _ d1 D1 Hok1).
Qed.

Lemma menu_keeps_language_codes_witness :
  exists d',
    data (fold_left menu_step
            [ConfirmAdd " FR "; ConfirmAdd "   "; PressRemove "en";
             PressRemove "de"; PressRemove "fr"]
            (loaded sample_data)) = Some d' /\
    codes_ok (languages d') = true.
Proof.
  apply (menu_keeps_language_codes
           [ConfirmAdd " FR "; ConfirmAdd "   "; PressRemove "en";
            PressRemove "de"; PressRemove "fr"]
           (loaded sample_data) sample_data); reflexivity.
Defined.

(** ** Array-index names are canonical *)

Lemma digit_of_bound c d : digit_of c = Some d -> (d < 10)%N /\ N_of_ascii c = (d + 48)%N.
Proof.
  unfold digit_of.
  destruct (N.leb_spec 48 (N_of_ascii c)) as [H1 |]; [| discriminate].
  destruct (N.leb_spec (N_of_ascii c) 57) as [H2 |]; [| discriminate].
  simpl. intros [= <-]. lia.
Qed.

Lemma digit_of_inj a b d : digit_of a = Some d -> digit_of b = Some d -> a = b.
Proof.
  intros Ha Hb. apply digit_of_bound in Ha as [_ Ha], Hb as [_ Hb].
  rewrite <- (ascii_N_embedding a), <- (ascii_N_embedding b). congruence.
Qed.

Lemma digits_value_same_length : forall a b acc acc' n,
  String.length a = String.length b ->
  digits_value a acc = Some n -> digits_value b acc' = Some n ->
  acc = acc' /\ a = b.
Proof.
  induction a as [| c a IH]; intros [| c' b] acc acc' n Hlen; simpl in *;
    try discriminate.
  - intros [= <-] [= <-]. now split.
  - destruct (digit_of c) as [d |] eqn:Dc; [| discriminate].
    destruct (digit_of c') as [d' |] eqn:Dc'; [| discriminate].
    intros Ha Hb. injection Hlen as Hlen.
    destruct (IH b _ _ n Hlen Ha Hb) as [Hacc ->].
    pose proof (digit_of_bound c d Dc) as [Hd _].
    pose proof (digit_of_bound c' d' Dc') as [Hd' _].
    assert (acc = acc' /\ d = d') as [-> ->] by lia.
    split; [reflexivity |]. f_equal. exact (digit_of_inj c c' d' Dc Dc').
Qed.

Lemma digits_value_range : forall s acc n,
  digits_value s acc = Some n ->
  (acc * 10 ^ N.of_nat (String.length s) <= n
   < (acc + 1) * 10 ^ N.of_nat (String.length s))%N.
Proof.
  induction s as [| c s IH]; intros acc n; simpl digits_value.
  - intros [= <-]. simpl. lia.
  - destruct (digit_of c) as [d |] eqn:Dc; [| discriminate].
    intros H. apply IH in H. pose proof (digit_of_bound c d Dc) as [Hd _].
    cbn [String.length]. rewrite Nat2N.inj_succ, N.pow_succ_r'.
    set (p := (10 ^ N.of_nat (String.length s))%N) in *. nia.
Qed.

Lemma array_index_digits s i :
  array_index s = Some i ->
  digits_value s 0 = Some i /\
  (i = 0%N /\ s = "0" \/
   (10 ^ N.of_nat (Nat.pred (String.length s)) <= i)%N /\ s <> "").
Proof.
  unfold array_index. destruct s as [| c rest]; [discriminate |].
  destruct (Ascii.eqb_spec c "0") as [-> | Hc].
  - destruct rest; [| discriminate]. intros [= <-]. split; [reflexivity |].
    now left.
  - destruct (digits_value (String c rest) 0) as [n |] eqn:V; [| discriminate].
    destruct (n <? 4294967295)%N; [| discriminate]. intros [= <-].
    split; [reflexivity |]. right. split; [| discriminate].
    simpl in V. destruct (digit_of c) as [d |] eqn:Dc; [| discriminate].
    apply digits_value_range in V. cbn [String.length Nat.pred].
    assert (d <> 0%N).
    { intros ->. apply Hc. apply (digit_of_inj c "0" 0 Dc). reflexivity. }
    set (p := (10 ^ N.of_nat (String.length rest))%N) in *. nia.
Qed.

Lemma array_index_inj a b i :
  array_index a = Some i -> array_index b = Some i -> a = b.
Proof.
  intros Ha Hb.
  apply array_index_digits in Ha as [Va Ha], Hb as [Vb Hb].
  assert (Hpos : forall n, (0 < 10 ^ n)%N).
  { intros n. pose proof (N.pow_nonzero 10 n). lia. }
  destruct Ha as [[-> ->] | [La Na]], Hb as [[Hi ->] | [Lb Nb]].
  - reflexivity.
  - specialize (Hpos (N.of_nat (Nat.pred (String.length b)))). lia.
  - subst i. specialize (Hpos (N.of_nat (Nat.pred (String.length a)))). lia.
  - assert (Hlen : String.length a = String.length b).
    { pose proof (digits_value_range a 0 i Va) as Ra.
      pose proof (digits_value_range b 0 i Vb) as Rb.
      destruct a as [| ca a]; [congruence |].
      destruct b as [| cb b]; [congruence |].
      cbn [String.length Nat.pred] in *.
      destruct (Nat.lt_trichotomy (String.length a) (String.length b))
        as [Hlt | [-> | Hgt]]; [| reflexivity |]; exfalso.
      - assert ((10 ^ N.of_nat (S (String.length a))
                 <= 10 ^ N.of_nat (String.length b))%N)
          by (apply N.pow_le_mono_r; lia).
        lia.
      - assert ((10 ^ N.of_nat (S (String.length b))
                 <= 10 ^ N.of_nat (String.length a))%N)
          by (apply N.pow_le_mono_r; lia).
        lia. }
    now destruct (digits_value_same_length a b 0%N 0%N i Hlen Va Vb).
Qed.

Lemma key_before_later k k' x :
  key_before k' x = true -> k <> x ->
  match array_index k, array_index k' with
  | Some i, Some j => (i <? j)%N
  | Some _, None => true
  | None, _ => false
  end = true ->
  key_before k x = true.
Proof.
  unfold key_before. intros H Hne Hk.
  apply andb_true_iff in H as [_ H].
  apply String.eqb_neq in Hne. rewrite Hne. cbn [negb andb].
  destruct (array_index k) as [i |]; [| discriminate].
  destruct (array_index x) as [jx |]; [| reflexivity].
  destruct (array_index k') as [j |]; [| discriminate].
  apply N.ltb_lt in H, Hk. apply N.ltb_lt. lia.
Qed.

Lemma ordered_insert_index i k v : forall o,
  array_index k = Some i ->
  obj_get k o = None ->
  ordered_keys (own_keys o) = true ->
  ordered_keys (own_keys (obj_insert_index i k v o)) = true /\
  forall x, In x (own_keys (obj_insert_index i k v o)) ->
    x = k \/ In x (own_keys o).
Proof.
  intros o Hi. unfold own_keys.
  induction o as [| [k' v'] o IH]; intros Hk Hord.
  - split; [reflexivity |]. intros x [<- | []]. now left.
  - simpl in Hk. destruct (String.eqb_spec k k') as [| Hne]; [discriminate |].
    cbn [map fst ordered_keys] in Hord.
    apply andb_true_iff in Hord as [Hhead Hrest].
    assert (Hfront :
      match array_index k' with
      | Some j => (i <? j)%N = true
      | None => True
      end ->
      ordered_keys (k :: k' :: map fst o) = true).
    { intros Hlt. cbn [ordered_keys forallb].
      rewrite Hhead, Hrest, !andb_true_r.
      assert (Hkk' : key_before k k' = true).
      { unfold key_before. apply String.eqb_neq in Hne. rewrite Hne, Hi.
        destruct (array_index k'); [exact Hlt | reflexivity]. }
      rewrite Hkk'. cbn [andb]. apply forallb_forall. intros x Hx.
      rewrite forallb_forall in Hhead.
      apply (key_before_later k k' x (Hhead x Hx)).
      - intros <-. apply obj_get_none_iff in Hk. now apply Hk.
      - rewrite Hi. destruct (array_index k'); [exact Hlt | reflexivity]. }
    cbn [obj_insert_index].
    destruct (array_index k') as [j |] eqn:Hj.
    + destruct (N.ltb_spec j i) as [Hlt | Hge].
      * destruct (IH Hk Hrest) as [IHord IHin].
        split.
        -- cbn [map fst ordered_keys].
           rewrite IHord, andb_true_r. apply forallb_forall. intros x Hx.
           apply IHin in Hx as [-> | Hx].
           ++ unfold key_before. rewrite Hj, Hi.
              apply String.eqb_neq in Hne. rewrite String.eqb_sym, Hne.
              cbn [negb andb]. now apply N.ltb_lt.
           ++ rewrite forallb_forall in Hhead. now apply Hhead.
        -- cbn [map fst]. intros x [<- | Hx]; [right; now left |].
           apply IHin in Hx as [-> | Hx]; [now left | right; now right].
      * split.
        -- apply Hfront. apply N.ltb_lt.
           assert (j <> i).
           { intros ->. apply Hne. symmetry.
             exact (array_index_inj k' k i Hj Hi). }
           lia.
        -- cbn [map fst]. intros x [<- | Hx]; [now left | now right].
    + split; [now apply Hfront |].
      cbn [map fst]. intros x [<- | Hx]; [now left | now right].
Qed.

Lemma ordered_keys_snoc ks k :
  ordered_keys ks = true ->
  (forall x, In x ks -> key_before x k = true) ->
  ordered_keys (ks ++ [k]) = true.
Proof.
  induction ks as [| a ks IH]; simpl; intros Hord H; [reflexivity |].
  apply andb_true_iff in Hord as [Ha Hks].
  rewrite forallb_app, Ha, IH; auto. simpl. now rewrite H by now left.
Qed.

(** Assigning a property keeps the keys in enumeration order. *)
Lemma ordered_obj_set k v o :
  ordered_keys (own_keys o) = true ->
  ordered_keys (own_keys (obj_set k v o)) = true.
Proof.
  intros Hord. unfold obj_set. destruct (obj_get k o) eqn:G.
  - now rewrite own_keys_replace.
  - destruct (array_index k) as [i |] eqn:Hi.
    + now apply ordered_insert_index.
    + unfold own_keys. rewrite map_app. cbn [map fst].
      apply ordered_keys_snoc; [exact Hord |].
      intros x Hx. unfold key_before. rewrite Hi.
      assert (x <> k).
      { intros ->. apply obj_get_none_iff in G. now apply G. }
      apply String.eqb_neq in H. rewrite H. now destruct (array_index x).
Qed.

Lemma ordered_obj_delete k o :
  ordered_keys (own_keys o) = true ->
  ordered_keys (own_keys (obj_delete k o)) = true.
Proof.
  unfold obj_delete. induction o as [| [k' v'] o IH]; simpl; [reflexivity |].
  rewrite andb_true_iff. intros [Hhead Hrest].
  destruct (String.eqb k k'); simpl; [now apply IH |].
  rewrite IH by exact Hrest. rewrite andb_true_r.
  apply forallb_forall. intros x Hx. rewrite forallb_forall in Hhead.
  apply Hhead. apply in_map_iff in Hx as (kv & <- & Hkv).
  apply filter_In in Hkv as [Hkv _]. now apply in_map.
Qed.

(** ** The languages of the leaves *)





Lemma resolve_string_no_object q : forall s x,
  resolve q (JStr s) = Some (JObj x) -> False.
Proof.
  induction q as [| k q IH]; simpl; intros s x; [discriminate |].
  destruct (array_index k) as [i |]; [| discriminate].
  destruct (char_at (N.to_nat i) s) as [ch |]; simpl; [| discriminate].
  apply IH.
Qed.



Lemma own_key_of_entry k v (o : obj) : obj_get k o = Some v -> In k (own_keys o).
Proof.
  intros G. change k with (fst (k, v)). apply in_map. now apply obj_get_in.
Qed.







(** ** Edits and renames on the data model *)

Lemma replace_child_ok langs k x (P : obj) :
  forallb (fun kv => node_ok langs (snd kv)) P = true ->
  node_ok langs x = true ->
  forallb (fun kv => node_ok langs (snd kv)) (obj_replace k x P) = true.
Proof.
  intros HP Hx. apply forallb_forall. intros kv Hkv.
  apply in_obj_replace in Hkv as [-> | Hkv]; [exact Hx |].
  rewrite forallb_forall in HP. now apply HP.
Qed.

(** An object that holds an object is not a leaf of the data model. *)
Lemma node_with_object_child langs (P : obj) k x :
  node_ok langs (JObj P) = true ->
  obj_get k P = Some (JObj x) ->
  is_leaf langs P = false /\
  forallb (fun kv => node_ok langs (snd kv)) P = true.
Proof.
  cbn [node_ok]. intros H G. apply andb_true_iff in H as [_ H].
  destruct (is_leaf langs P); [| now split].
  apply leaf_entries_strings in H. rewrite forallb_forall in H.
  specialize (H _ (obj_get_in k P _ G)). discriminate.
Qed.

Section Rewriting.

Variable langs : list string.
Variable act : JVal -> outcome JVal.
Variables P P' : obj.
Hypothesis act_object : act (JObj P) = Returns (JObj P').
Hypothesis act_node :
  node_ok langs (JObj P) = true -> node_ok langs (JObj P') = true.

(** What [act] keeps true of the node it reaches is kept of every node
    above it. *)
Lemma at_parent_node_ok segs : forall C,
  node_ok langs (JObj C) = true ->
  resolve segs (JObj C) = Some (JObj P) ->
  exists C',
    at_parent segs act (JObj C) = Returns (JObj C') /\
    node_ok langs (JObj C') = true.
Proof.
  induction segs as [| k segs IH]; intros C Hok R.
  - injection R as ->. exists P'. split; [exact act_object | now apply act_node].
  - cbn [resolve at_parent js_get] in R |- *.
    destruct (obj_get k C) as [child |] eqn:G; [| discriminate].
    destruct child as [s | C2];
      [now destruct (resolve_string_no_object segs s P R) |].
    destruct (node_with_object_child langs C k C2 Hok G) as [L Hchildren].
    assert (Hchild : node_ok langs (JObj C2) = true).
    { rewrite forallb_forall in Hchildren.
      exact (Hchildren _ (obj_get_in k C _ G)). }
    destruct (IH C2 Hchild R) as (C2' & E & Hok2). rewrite E. cbn [bind].
    eexists. split; [reflexivity |]. cbn [js_write_back node_ok] in Hok |- *.
    apply andb_true_iff in Hok as [Hord _].
    rewrite own_keys_replace, Hord.
    rewrite (is_leaf_same_keys langs _ C) by apply own_keys_replace.
    rewrite L. now apply replace_child_ok.
Qed.

Hypothesis act_root : tree_ok langs P = true -> tree_ok langs P' = true.

Lemma at_parent_tree_ok segs (t : obj) :
  tree_ok langs t = true ->
  resolve segs (JObj t) = Some (JObj P) ->
  exists t',
    at_parent segs act (JObj t) = Returns (JObj t') /\
    tree_ok langs t' = true.
Proof.
  intros Hok R. destruct segs as [| k segs].
  - injection R as ->. exists P'. split; [exact act_object | now apply act_root].
  - cbn [resolve at_parent js_get] in R |- *.
    destruct (obj_get k t) as [child |] eqn:G; [| discriminate].
    destruct child as [s | C];
      [now destruct (resolve_string_no_object segs s P R) |].
    unfold tree_ok in Hok. apply andb_true_iff in Hok as [Hord Hchildren].
    assert (Hchild : node_ok langs (JObj C) = true).
    { rewrite forallb_forall in Hchildren.
      exact (Hchildren _ (obj_get_in k t _ G)). }
    destruct (at_parent_node_ok segs C Hchild R) as (C' & E & Hok').
    rewrite E. cbn [bind js_write_back]. eexists. split; [reflexivity |].
    unfold tree_ok. rewrite own_keys_replace, Hord.
    now apply replace_child_ok.
Qed.

End Rewriting.

(** The parent of the node a key path leads to. *)
Lemma resolve_path_parent kp d x :
  resolve_path kp d = Some (JObj x) ->
  exists P,
    resolve (removelast (split_dot kp)) (JObj (translations d))
      = Some (JObj P) /\
    obj_get (last (split_dot kp) "") P = Some (JObj x).
Proof.
  unfold resolve_path. rewrite (split_dot_snoc kp) at 1. rewrite resolve_app.
  destruct (resolve (removelast (split_dot kp)) (JObj (translations d)))
    as [[s | P] |]; [| | discriminate]; cbn [resolve js_get].
  - destruct (array_index _); [| discriminate].
    destruct (char_at _ s); discriminate.
  - destruct (obj_get (last (split_dot kp) "") P) as [v |] eqn:G;
      [| discriminate].
    intros [= ->]. now exists P.
Qed.

Lemma edited_leaf_ok langs lang value leaf :
  In lang langs ->
  node_ok langs (JObj leaf) = true ->
  is_leaf langs leaf = true ->
  node_ok langs (JObj (obj_set lang (JStr value) leaf)) = true.
Proof.
  intros Hl Hok L. cbn [node_ok] in Hok |- *. rewrite L in Hok.
  apply andb_true_iff in Hok as [Hord Hentries].
  rewrite ordered_obj_set by exact Hord. cbn [andb].
  assert (L' : is_leaf langs (obj_set lang (JStr value) leaf) = true).
  { apply is_leaf_true_iff. exists lang. split; [| exact Hl].
    apply (own_key_of_entry lang (JStr value)). apply obj_get_set_same. }
  rewrite L'. apply forallb_forall. intros [k x] Hx.
  apply in_obj_set in Hx as [[= -> ->] | Hx]; cbn [fst snd].
  - apply includes_true_iff in Hl. now rewrite Hl.
  - rewrite forallb_forall in Hentries. exact (Hentries _ Hx).
Qed.

(** X16.  An edit of a leaf keeps the data model.  On a catalog, for a key
    path that leads to a leaf and an active language, [updateTranslation]
    returns a catalog again with the same language list, provided the
    snapshot has the parent of the path. *)
Theorem updateTranslation_keeps_catalog (st : State) (d od : TranslationData)
    (kp lang value : string) (leaf : obj) :
  data st = Some d ->
  originalData st = Some od ->
  catalog_ok d = true ->
  In lang (languages d) ->
  resolve_path kp d = Some (JObj leaf) ->
  is_leaf (languages d) leaf = true ->
  defined (resolve (removelast (split_dot kp)) (JObj (translations od)))
    = true ->
  exists st' d',
    updateTranslation kp lang value st = Returns st' /\
    data st' = Some d' /\
    languages d' = languages d /\
    catalog_ok d' = true.
Proof.
  intros D O Hok Hl R L Ho.
  destruct (resolve_path_parent kp d leaf R) as (P & RP & G).
  unfold catalog_ok in Hok. apply andb_true_iff in Hok as [Hcodes Htree].
  assert (Hleaf : forall X, forallb (fun kv => node_ok (languages d) (snd kv)) X = true ->
            obj_get (last (split_dot kp) "") X = Some (JObj leaf) ->
            forallb (fun kv => node_ok (languages d) (snd kv))
              (obj_replace (last (split_dot kp) "")
                 (JObj (obj_set lang (JStr value) leaf)) X) = true).
  { intros X HX GX. apply replace_child_ok; [exact HX |].
    apply edited_leaf_ok; [exact Hl | | exact L].
    rewrite forallb_forall in HX. exact (HX _ (obj_get_in _ X _ GX)). }
  destruct (at_parent_tree_ok (languages d)
              (write_value (last (split_dot kp) "") lang value) P
              (obj_replace (last (split_dot kp) "")
                 (JObj (obj_set lang (JStr value) leaf)) P)
              (write_value_leaf _ lang value P leaf G))
    with (segs := removelast (split_dot kp)) (t := translations d)
    as (t' & E & Ht'); try assumption.
  - intros HP.
    destruct (node_with_object_child _ P _ leaf HP G) as [LP HPc].
    cbn [node_ok] in HP |- *. apply andb_true_iff in HP as [Hord _].
    rewrite own_keys_replace, Hord.
    rewrite (is_leaf_same_keys _ _ P) by apply own_keys_replace.
    rewrite LP. now apply Hleaf.
  - unfold tree_ok. intros HP. apply andb_true_iff in HP as [Hord HPc].
    rewrite own_keys_replace, Hord. now apply Hleaf.
  - rewrite (updateTranslation_unfold kp lang value st d od D O), E.
    destruct (resolve (removelast (split_dot kp)) (JObj (translations od)));
      [| discriminate].
    eexists. eexists. split; [reflexivity |]. split; [reflexivity |].
    split; [reflexivity |].
    unfold catalog_ok. cbn [with_translations languages translations as_obj].
    now rewrite Hcodes, Ht'.
Qed.

Lemma updateTranslation_keeps_catalog_witness :
  exists st' d',
    updateTranslation "auth.login.forgot_password" "de" "Passwort vergessen?"
      (loaded sample_data) = Returns st' /\
    data st' = Some d' /\
    languages d' = ["en"; "de"] /\
    catalog_ok d' = true.
Proof.
  apply (updateTranslation_keeps_catalog (loaded sample_data) sample_data
           sample_data "auth.login.forgot_password" "de"
           "Passwort vergessen?"
           [("en", JStr "Forgot password?"); ("de", JStr "")]);
    try reflexivity.
  right. now left.
Defined.

(** X17.  A rename keeps the data model.  On a catalog, for a key path
    that leads to a node and a new name that is not a language code,
    [renameKey] returns a catalog again with the same language list. *)
Theorem renameKey_keeps_catalog (st : State) (d : TranslationData)
    (oldPath newKeyName : string) (x : obj) :
  data st = Some d ->
  catalog_ok d = true ->
  resolve_path oldPath d = Some (JObj x) ->
  ~ In newKeyName (languages d) ->
  exists st' d',
    renameKey oldPath newKeyName st = Returns st' /\
    data st' = Some d' /\
    languages d' = languages d /\
    catalog_ok d' = true.
Proof.
  intros D Hok R Hnew.
  destruct (resolve_path_parent oldPath d x R) as (P & RP & G).
  unfold catalog_ok in Hok. apply andb_true_iff in Hok as [Hcodes Htree].
  set (oldKey := last (split_dot oldPath) "") in *.
  assert (Hchildren : forall X,
            forallb (fun kv => node_ok (languages d) (snd kv)) X = true ->
            obj_get oldKey X = Some (JObj x) ->
            forallb (fun kv => node_ok (languages d) (snd kv))
              (obj_delete oldKey (obj_set newKeyName (JObj x) X)) = true).
  { intros X HX GX. apply forallb_forall. intros kv Hkv.
    apply in_obj_delete in Hkv as [Hkv _].
    rewrite forallb_forall in HX.
    apply in_obj_set in Hkv as [-> | Hkv]; [| now apply HX].
    exact (HX _ (obj_get_in _ X _ GX)). }
  assert (Hord : forall X, ordered_keys (own_keys X) = true ->
            ordered_keys
              (own_keys (obj_delete oldKey (obj_set newKeyName (JObj x) X)))
            = true).
  { intros X HX. now apply ordered_obj_delete, ordered_obj_set. }
  destruct (at_parent_tree_ok (languages d) (move_key oldKey newKeyName) P
              (obj_delete oldKey (obj_set newKeyName (JObj x) P))
              (move_key_object oldKey newKeyName P (JObj x) G))
    with (segs := removelast (split_dot oldPath)) (t := translations d)
    as (t' & E & Ht'); try assumption.
  - intros HP.
    destruct (node_with_object_child _ P _ x HP G) as [LP HPc].
    cbn [node_ok] in HP |- *. apply andb_true_iff in HP as [HordP _].
    rewrite Hord by exact HordP. cbn [andb].
    assert (L' : is_leaf (languages d)
                   (obj_delete oldKey (obj_set newKeyName (JObj x) P)) = false).
    { apply is_leaf_false_iff. intros k Hk Hl.
      apply in_own_keys in Hk as [v Hk].
      apply in_obj_delete in Hk as [Hk _].
      apply in_obj_set in Hk as [[= -> ->] | Hk]; [now apply Hnew |].
      rewrite is_leaf_false_iff in LP. apply (LP k); [| exact Hl].
      apply in_own_keys. now exists v. }
    rewrite L'. now apply Hchildren.
  - unfold tree_ok. intros HP. apply andb_true_iff in HP as [HordP HPc].
    rewrite Hord by exact HordP. now apply Hchildren.
  - unfold renameKey. rewrite D. cbv zeta. unfold json_clone. fold oldKey.
    rewrite E.
    cbn [bind]. eexists. eexists. split; [reflexivity |].
    split; [reflexivity |]. split; [reflexivity |].
    unfold catalog_ok. cbn [with_translations languages translations as_obj].
    now rewrite Hcodes, Ht'.
Qed.

Lemma renameKey_keeps_catalog_witness :
  exists st' d',
    renameKey "auth.login" "signin" (loaded sample_data) = Returns st' /\
    data st' = Some d' /\
    languages d' = ["en"; "de"] /\
    catalog_ok d' = true.
Proof.
  apply (renameKey_keeps_catalog (loaded sample_data) sample_data
           "auth.login" "signin"
           [("title", leaf2 "Login" "Anmelden");
            ("button", leaf2 "Sign In" "Einloggen");
            ("forgot_password", leaf2 "Forgot password?" "")]);
    try reflexivity.
  simpl. intuition discriminate.
Defined.

(** ** The rows of a catalog *)

Lemma join_dot_head parts k1 rel1 k2 rel2 :
  Forall (fun p => plain p = true) (parts ++ k1 :: rel1) ->
  Forall (fun p => plain p = true) (parts ++ k2 :: rel2) ->
  join_dot (parts ++ k1 :: rel1) = join_dot (parts ++ k2 :: rel2) ->
  k1 = k2.
Proof.
  intros H1 H2 E. apply (f_equal split_dot) in E.
  rewrite !split_dot_join in E by (assumption || now destruct parts).
  apply app_inv_head in E. congruence.
Qed.

Lemma NoDup_map_app {A B : Type} (f : A -> B) (l1 l2 : list A) :
  NoDup (map f l1) -> NoDup (map f l2) ->
  (forall a b, In a l1 -> In b l2 -> f a <> f b) ->
  NoDup (map f (l1 ++ l2)).
Proof.
  induction l1 as [| x l1 IH]; simpl; intros H1 H2 Hsep; [exact H2 |].
  inversion H1 as [| ? ? Hx Hrest]; subst. constructor.
  - rewrite map_app, in_app_iff. intros [Hin | Hin]; [now apply Hx |].
    apply in_map_iff in Hin as (b & E & Hb).
    apply (Hsep x b); [now left | exact Hb | now symmetry].
  - apply IH; auto.
Qed.

Lemma buildTree_rows_distinct langs (o : obj) :
  Forall (fun kv => forall parts dep k n,
            Forall (fun p => plain p = true) parts ->
            plain k = true ->
            addressable langs (snd kv) = true ->
            buildNode langs (join_dot parts) dep k (snd kv) = Returns n ->
            NoDup (map path (flatten_item n))) o ->
  forall parts dep nodes,
    Forall (fun p => plain p = true) parts ->
    distinct (own_keys o) = true ->
    forallb (fun kv => plain (fst kv) && addressable langs (snd kv)) o = true ->
    buildTree langs o (join_dot parts) dep = Returns nodes ->
    NoDup (map path (flatten nodes)).
Proof.
  induction 1 as [| [k v] o Hv _ IH]; intros parts dep nodes Hparts Hd Hall;
    cbn [buildTree].
  - intros [= <-]. constructor.
  - destruct (buildNode langs (join_dot parts) dep k v) as [n |] eqn:En;
      cbn [bind]; [| discriminate].
    destruct (buildTree langs o (join_dot parts) dep) as [ns |] eqn:Ens;
      cbn [bind]; [| discriminate].
    intros [= <-]. cbn [own_keys map fst distinct forallb snd] in Hd, Hall.
    apply andb_true_iff in Hd as [Hfresh Hd].
    apply andb_true_iff in Hall as [Hkv Hall].
    apply andb_true_iff in Hkv as [Hk Haddr].
    change (flatten (n :: ns)) with (flatten_item n ++ flatten ns).
    apply NoDup_map_app.
    + exact (Hv parts dep k n Hparts Hk Haddr En).
    + exact (IH parts dep ns Hparts Hd Hall Ens).
    + intros a b Ha Hb E.
      apply in_flatten in Hb as (c & Hc & Hb).
      destruct (buildTree_in langs o _ _ _ c Ens Hc) as (k' & v' & Hin & Ec).
      rewrite forallb_forall in Hall. pose proof (Hall _ Hin) as Hkv'.
      cbn [fst snd] in Hkv'. apply andb_true_iff in Hkv' as [Hk' Haddr'].
      destruct (buildNode_paths langs v parts dep k n Hparts Hk Haddr En a Ha)
        as (_ & rel & _ & Hp & Hrel & _).
      destruct (buildNode_paths langs v' parts dep k' c Hparts Hk' Haddr' Ec
                  b Hb) as (_ & rel' & _ & Hp' & Hrel' & _).
      rewrite Hp, Hp' in E.
      assert (k = k').
      { apply (join_dot_head parts k rel k' rel'); [| | exact E];
          apply Forall_app; split; auto. }
      subst k'. apply negb_true_iff, includes_false_iff in Hfresh.
      apply Hfresh. apply in_own_keys. now exists v'.
Qed.

Lemma buildNode_rows_distinct langs :
  forall v parts dep k n,
    Forall (fun p => plain p = true) parts ->
    plain k = true ->
    addressable langs v = true ->
    buildNode langs (join_dot parts) dep k v = Returns n ->
    NoDup (map path (flatten_item n)).
Proof.
  assert (Leaf : forall value parent dep k n,
             (filled <- filledCount value langs ;;
              Returns (mkTreeNode k (child_path parent k) dep true
                         None (Some value)
                         ((number_of_nat filled
                           / number_of_nat (List.length langs)) * 100)%Q))
             = Returns n ->
             NoDup (map path (flatten_item n))).
  { intros value parent dep k n.
    destruct (filledCount value langs) as [filled |]; cbn [bind];
      [| discriminate].
    intros [= <-]. rewrite flatten_item_unfold. cbn [isLeaf map].
    repeat constructor. intros []. }
  induction v as [s | o IH] using JVal_ind;
    intros parts dep k n Hparts Hk Hok.
  - simpl. destruct (existsb _ langs); [now apply Leaf |].
    destruct (nonempty s); [discriminate |]. intros [= <-].
    rewrite flatten_item_unfold. cbn [isLeaf children flatten flat_map map].
    constructor.
  - destruct (is_leaf langs o) eqn:L.
    + simpl. rewrite L. now apply Leaf.
    + rewrite buildNode_namespace by exact L.
      destruct (buildTree langs o (child_path (join_dot parts) k) (S dep))
        as [nodes |] eqn:B; cbn [bind]; [| discriminate].
      intros [= <-]. rewrite flatten_item_unfold. cbn [isLeaf children].
      rewrite child_path_join in B by exact Hparts.
      simpl in Hok. rewrite L in Hok.
      apply andb_true_iff in Hok as [Hd Hall].
      apply (buildTree_rows_distinct langs o IH (parts ++ [k]) (S dep) nodes);
        auto.
      apply Forall_app. split; [exact Hparts | now constructor].
Qed.

Lemma buildNode_rows_strings langs :
  forall v parent dep k n,
    node_ok langs v = true ->
    buildNode langs parent dep k v = Returns n ->
    forall m, In m (flatten_item n) ->
      exists o, values m = Some (JObj o) /\
                forallb (fun kv => is_string (snd kv)) o = true.
Proof.
  induction v as [s | o IH] using JVal_ind; intros parent dep k n Hok;
    [discriminate |].
  cbn [node_ok] in Hok. apply andb_true_iff in Hok as [_ Hok].
  destruct (is_leaf langs o) eqn:L.
  - simpl. rewrite L.
    destruct (filledCount (JObj o) langs) as [filled |]; cbn [bind];
      [| discriminate].
    intros [= <-] m. rewrite flatten_item_unfold. cbn [isLeaf].
    intros [<- | []]. exists o. split; [reflexivity |].
    now apply (leaf_entries_strings langs).
  - rewrite buildNode_namespace by exact L.
    destruct (buildTree langs o (child_path parent k) (S dep))
      as [nodes |] eqn:B; cbn [bind]; [| discriminate].
    intros [= <-] m. rewrite flatten_item_unfold. cbn [isLeaf children].
    intros Hm. apply in_flatten in Hm as (c & Hc & Hm).
    destruct (buildTree_in langs o _ _ _ c B Hc) as (k' & v' & Hin & E).
    rewrite Forall_forall in IH. rewrite forallb_forall in Hok.
    exact (IH _ Hin _ _ k' c (Hok _ Hin) E m Hm).
Qed.

(** X18.  The rows the editor gets from a catalog whose keys are distinct,
    non-empty and free of dots have pairwise distinct paths, and each of
    them shows a string for every language. *)
Theorem editor_rows_distinct (st : State) (d : TranslationData)
    (nodes : list TreeNode) :
  data st = Some d ->
  catalog_ok d = true ->
  tree_addressable (languages d) (translations d) = true ->
  buildTreeOf st (translations d) "" 0 = Returns nodes ->
  NoDup (map path (flatten nodes)) /\
  forall m lang, In m (flatten nodes) ->
    is_string (shown_value m lang) = true.
Proof.
  intros D Hok Haddr B. unfold buildTreeOf in B. rewrite D in B.
  unfold tree_addressable in Haddr. apply andb_true_iff in Haddr as [Hd Hall].
  split.
  - apply (buildTree_rows_distinct (languages d) (translations d)) with
      (parts := []) (dep := 0); auto.
    apply Forall_forall. intros kv _ parts dep k n.
    apply buildNode_rows_distinct.
  - intros m lang Hm. apply in_flatten in Hm as (c & Hc & Hm).
    destruct (buildTree_in _ _ _ _ _ c B Hc) as (k & v & Hin & E).
    unpack_catalog Hok Hdist Hcodes Hord Hnodes.
    rewrite forallb_forall in Hnodes.
    destruct (buildNode_rows_strings (languages d) v "" 0 k c
                (Hnodes _ Hin) E m Hm) as (o & V & Hs).
    unfold shown_value. rewrite V. cbn [js_get].
    destruct (obj_get lang o) as [x |] eqn:G; [| reflexivity].
    rewrite forallb_forall in Hs. specialize (Hs _ (obj_get_in lang o x G)).
    cbn [snd] in Hs. destruct x as [s |]; [| discriminate].
    simpl. now destruct (nonempty s).
Qed.

Lemma editor_rows_distinct_witness :
  exists nodes,
    buildTreeOf (loaded sample_data) sample_tree "" 0 = Returns nodes /\
    NoDup (map path (flatten nodes)) /\
    forall m lang, In m (flatten nodes) ->
      is_string (shown_value m lang) = true.
Proof.
  eexists. split; [reflexivity |].
  apply (editor_rows_distinct (loaded sample_data) sample_data);
    reflexivity.
Defined.

(** ** The breadcrumbs of the tree view *)

Lemma split_dot_dotless s : Forall (fun p => has_dot p = false) (split_dot s).
Proof.
  induction s as [| c s IH]; simpl; [now constructor |].
  destruct (Ascii.eqb c ".") eqn:E; [now constructor |].
  destruct (split_dot s) as [| seg segs]; [now repeat constructor; simpl; rewrite E |].
  inversion IH as [| ? ? Hseg Hsegs]; subst. constructor; [| exact Hsegs].
  simpl. now rewrite E.
Qed.

(** Joining segments without dots and splitting again gives them back. *)
Lemma split_dot_join_dotless parts :
  parts <> [] -> Forall (fun p => has_dot p = false) parts ->
  split_dot (join_dot parts) = parts.
Proof.
  induction parts as [| p parts IH]; [contradiction |]. intros _ H.
  inversion H as [| ? ? Hp Hrest]; subst.
  destruct parts as [| p' parts].
  - simpl. now apply split_dot_plain.
  - change (join_dot (p :: p' :: parts))
      with (p ++ String "." (join_dot (p' :: parts)))%string.
    rewrite split_dot_app, IH by (auto || discriminate).
    now rewrite split_dot_plain.
Qed.

(** [s.split(".").join(".")] is [s]. *)
Lemma join_dot_split s : join_dot (split_dot s) = s.
Proof.
  induction s as [| c s IH]; simpl; [reflexivity |].
  pose proof (split_dot_nonempty s) as Hne.
  destruct (Ascii.eqb_spec c ".") as [-> | _].
  - destruct (split_dot s) as [| seg segs]; [contradiction |].
    change (join_dot ("" :: seg :: segs))
      with ("" ++ String "." (join_dot (seg :: segs)))%string.
    now rewrite IH.
  - destruct (split_dot s) as [| seg segs]; [contradiction |].
    destruct segs as [| seg' segs].
    + simpl in IH |- *. now rewrite IH.
    + change (join_dot (String c seg :: seg' :: segs))
        with (String c (seg ++ String "." (join_dot (seg' :: segs))))%string.
      change (join_dot (seg :: seg' :: segs))
        with (seg ++ String "." (join_dot (seg' :: segs)))%string in IH.
      now rewrite IH.
Qed.

Lemma in_firstn {A : Type} n : forall (l : list A) x,
  In x (firstn n l) -> In x l.
Proof.
  induction n as [| n IH]; intros [| y l] x; simpl; try tauto.
  intros [<- | H]; [now left | right; now apply IH].
Qed.

Lemma is_prefix_firstn n : forall a b,
  is_prefix a b = true -> is_prefix (firstn n a) b = true.
Proof.
  induction n as [| n IH]; intros a b; [reflexivity |].
  destruct a as [| x a]; [reflexivity |]. destruct b as [| y b]; simpl;
    [discriminate |].
  rewrite !andb_true_iff. intros [Hxy H]. split; [exact Hxy | now apply IH].
Qed.

Lemma array_filter_in {A : Type} (p : A -> outcome bool) : forall l out,
  array_filter p l = Returns out ->
  forall x, In x out <-> In x l /\ p x = Returns true.
Proof.
  induction l as [| y l IH]; simpl; intros out.
  - intros [= <-] x. simpl. tauto.
  - destruct (p y) as [b |] eqn:Py; cbn [bind]; [| discriminate].
    destruct (array_filter p l) as [kept |]; cbn [bind]; [| discriminate].
    intros [= <-] x. specialize (IH kept eq_refl x).
    destruct b; simpl; rewrite IH; split.
    + intros [<- | [H1 H2]]; auto.
    + intros [[<- | H1] H2]; auto.
    + intros [H1 H2]; auto.
    + intros [[<- | H1] H2]; [congruence | auto].
Qed.

(** The rows of [filteredNodes] are the rows of the selection that pass
    the search and the filter on missing languages. *)
Lemma filteredNodes_in selectedPath searchQuery missingFilter nodes out :
  filteredNodes selectedPath searchQuery missingFilter nodes = Returns out ->
  forall m,
    In m out <->
    In m match selectedPath with
         | Some sel =>
             if nonempty sel then filter (under_selection sel) nodes else nodes
         | None => nodes
         end /\
    (nonempty (trim searchQuery) = true ->
     matches_search (toLowerCase searchQuery) m = Returns true) /\
    ((0 <? List.length missingFilter)%nat = true ->
     misses_any missingFilter m = Returns true).
Proof.
  unfold filteredNodes.
  set (chosen := match selectedPath with
                 | Some sel =>
                     if nonempty sel then filter (under_selection sel) nodes
                     else nodes
                 | None => nodes
                 end).
  intros H m.
  destruct (nonempty (trim searchQuery));
    [destruct (array_filter _ chosen) as [found |] eqn:F; cbn [bind] in H;
       [| discriminate] |
     cbn [bind] in H];
    (destruct (0 <? List.length missingFilter)%nat;
       [rewrite (array_filter_in _ _ _ H m) | injection H as <-]);
    try rewrite (array_filter_in _ _ _ F m); intuition discriminate.
Qed.

(** X19.  A click on a breadcrumb widens the selection.  The path it
    selects is made of the leading segments of the selected path, every
    row the editor showed is still shown, and the last crumb selects the
    path that was selected. *)
Theorem breadcrumb_widens_selection (sel searchQuery : string) (i : nat)
    (missingFilter : list string) (nodes out out' : list TreeNode) :
  sel <> "" ->
  i < List.length (breadcrumbs (Some sel)) ->
  filteredNodes (Some sel) searchQuery missingFilter nodes = Returns out ->
  filteredNodes (handleBreadcrumbClick (Some sel) (Some i)) searchQuery
    missingFilter nodes = Returns out' ->
  (forall m, In m out -> In m out') /\
  (S i = List.length (breadcrumbs (Some sel)) ->
   handleBreadcrumbClick (Some sel) (Some i) = Some sel).
Proof.
  intros Hsel Hi H H'. assert (N : nonempty sel = true) by now destruct sel.
  unfold handleBreadcrumbClick, breadcrumbs in *. rewrite N in *.
  split.
  - intros m Hm.
    apply (filteredNodes_in _ _ _ _ _ H) in Hm as (Hm & Hq & Hmf).
    apply (filteredNodes_in _ _ _ _ _ H'). split; [| now split].
    rewrite N in Hm. apply filter_In in Hm as [Hm Hunder].
    destruct (nonempty (join_dot (firstn (S i) (split_dot sel))));
      [| exact Hm].
    apply filter_In. split; [exact Hm |].
    unfold under_selection in *. rewrite under_selection_segments in *.
    rewrite split_dot_join_dotless.
    + now apply is_prefix_firstn.
    + pose proof (split_dot_nonempty sel). now destruct (split_dot sel).
    + apply Forall_forall. intros x Hx. apply in_firstn in Hx.
      pose proof (split_dot_dotless sel) as Hd. rewrite Forall_forall in Hd.
      now apply Hd.
  - intros ->. now rewrite firstn_all, join_dot_split.
Qed.

Lemma breadcrumb_widens_selection_witness :
  handleBreadcrumbClick (Some "auth.login") (Some 0) = Some "auth" /\
  incl
    [mkTreeNode "title" "auth.login.title" 2 true None
       (Some (leaf2 "Login" "Anmelden")) 100%Q]
    [mkTreeNode "title" "auth.login.title" 2 true None
       (Some (leaf2 "Login" "Anmelden")) 100%Q;
     mkTreeNode "title" "auth.register.title" 2 true None
       (Some (leaf2 "Create Account" "Konto erstellen")) 100%Q].
Proof.
  split; [reflexivity |]. unfold incl.
  apply (breadcrumb_widens_selection "auth.login" "title" 0 []
           [mkTreeNode "title" "auth.login.title" 2 true None
              (Some (leaf2 "Login" "Anmelden")) 100%Q;
            mkTreeNode "title" "auth.register.title" 2 true None
              (Some (leaf2 "Create Account" "Konto erstellen")) 100%Q;
            mkTreeNode "welcome" "dashboard.welcome" 1 true None
              (Some (leaf2 "Hello User" "Hallo Benutzer")) 100%Q]
           [mkTreeNode "title" "auth.login.title" 2 true None
              (Some (leaf2 "Login" "Anmelden")) 100%Q]
           [mkTreeNode "title" "auth.login.title" 2 true None
              (Some (leaf2 "Login" "Anmelden")) 100%Q;
            mkTreeNode "title" "auth.register.title" 2 true None
              (Some (leaf2 "Create Account" "Konto erstellen")) 100%Q]).
  - discriminate.
  - simpl. lia.
  - reflexivity.
  - reflexivity.
Defined.

(** ** The search of the tree view *)

Lemma TreeNode_ind (P : TreeNode -> Prop)
    (H : forall n,
       match children n with
       | Some nodes => Forall P nodes
       | None => True
       end -> P n) :
  forall n, P n.
Proof.
  fix IH 1. intros [k p dp lf cs vs c]. apply H. simpl.
  destruct cs as [nodes |]; [| exact I].
  induction nodes as [| x nodes IHn]; constructor; [apply IH | exact IHn].
Qed.

Lemma every_node_impl (P Q : TreeNode -> Prop) :
  (forall n, P n -> Q n) -> forall n, every_node P n -> every_node Q n.
Proof.
  intros HPQ. induction n as [n IH] using TreeNode_ind.
  rewrite !every_node_unfold. intros [Hn Hc]. split; [now apply HPQ |].
  destruct (children n) as [nodes |]; [| exact I].
  rewrite Forall_forall in *. intros x Hx. apply IH; auto.
Qed.

Lemma in_set_add x p s : In x (set_add p s) <-> x = p \/ In x s.
Proof.
  unfold set_add. destruct (includes p s) eqn:I.
  - apply includes_true_iff in I. split; [now right |].
    intros [-> | H]; assumption.
  - rewrite in_app_iff. simpl. intuition congruence.
Qed.

Lemma in_add_parents x parts ms :
  In x (add_parents parts ms) <->
  In x ms \/
  exists i, 1 <= i < List.length parts /\ x = join_dot (firstn i parts).
Proof.
  unfold add_parents.
  assert (G : forall l ms,
            In x (fold_left
                    (fun ms i => set_add (join_dot (firstn i parts)) ms) l ms)
            <-> In x ms \/
                exists i, In i l /\ x = join_dot (firstn i parts)).
  { clear ms. induction l as [| j l IH]; intros ms; simpl.
    - split; [now left | intros [H | (i & [] & _)]; exact H].
    - rewrite IH, in_set_add. split.
      + intros [[-> | H] | (i & Hi & ->)]; eauto.
      + intros [H | (i & [<- | Hi] & ->)]; eauto. }
  rewrite G. split; (intros [H | (i & Hi & ->)]; [now left | right]);
    exists i; (split; [| reflexivity]).
  - apply in_seq in Hi. lia.
  - apply in_seq. lia.
Qed.

Lemma firstn_firstn_le {A : Type} i : forall j (l : list A),
  i <= j -> firstn i (firstn j l) = firstn i l.
Proof.
  induction i as [| i IH]; intros j l Hij; [reflexivity |].
  destruct j as [| j]; [lia |]. destruct l as [| x l]; [reflexivity |].
  simpl. f_equal. apply IH. lia.
Qed.

Lemma split_dot_parent p j :
  1 <= j < List.length (split_dot p) ->
  split_dot (join_dot (firstn j (split_dot p))) = firstn j (split_dot p).
Proof.
  intros Hj. apply split_dot_join_dotless.
  - destruct j as [| j]; [lia |]. destruct (split_dot p); [simpl in Hj; lia |].
    discriminate.
  - apply Forall_forall. intros x Hx. apply in_firstn in Hx.
    pose proof (split_dot_dotless p) as Hd. rewrite Forall_forall in Hd.
    now apply Hd.
Qed.

Lemma holds_parents_add p ms :
  holds_parents ms ->
  holds_parents (add_parents (split_dot p) (set_add p ms)).
Proof.
  intros Hms x i Hx Hi. apply in_add_parents.
  apply in_add_parents in Hx as [Hx | (j & Hj & ->)].
  - apply in_set_add in Hx as [-> | Hx].
    + right. now exists i.
    + left. apply in_set_add. right. now apply Hms.
  - right. rewrite split_dot_parent in Hi |- * by exact Hj.
    rewrite length_firstn in Hi.
    exists i. split; [lia |]. now rewrite firstn_firstn_le by lia.
Qed.

Lemma searchNode_unfold query node matches :
  searchNode query node matches =
  (valueMatch <-
     (if isLeaf node then
        match values node with
        | Some vals =>
            if truthy vals
            then array_some (value_matches query) (own_values vals)
            else Returns false
        | None => Returns false
        end
      else Returns false) ;;
   let found :=
     if str_includes (toLowerCase (path node)) query || valueMatch
     then add_parents (split_dot (path node)) (set_add (path node) matches)
     else matches in
   match children node with
   | Some nodes => searchNodes query nodes found
   | None => Returns found
   end).
Proof.
  destruct node as [k p dp lf cs vs c]. cbn [searchNode isLeaf values path children].
  match goal with
  | |- bind ?m _ = _ => destruct m as [valueMatch |]; cbn [bind]; [| reflexivity]
  end.
  destruct cs as [nodes |]; [| reflexivity].
  generalize (if str_includes (toLowerCase p) query || valueMatch
              then add_parents (split_dot p) (set_add p matches)
              else matches).
  induction nodes as [| x nodes IH]; intros ms; [reflexivity |].
  cbn [searchNodes]. destruct (searchNode query x ms); cbn [bind];
    [apply IH | reflexivity].
Qed.

Lemma searchNodes_each query (nodes : list TreeNode) :
  Forall (fun node => forall matches matches',
            searchNode query node matches = Returns matches' ->
            incl matches matches' /\
            (holds_parents matches -> holds_parents matches') /\
            every_node
              (fun n => str_includes (toLowerCase (path n)) query = true ->
                        In (path n) matches') node) nodes ->
  forall matches matches',
    searchNodes query nodes matches = Returns matches' ->
    incl matches matches' /\
    (holds_parents matches -> holds_parents matches') /\
    Forall (every_node
              (fun n => str_includes (toLowerCase (path n)) query = true ->
                        In (path n) matches')) nodes.
Proof.
  induction 1 as [| c nodes Hc _ IH]; intros matches matches';
    cbn [searchNodes].
  - intros [= <-]. repeat split; auto. apply incl_refl.
  - destruct (searchNode query c matches) as [ms1 |] eqn:E1; cbn [bind];
      [| discriminate].
    intros E. destruct (Hc matches ms1 E1) as (G1 & C1 & N1).
    destruct (IH ms1 matches' E) as (G & C & Hall).
    repeat split; auto.
    + exact (incl_tran G1 G).
    + constructor; [| exact Hall].
      apply (every_node_impl
               (fun n => str_includes (toLowerCase (path n)) query = true ->
                         In (path n) ms1)); [| exact N1].
      intros n Hn Hq. apply G. now apply Hn.
Qed.

(** What a search of a node does to the set: it grows, it keeps holding
    the parents of its paths, and it holds the path of every node below
    whose path contains the query. *)
Lemma searchNode_invariant query :
  forall node matches matches',
    searchNode query node matches = Returns matches' ->
    incl matches matches' /\
    (holds_parents matches -> holds_parents matches') /\
    every_node
      (fun n => str_includes (toLowerCase (path n)) query = true ->
                In (path n) matches') node.
Proof.
  induction node as [node IH] using TreeNode_ind. intros matches matches'.
  rewrite searchNode_unfold.
  match goal with
  | |- bind ?m _ = _ -> _ => destruct m as [valueMatch |]; cbn [bind];
                             [| discriminate]
  end.
  cbv zeta.
  set (found := if str_includes (toLowerCase (path node)) query || valueMatch
                then add_parents (split_dot (path node))
                       (set_add (path node) matches)
                else matches).
  assert (Hgrow : incl matches found).
  { unfold found. destruct (_ || _); [| apply incl_refl].
    intros x Hx. apply in_add_parents. left. apply in_set_add. now right. }
  assert (Hclosed : holds_parents matches -> holds_parents found).
  { unfold found. destruct (_ || _); [| auto]. apply holds_parents_add. }
  assert (Hself : str_includes (toLowerCase (path node)) query = true ->
            In (path node) found).
  { unfold found. intros ->. cbn [orb]. apply in_add_parents. left.
    apply in_set_add. now left. }
  clearbody found. rewrite every_node_unfold.
  destruct (children node) as [nodes |].
  - intros E.
    destruct (searchNodes_each query nodes IH found matches' E)
      as (G & C & Hall).
    repeat split; auto. exact (incl_tran Hgrow G).
  - intros [= <-]. repeat split; auto.
Qed.

Lemma searchNodes_invariant query nodes matches matches' :
  searchNodes query nodes matches = Returns matches' ->
  incl matches matches' /\
  (holds_parents matches -> holds_parents matches') /\
  Forall (every_node
            (fun n => str_includes (toLowerCase (path n)) query = true ->
                      In (path n) matches')) nodes.
Proof.
  apply searchNodes_each. apply Forall_forall. intros node _.
  apply searchNode_invariant.
Qed.

(** X20.  The set of matching paths of the tree view holds, with every
    path, the paths of the nodes above it; and when the search is not
    blank it holds the path of every node of the tree whose path contains
    the query in lower case. *)
Theorem matchingPaths_holds_parents (searchQuery : string)
    (tree : list TreeNode) (matches : list string) :
  matchingPaths searchQuery tree = Returns matches ->
  holds_parents matches /\
  (nonempty (trim searchQuery) = true ->
   Forall (every_node
             (fun n =>
                str_includes (toLowerCase (path n)) (toLowerCase searchQuery)
                = true ->
                In (path n) matches)) tree).
Proof.
  unfold matchingPaths. destruct (nonempty (trim searchQuery)).
  - intros E.
    destruct (searchNodes_invariant _ tree [] matches E) as (_ & C & N).
    split; [| intros _; exact N]. apply C. intros p i [].
  - intros [= <-]. split; [intros p i [] | discriminate].
Qed.

Lemma matchingPaths_holds_parents_witness :
  matchingPaths "Forgot" sample_nodes =
    Returns ["auth.login.forgot_password"; "auth"; "auth.login"] /\
  holds_parents ["auth.login.forgot_password"; "auth"; "auth.login"].
Proof.
  split; [reflexivity |].
  apply (matchingPaths_holds_parents "Forgot" sample_nodes
           ["auth.login.forgot_password"; "auth"; "auth.login"]).
  reflexivity.
Defined.

(** ** The rename dialog of the editor *)

Lemma obj_delete_replace k v (o : obj) :
  obj_delete k (obj_replace k v o) = obj_delete k o.
Proof.
  unfold obj_delete. induction o as [| [k' v'] o IH]; simpl; [reflexivity |].
  destruct (String.eqb k k') eqn:E; simpl; rewrite E; simpl;
    [reflexivity | now rewrite IH].
Qed.

(** X21.  Confirming the rename dialog with the name it opened with
    removes the key.  For a row whose last segment names an entry of its
    parent and has no white space around it, the dialog calls [renameKey]
    with the old name: the parent loses the entry, the path of the row no
    longer resolves, and a rename from the name to itself is pending. *)
Theorem rename_dialog_unchanged_removes_key (st : State) (d : TranslationData)
    (node : TreeNode) (q : list string) (k : string) (P : obj) (v : JVal) :
  data st = Some d ->
  split_dot (path node) = q ++ [k] ->
  resolve q (JObj (translations d)) = Some (JObj P) ->
  obj_get k P = Some v ->
  trim k = k ->
  k <> "" ->
  exists st' d',
    handleSaveKeyName (Some node) (handleEditKey node) st = Returns st' /\
    data st' = Some d' /\
    resolve q (JObj (translations d')) = Some (JObj (obj_delete k P)) /\
    resolve_path (path node) d' = None /\
    In (mkUnsavedChange (path node) rename_sentinel (JStr k) k)
      (unsavedChanges st').
Proof.
  intros D S R G Htrim Hk.
  unfold handleSaveKeyName, handleEditKey. rewrite S, last_snoc, Htrim.
  assert (N : nonempty k = true) by now destruct k.
  rewrite N.
  destruct (renameKey_moves st d (path node) q k k P v D S R G)
    as (d' & E & _ & R' & _).
  assert (Hdel : obj_delete k (obj_set k v P) = obj_delete k P).
  { unfold obj_set. rewrite G. apply obj_delete_replace. }
  rewrite Hdel in R'.
  eexists. exists d'. split; [exact E |]. split; [reflexivity |].
  split; [exact R' |]. split.
  - unfold resolve_path. rewrite S, resolve_app, R'. cbn [resolve js_get].
    now rewrite obj_get_delete_same.
  - cbn [unsavedChanges]. apply in_or_app. right. now left.
Qed.

Lemma rename_dialog_unchanged_removes_key_witness :
  exists st' d',
    handleSaveKeyName
      (Some (mkTreeNode "title" "auth.login.title" 2 true None
               (Some (leaf2 "Login" "Anmelden")) 100%Q))
      "title" (loaded sample_data) = Returns st' /\
    data st' = Some d' /\
    resolve ["auth"; "login"] (JObj (translations d')) =
      Some (JObj [("button", leaf2 "Sign In" "Einloggen");
                  ("forgot_password", leaf2 "Forgot password?" "")]) /\
    resolve_path "auth.login.title" d' = None /\
    In (mkUnsavedChange "auth.login.title" rename_sentinel (JStr "title")
          "title")
      (unsavedChanges st').
Proof.
  apply (rename_dialog_unchanged_removes_key (loaded sample_data) sample_data
           (mkTreeNode "title" "auth.login.title" 2 true None
              (Some (leaf2 "Login" "Anmelden")) 100%Q)
           ["auth"; "login"] "title"
           [("title", leaf2 "Login" "Anmelden");
            ("button", leaf2 "Sign In" "Einloggen");
            ("forgot_password", leaf2 "Forgot password?" "")]
           (leaf2 "Login" "Anmelden"));
    try reflexivity.
  discriminate.
Defined.

(** ** Completeness after a language is added *)

Lemma filledCount_new_language (o : obj) c : forall langs filled,
  ~ In c langs ->
  filledCount (JObj o) langs = Returns filled ->
  filledCount (JObj (obj_set c (JStr "") o)) (langs ++ [c]) = Returns filled.
Proof.
  induction langs as [| l langs IH]; intros filled Hc; cbn [filledCount app].
  - intros [= <-]. unfold is_filled. cbn [js_get].
    now rewrite obj_get_set_same.
  - assert (Hl : l <> c) by (intros ->; apply Hc; now left).
    unfold is_filled at 1 2. cbn [js_get].
    rewrite obj_get_set_other by exact Hl.
    destruct (match obj_get l o with
              | Some (JStr s) => Returns (nonempty (trim s))
              | Some (JObj _) => Throws TypeError
              | None => Returns false
              end) as [b |]; cbn [bind]; [| discriminate].
    destruct (filledCount (JObj o) langs) as [f |] eqn:F; cbn [bind];
      [| discriminate].
    intros [= <-].
    rewrite (IH f) by (auto; intros H; apply Hc; now right).
    reflexivity.
Qed.

Lemma ratio_antitone (f a b : nat) :
  0 < a -> a <= b ->
  (number_of_nat f / number_of_nat b * 100
   <= number_of_nat f / number_of_nat a * 100)%Q.
Proof.
  intros Ha Hab.
  assert (HA : (0 < number_of_nat a)%Q) by now apply number_of_nat_pos.
  assert (HB : (0 < number_of_nat b)%Q) by (apply number_of_nat_pos; lia).
  apply Qmult_le_compat_r; [| discriminate].
  apply Qle_shift_div_r; [exact HB |].
  apply (Qle_trans _ (number_of_nat f / number_of_nat a * number_of_nat a)).
  - rewrite Qmult_comm, Qmult_div_r; [apply Qle_refl |].
    intros E. rewrite E in HA. now apply Qlt_irrefl in HA.
  - rewrite !(Qmult_comm (number_of_nat f / number_of_nat a)).
    apply Qmult_le_compat_r; [now apply number_of_nat_le |].
    apply Qle_shift_div_l; [exact HA |]. rewrite Qmult_0_l.
    unfold number_of_nat. change 0%Q with (inject_Z 0).
    rewrite <- Zle_Qle. lia.
Qed.

(** X22.  A new language counts as missing in every leaf.  When
    [buildTree] makes a leaf of an object whose values are read under the
    active languages as the model reads them, it also makes a leaf of the
    object [addLanguage] turns it into, for the language list with the new
    code.  The same number of languages is filled in both, so that the
    source divides the same count by the number of languages before and by
    that number plus one after; the completeness does not rise. *)
Theorem added_language_lowers_completeness (langs : list string)
    (parent : string) (dep : nat) (k c : string) (o : obj) (n : TreeNode) :
  ~ In c langs ->
  is_leaf langs o = true ->
  forallb (reads_as_model (JObj o)) langs = true ->
  buildNode langs parent dep k (JObj o) = Returns n ->
  exists n' filled,
    filledCount (JObj o) langs = Returns filled /\
    filledCount (JObj (obj_set c (JStr "") o)) (langs ++ [c])
      = Returns filled /\
    buildNode (langs ++ [c]) parent dep k (JObj (obj_set c (JStr "") o))
      = Returns n' /\
    isLeaf n' = true /\
    completeness n =
      (number_of_nat filled / number_of_nat (List.length langs) * 100)%Q /\
    completeness n' =
      (number_of_nat filled / number_of_nat (S (List.length langs)) * 100)%Q
    /\
    (completeness n' <= completeness n)%Q.
Proof.
  intros Hc L _ B. cbn [buildNode] in B |- *. rewrite L in B.
  assert (L' : is_leaf (langs ++ [c]) (obj_set c (JStr "") o) = true).
  { apply is_leaf_true_iff. exists c. split.
    - apply (own_key_of_entry c (JStr "")). apply obj_get_set_same.
    - apply in_or_app. right. now left. }
  rewrite L'.
  destruct (filledCount (JObj o) langs) as [filled |] eqn:F; cbn [bind] in B;
    [| discriminate].
  injection B as <-.
  rewrite (filledCount_new_language o c langs filled Hc F). cbn [bind].
  eexists. exists filled. split; [reflexivity |]. split; [reflexivity |].
  split; [reflexivity |]. cbn [isLeaf completeness].
  split; [reflexivity |]. split; [reflexivity |].
  rewrite length_app. cbn [List.length]. rewrite Nat.add_1_r.
  split; [reflexivity |].
  apply ratio_antitone; [| lia]. exact (is_leaf_languages langs o L).
Qed.

Lemma added_language_lowers_completeness_witness :
  exists n',
    buildNode ["en"; "de"; "fr"] "auth.login" 2 "title"
      (JObj [("en", JStr "Login"); ("de", JStr "Anmelden"); ("fr", JStr "")])
      = Returns n' /\
    isLeaf n' = true /\
    completeness n' = (number_of_nat 2 / number_of_nat 3 * 100)%Q.
Proof.
  destruct (added_language_lowers_completeness ["en"; "de"] "auth.login" 2
              "title" "fr" [("en", JStr "Login"); ("de", JStr "Anmelden")]
              (mkTreeNode "title" "auth.login.title" 2 true None
                 (Some (leaf2 "Login" "Anmelden")) ((2 # 2) * 100)%Q))
    as (n' & filled & F & _ & B & Hleaf & _ & E & _).
  - simpl. intuition discriminate.
  - reflexivity.
  - reflexivity.
  - reflexivity.
  - exists n'. split; [exact B |]. split; [exact Hleaf |].
    injection F as <-. exact E.
Defined.

(** ** What a rename relabels *)

(** C2, amended.  When the object at [q] has an own entry [k] and the new
    name [n] differs from [k] and is assigned as an own property (it is not
    [__proto__], or the parent has that key), [renameKey] gives a tree in
    which the segments [q.n] lead to the value that was at [q.k], the
    parent has no entry [k] any more, and every list of segments resolves
    as before unless it leads to the parent or above it, or goes through
    [q.k] or [q.n]; an entry that was at [q.n] is replaced.  When [n] has
    no dot, the key path made of [q] and [n] resolves to the value; when
    [k] is not a member of [Object.prototype], the old key path reads
    [undefined]. *)
Theorem renameKey_relabels (st : State) (d : TranslationData)
    (oldPath : string) (q : list string) (k n : string) (P : obj) (v : JVal) :
  data st = Some d ->
  split_dot oldPath = q ++ [k] ->
  resolve q (JObj (translations d)) = Some (JObj P) ->
  obj_get k P = Some v ->
  n <> k ->
  assigns_as_model P n = true ->
  exists st' d' P',
    renameKey oldPath n st = Returns st' /\
    data st' = Some d' /\
    resolve q (JObj (translations d')) = Some (JObj P') /\
    resolve (q ++ [n]) (JObj (translations d')) = Some v /\
    resolve (q ++ [k]) (JObj (translations d')) = None /\
    (has_dot n = false ->
     resolve_path (join_dot (q ++ [n])) d' = Some v) /\
    (object_member k = false ->
     resolve_path oldPath d' = None /\ reads_as_model (JObj P') k = true) /\
    forall r,
      is_prefix r q = false ->
      is_prefix (q ++ [k]) r = false ->
      is_prefix (q ++ [n]) r = false ->
      resolve r (JObj (translations d')) = resolve r (JObj (translations d)).
Proof.
  intros D S R G Hne _.
  destruct (renameKey_moves st d oldPath q k n P v D S R G)
    as (d' & E & _ & R' & Dv).
  assert (Rn : resolve (q ++ [n]) (JObj (translations d')) = Some v).
  { rewrite resolve_app, R'. simpl. now autorewrite with js_objects. }
  assert (Rk : resolve (q ++ [k]) (JObj (translations d')) = None).
  { rewrite resolve_app, R'. simpl. now autorewrite with js_objects. }
  eexists. exists d'. eexists. split; [exact E |]. split; [reflexivity |].
  split; [exact R' |]. split; [exact Rn |]. split; [exact Rk |].
  split; [| split].
  - intros Hdot. unfold resolve_path. rewrite split_dot_join_dotless.
    + exact Rn.
    + now destruct q.
    + pose proof (split_dot_dotless oldPath) as Hd. rewrite S in Hd.
      apply Forall_app in Hd as [Hq _]. apply Forall_app. split; [exact Hq |].
      now constructor.
  - intros Hk. split; [unfold resolve_path; now rewrite S |].
    cbn [reads_as_model]. now rewrite Hk, orb_true_r.
  - intros r Hr Hk Hn.
    destruct (not_prefix_cases r q Hr) as [Hd | (j & r' & ->)];
      [now apply Dv |].
    rewrite <- (app_nil_r (q ++ [k])), <- (app_nil_r (q ++ [n])) in *.
    rewrite <- !app_assoc, is_prefix_app in Hk, Hn. simpl in Hk, Hn.
    rewrite andb_true_r in Hk, Hn.
    apply String.eqb_neq in Hk, Hn.
    rewrite !resolve_app, R', R. simpl.
    now autorewrite with js_objects.
Qed.

Lemma renameKey_relabels_witness :
  exists st' d',
    renameKey "auth.login.title" "heading" (loaded sample_data) = Returns st' /\
    data st' = Some d' /\
    resolve_path "auth.login.heading" d' = Some (leaf2 "Login" "Anmelden") /\
    resolve_path "auth.login.title" d' = None /\
    resolve_path "auth.login.button" d' = Some (leaf2 "Sign In" "Einloggen").
Proof.
  destruct (renameKey_relabels (loaded sample_data) sample_data
              "auth.login.title" ["auth"; "login"] "title" "heading"
              [("title", leaf2 "Login" "Anmelden");
               ("button", leaf2 "Sign In" "Einloggen");
               ("forgot_password", leaf2 "Forgot password?" "")]
              (leaf2 "Login" "Anmelden"))
    as (st' & d' & P' & E & D' & _ & _ & _ & Hn & Hk & Hr);
    try reflexivity; [discriminate |].
  exists st', d'. split; [exact E |]. split; [exact D' |].
  split; [exact (Hn eq_refl) |]. split; [exact (proj1 (Hk eq_refl)) |].
  exact (Hr ["auth"; "login"; "button"] eq_refl eq_refl eq_refl).
Defined.

(** Renaming [title] to the name of its sibling [button] changes what
    [auth.login.button] holds, a node outside the renamed entry; renaming
    [title] to [title] removes the entry, so that no node is left at the
    new path. *)
Lemma renameKey_relabels_counterexample :
  (resolve_path "auth.login.button" sample_data
     = Some (leaf2 "Sign In" "Einloggen") /\
   exists st' d',
     renameKey "auth.login.title" "button" (loaded sample_data) = Returns st' /\
     data st' = Some d' /\
     resolve_path "auth.login.button" d' = Some (leaf2 "Login" "Anmelden")) /\
  (resolve_path "auth.login.title" sample_data
     = Some (leaf2 "Login" "Anmelden") /\
   exists st' d',
     renameKey "auth.login.title" "title" (loaded sample_data) = Returns st' /\
     data st' = Some d' /\
     resolve_path "auth.login.title" d' = None).
Proof.
  split; (split; [reflexivity |]); eexists; eexists;
    (split; [reflexivity |]); split; reflexivity.
Qed.
